(** * MigrationIQ: a shallow embedding of the analysis core

    The development follows the Python sources of the repository:
    - [migrationiq/core/migration_graph.py]  (dependency graph and its analyses),
    - [migrationiq/core/risk_scoring.py]     (weights, findings, severity bands),
    - [migrationiq/rules/non_null_rule.py]   (the non-null-without-default lint rule),
    - [migrationiq/core/branch_compare.py]   (branch comparison over a git client),
    - [migrationiq/core/engine.py]           (graph construction from migration records).

    Python values are modelled as follows.  A [str] is a Rocq [string]; the
    byte-wise lexicographic order of Rocq strings coincides with Python's
    code-point order on UTF-8 encoded text.  A [set] of strings is a [gset
    string]; a [dict] whose iteration order is observable is an association
    list in insertion order, a [dict] that is only accessed by key is a
    [gmap].  Code that can raise returns a value of type [res]. *)

From stdpp Require Import gmap strings list sorting pretty relations.
From Stdlib Require Import ZArith Ascii.
From Stdlib Require OrderedTypeEx.


#[global] Set Warnings "-clear-no-such-hyp".

(** ** Python primitives *)

(** Exceptions that the modelled code can raise. *)
Inductive exn : Type :=
| KeyError (key : string)
| ValueError (msg : string)
| GitError (command stderr : string) (returncode : Z).

(** Outcome of a call: a value, a raised exception, or exhaustion of the
    iteration budget given to a [while] loop. *)
Inductive res (A : Type) : Type :=
| Ok (a : A)
| Raise (e : exn)
| OutOfFuel.
Arguments Ok {A} a.
Arguments Raise {A} e.
Arguments OutOfFuel {A}.

#[global] Instance res_ret : MRet res := λ A a, Ok a.
#[global] Instance res_bind : MBind res := λ A B f m,
  match m with
  | Ok a => f a
  | Raise e => Raise e
  | OutOfFuel => OutOfFuel
  end.

(** [a <= b] on Python strings. *)
Definition str_le (a b : string) : Prop := String.leb a b = true.

#[global] Instance str_le_dec : RelDecision str_le.
Proof. intros a b. unfold str_le. apply _. Defined.

(** [sorted(xs)] for a sequence of strings. *)
Definition sorted (xs : list string) : list string := merge_sort str_le xs.

(** A [defaultdict(set)] with string keys, in insertion order. *)
Abbreviation setdict := (list (string * gset string)).

(** [d.get(k)] *)
Fixpoint dict_get (d : setdict) (k : string) : option (gset string) :=
  match d with
  | [] => None
  | (k', v) :: d' => if decide (k' = k) then Some v else dict_get d' k
  end.

(** [d[k].add(x)] on a [defaultdict(set)]: a missing key is created (at the
    end of the iteration order) with the empty set before the insertion. *)
Fixpoint dict_add (d : setdict) (k x : string) : setdict :=
  match d with
  | [] => [(k, {[x]})]
  | (k', v) :: d' =>
      if decide (k' = k) then (k', v ∪ {[x]}) :: d' else (k', v) :: dict_add d' k x
  end.

(** Truth value of [d.get(k)]: [None] and the empty set are false. *)
Definition truthy (o : option (gset string)) : Prop :=
  match o with
  | None => False
  | Some s => s ≠ ∅
  end.

#[global] Instance truthy_dec o : Decision (truthy o).
Proof. destruct o; simpl; apply _. Defined.

(** [d.get(k, set())] *)
Definition get_or_empty (d : setdict) (k : string) : gset string :=
  default ∅ (dict_get d k).

(** ** migration_graph.py *)

Record GraphIssue : Type := {
  issue_type : string;
  severity : string;
  description : string;
  nodes : list string;
}.

Record MigrationGraph : Type := {
  _forward : setdict;
  _reverse : setdict;
  _nodes : gset string;
}.

(** [MigrationGraph()] *)
Definition empty_graph : MigrationGraph :=
  {| _forward := []; _reverse := []; _nodes := ∅ |}.

Definition add_node (g : MigrationGraph) (node : string) : MigrationGraph :=
  {| _forward := _forward g; _reverse := _reverse g; _nodes := _nodes g ∪ {[node]} |}.

Definition add_edge (g : MigrationGraph) (node dependency : string) : MigrationGraph :=
  {| _forward := dict_add (_forward g) node dependency;
     _reverse := dict_add (_reverse g) dependency node;
     _nodes := _nodes g ∪ {[node]} ∪ {[dependency]} |}.

Definition find_heads (g : MigrationGraph) : list string :=
  sorted (filter (λ n, ¬ truthy (dict_get (_reverse g) n)) (elements (_nodes g))).

Definition find_roots (g : MigrationGraph) : list string :=
  sorted (filter (λ n, ¬ truthy (dict_get (_forward g) n)) (elements (_nodes g))).

Definition find_orphans (g : MigrationGraph) : list string :=
  sorted (filter (λ n, ¬ truthy (dict_get (_forward g) n)
                       ∧ ¬ truthy (dict_get (_reverse g) n))
                 (elements (_nodes g))).

Definition detect_multiple_heads (g : MigrationGraph) : list string :=
  let heads := find_heads g in
  if decide (1 < length heads) then heads else [].

(** *** detect_cycles *)

Inductive colour : Type := WHITE | GRAY | BLACK.

#[global] Instance colour_eq_dec : EqDecision colour.
Proof. solve_decision. Defined.

Record dfs_state : Type := {
  color : gmap string colour;
  parent : gmap string (option string);
  cycles : list (list string);
}.

Definition set_color (n : string) (c : colour) (st : dfs_state) : dfs_state :=
  {| color := <[n := c]> (color st); parent := parent st; cycles := cycles st |}.

Definition set_parent (n p : string) (st : dfs_state) : dfs_state :=
  {| color := color st; parent := <[n := Some p]> (parent st); cycles := cycles st |}.

Definition add_cycle (c : list string) (st : dfs_state) : dfs_state :=
  {| color := color st; parent := parent st; cycles := cycles st ++ [c] |}.

(** [parent.get(k)] : a missing key and a key bound to [None] both give [None]. *)
Definition parent_get (p : gmap string (option string)) (k : string) : option string :=
  default None (p !! k).

(** The inner loop [while cur is not None and cur != dep]. *)
Fixpoint walk_parents (fuel : nat) (p : gmap string (option string))
    (dep : string) (cur : option string) (cycle : list string) : res (list string) :=
  match cur with
  | None => Ok cycle
  | Some c =>
      if decide (c = dep) then Ok cycle
      else match fuel with
           | O => OutOfFuel
           | S fuel' => walk_parents fuel' p dep (parent_get p c) (cycle ++ [c])
           end
  end.

(** The stack of the traversal; the head of the list is the top of the stack
    (the end of the Python list). *)
Abbreviation dfs_stack := (list (string * bool)).

(** One iteration of [for dep in sorted(self._forward.get(node, set()))]. *)
Definition visit_dep (wfuel : nat) (node : string)
    (acc : res (dfs_state * dfs_stack)) (dep : string) : res (dfs_state * dfs_stack) :=
  '(st, stack) ← acc;
  match color st !! dep with
  | None => Raise (KeyError dep)
  | Some GRAY =>
      cycle ← walk_parents wfuel (parent st) dep (parent_get (parent st) node) [dep; node];
      Ok (add_cycle (reverse cycle) st, stack)
  | Some WHITE => Ok (set_parent dep node st, (dep, false) :: stack)
  | Some BLACK => Ok (st, stack)
  end.

(** The loop [while stack]. *)
Fixpoint dfs_loop (g : MigrationGraph) (wfuel fuel : nat)
    (st : dfs_state) (stack : dfs_stack) : res dfs_state :=
  match stack with
  | [] => Ok st
  | (node, processed) :: stack' =>
      match fuel with
      | O => OutOfFuel
      | S fuel' =>
          if processed then dfs_loop g wfuel fuel' (set_color node BLACK st) stack'
          else
            match color st !! node with
            | None => Raise (KeyError node)
            | Some GRAY => dfs_loop g wfuel fuel' (set_color node BLACK st) stack'
            | Some _ =>
                '(st', stack'') ←
                  foldl (visit_dep wfuel node)
                        (Ok (set_color node GRAY st, (node, true) :: stack'))
                        (sorted (elements (get_or_empty (_forward g) node)));
                dfs_loop g wfuel fuel' st' stack''
            end
      end
  end.

(** One iteration of [for start in sorted(self._nodes)]. *)
Definition dfs_from (g : MigrationGraph) (fuel : nat)
    (acc : res dfs_state) (start : string) : res dfs_state :=
  st ← acc;
  match color st !! start with
  | None => Raise (KeyError start)
  | Some WHITE => dfs_loop g fuel fuel st [(start, false)]
  | Some _ => Ok st
  end.

Definition dfs_init (g : MigrationGraph) : dfs_state :=
  {| color := gset_to_gmap WHITE (_nodes g);
     parent := gset_to_gmap None (_nodes g);
     cycles := [] |}.

(** [detect_cycles] where every [while] loop may run for [fuel] iterations. *)
Definition detect_cycles_fuel (fuel : nat) (g : MigrationGraph) : res (list (list string)) :=
  st ← foldl (dfs_from g fuel) (Ok (dfs_init g)) (sorted (elements (_nodes g)));
  Ok (cycles st).

(** An iteration budget that the loops of [detect_cycles] never exceed on a
    graph built through [add_node] and [add_edge] (lemma
    [detect_cycles_spec] below). *)
Definition dfs_bound (g : MigrationGraph) : nat :=
  size (_nodes g) * (2 * size (_nodes g) + 2) + 3.

Definition detect_cycles (g : MigrationGraph) : res (list (list string)) :=
  detect_cycles_fuel (dfs_bound g) g.

(** *** topological_sort *)

(** [{n: len(self._forward.get(n, set())) for n in self._nodes}] *)
Definition in_degree_init (g : MigrationGraph) : gmap string Z :=
  set_to_map (λ n, (n, Z.of_nat (size (get_or_empty (_forward g) n)))) (_nodes g).

(** One iteration of [for dependent in sorted(self._reverse.get(node, set()))]. *)
Definition relax (acc : res (gmap string Z * list string)) (dependent : string)
    : res (gmap string Z * list string) :=
  '(in_degree, queue) ← acc;
  match in_degree !! dependent with
  | None => Raise (KeyError dependent)
  | Some d =>
      let d' := (d - 1)%Z in
      Ok (<[dependent := d']> in_degree,
          if decide (d' = 0%Z) then queue ++ [dependent] else queue)
  end.

(** The loop [while queue]; the head of the list is the left end of the deque. *)
Fixpoint kahn_loop (g : MigrationGraph) (fuel : nat) (in_degree : gmap string Z)
    (queue result : list string) : res (list string) :=
  match queue with
  | [] => Ok result
  | node :: queue' =>
      match fuel with
      | O => OutOfFuel
      | S fuel' =>
          '(in_degree', queue'') ←
            foldl relax (Ok (in_degree, queue'))
                  (sorted (elements (get_or_empty (_reverse g) node)));
          kahn_loop g fuel' in_degree' queue'' (result ++ [node])
      end
  end.

Definition cycle_message : string :=
  "Migration graph contains cycles – topological sort is impossible.".

Definition topological_sort_fuel (fuel : nat) (g : MigrationGraph) : res (list string) :=
  let in_degree := in_degree_init g in
  let queue :=
    sorted (filter (λ n, in_degree !! n = Some 0%Z) (elements (_nodes g))) in
  result ← kahn_loop g fuel in_degree queue [];
  if decide (length result ≠ size (_nodes g))
  then Raise (ValueError cycle_message)
  else Ok result.

(** Every iteration of the loop removes one node from the queue and a node
    enters the queue at most once, so [size nodes] iterations suffice
    (theorem [kahn_loop_fuel_enough] below). *)
Definition topological_sort (g : MigrationGraph) : res (list string) :=
  topological_sort_fuel (size (_nodes g)) g.

(** *** missing_dependencies and analyze *)

Definition missing_dependencies (g : MigrationGraph) : list (string * string) :=
  flat_map
    (λ '(node, deps),
       (λ dep, (node, dep)) <$> filter (λ dep, dep ∉ _nodes g) (sorted (elements deps)))
    (_forward g).

Definition multiple_heads_issue (heads : list string) : GraphIssue :=
  {| issue_type := "multiple_heads"; severity := "critical";
     description := "Migration graph has " +:+ pretty (length heads)
       +:+ " heads – this will cause merge conflicts. Create a merge migration to resolve.";
     nodes := heads |}.

Definition cycle_issue (cycle : list string) : GraphIssue :=
  {| issue_type := "cycle"; severity := "critical";
     description := "Circular dependency detected: " +:+ String.concat " → " cycle
       +:+ ". This will prevent migrations from running.";
     nodes := cycle |}.

Definition missing_dependency_issue (p : string * string) : GraphIssue :=
  {| issue_type := "missing_dependency"; severity := "critical";
     description := "Migration '" +:+ p.1 +:+ "' depends on '" +:+ p.2
       +:+ "' which does not exist.";
     nodes := [p.1; p.2] |}.

Definition orphan_issue (orphans : list string) : GraphIssue :=
  {| issue_type := "orphan"; severity := "warning";
     description := "Found " +:+ pretty (length orphans)
       +:+ " orphan migration(s) with no dependencies or dependents.";
     nodes := orphans |}.

Definition analyze (g : MigrationGraph) : res (list GraphIssue) :=
  let issues := [] in
  let heads := detect_multiple_heads g in
  let issues := if decide (heads ≠ []) then issues ++ [multiple_heads_issue heads] else issues in
  cycles ← detect_cycles g;
  let issues := issues ++ (cycle_issue <$> cycles) in
  let issues := issues ++ (missing_dependency_issue <$> missing_dependencies g) in
  let orphans := find_orphans g in
  let issues := if decide (orphans ≠ []) then issues ++ [orphan_issue orphans] else issues in
  Ok issues.


(** ** adapters/base.py and engine.py *)

Module Adapters.

Record MigrationInfo : Type := {
  migration_id : string;
  app_label : string;
  dependencies : list string;
  operations : list string;
  sql_content : string;
  file_path : option string;
}.

End Adapters.

(** [MigrationIQEngine._build_graph] *)
Definition _build_graph (migrations : list Adapters.MigrationInfo) : MigrationGraph :=
  foldl
    (λ graph m,
       foldl (λ graph dep, add_edge graph (Adapters.migration_id m) dep)
             (add_node graph (Adapters.migration_id m))
             (Adapters.dependencies m))
    empty_graph migrations.

(** ** risk_scoring.py *)

Module RiskScoring.

Inductive Severity : Type := LOW | MEDIUM | HIGH | CRITICAL.

Definition from_score (score : Z) : Severity :=
  if decide (score ≤ 3)%Z then LOW
  else if decide (score ≤ 6)%Z then MEDIUM
  else if decide (score ≤ 9)%Z then HIGH
  else CRITICAL.

Definition DEFAULT_WEIGHTS : gmap string Z :=
  list_to_map
    [("drop_table", 10%Z); ("drop_column", 8%Z);
     ("non_null_without_default", 7%Z); ("risky_type_change", 6%Z);
     ("multiple_heads", 9%Z); ("branch_behind_target", 5%Z);
     ("large_table_alter", 6%Z)].

Record RiskFinding : Type := {
  category : string;
  score : Z;
  description : string;
  file_path : string;
}.

Record RiskReport : Type := { findings : list RiskFinding }.

(** [RiskReport()] *)
Definition new_report : RiskReport := {| findings := [] |}.

(** [sum(f.score for f in self.findings)] *)
Definition total_score (r : RiskReport) : Z :=
  foldl (λ acc f, (acc + score f)%Z) 0%Z (findings r).

Definition severity (r : RiskReport) : Severity := from_score (total_score r).

(** [RiskReport.add]; [weights] is [None] or a table, and [weights or
    DEFAULT_WEIGHTS] also replaces an empty table by the default one. *)
Definition add (r : RiskReport) (category description file_path : string)
    (weights : option (gmap string Z)) : RiskReport :=
  let w := match weights with
           | Some w => if decide (w = ∅) then DEFAULT_WEIGHTS else w
           | None => DEFAULT_WEIGHTS
           end in
  let score := default 5%Z (w !! category) in
  {| findings := findings r ++
       [{| category := category; score := score;
           description := description; file_path := file_path |}] |}.

Definition passed (r : RiskReport) : bool :=
  bool_decide (length (findings r) = 0).

Record RiskScorer : Type := {
  weights : gmap string Z;
  _report : RiskReport;
}.

(** [RiskScorer(weights)]: [{**DEFAULT_WEIGHTS, **(weights or {})}]. *)
Definition new_scorer (custom : option (gmap string Z)) : RiskScorer :=
  {| weights := default ∅ custom ∪ DEFAULT_WEIGHTS; _report := new_report |}.

Definition report (s : RiskScorer) : RiskReport := _report s.

Definition add_finding (s : RiskScorer) (category description file_path : string)
    : RiskScorer :=
  {| weights := weights s;
     _report := add (_report s) category description file_path (Some (weights s)) |}.

Definition exceeds_threshold (s : RiskScorer) (threshold : Z) : bool :=
  bool_decide (threshold < total_score (_report s))%Z.

Definition reset (s : RiskScorer) : RiskScorer :=
  {| weights := weights s; _report := new_report |}.

End RiskScoring.

(** ** The fragment of Python's [re] used by the lint rules

    Contents are taken to be ASCII text, one [ascii] per character; on such
    text the classes [\w], [\s] and case-insensitive literals are as below.
    Python's classes are wider outside ASCII ([\w], [\b] and [\s] follow
    Unicode, and ignoring case also equates a few non-ASCII letters with
    [i], [s] and [k]), so what is proved of the rules' matches is stated for
    ASCII contents only.
    The matcher is a backtracking matcher in continuation-passing style: it
    explores alternatives in the order of Python's engine (greedy repetition
    first gives the longest run, then shorter ones) and returns the length of
    the first match found at the given position. *)

Module Re.

Definition code (c : ascii) : N := N_of_ascii c.

Definition between (lo hi : N) (c : ascii) : bool :=
  (lo <=? code c)%N && (code c <=? hi)%N.

(** [\w] *)
Definition is_word (c : ascii) : bool :=
  between 97 122 c || between 65 90 c || between 48 57 c || (code c =? 95)%N.

(** [\s]: tab, newline, vertical tab, form feed, carriage return, the
    separators 0x1c-0x1f, and space. *)
Definition is_space (c : ascii) : bool :=
  between 9 13 c || between 28 31 c || (code c =? 32)%N.

(** [[^;]] *)
Definition not_semicolon (c : ascii) : bool := negb (code c =? 59)%N.

Definition lower (c : ascii) : ascii :=
  if between 65 90 c then ascii_of_N (code c + 32) else c.

Inductive regex : Type :=
| Eps
| Chr (c : ascii)                  (* a literal character, under IGNORECASE *)
| Cls (p : ascii → bool)           (* one character of a class *)
| Star (p : ascii → bool)          (* greedy repetition of a class *)
| Seq (r1 r2 : regex)
| Boundary                         (* \b *)
| NotAhead (r : regex).            (* (?!r) *)

(** Continuations receive the character before the current position (if
    any) and the rest of the subject, and return the number of characters
    they consume. *)
Abbreviation cont := (option ascii → list ascii → option nat).

Fixpoint run_star (p : ascii → bool) (k : cont) (prev : option ascii)
    (s : list ascii) : option nat :=
  match s with
  | c :: s' =>
      if p c then
        match run_star p k (Some c) s' with
        | Some n => Some (S n)
        | None => k prev s
        end
      else k prev s
  | [] => k prev s
  end.

Definition word_at (o : option ascii) : bool :=
  match o with Some c => is_word c | None => false end.

Fixpoint run (r : regex) (k : cont) (prev : option ascii) (s : list ascii)
    : option nat :=
  match r with
  | Eps => k prev s
  | Chr x =>
      match s with
      | c :: s' =>
          if bool_decide (lower c = lower x) then S <$> k (Some c) s' else None
      | [] => None
      end
  | Cls p =>
      match s with
      | c :: s' => if p c then S <$> k (Some c) s' else None
      | [] => None
      end
  | Star p => run_star p k prev s
  | Seq r1 r2 => run r1 (run r2 k) prev s
  | Boundary => if xorb (word_at prev) (word_at (head s)) then k prev s else None
  | NotAhead r' =>
      match run r' (λ _ _, Some 0) prev s with
      | Some _ => None
      | None => k prev s
      end
  end.

(** Length of the match of [r] starting at the current position. *)
Definition match_here (r : regex) (prev : option ascii) (s : list ascii) : option nat :=
  run r (λ _ _, Some 0) prev s.

(** [r.finditer(s)]: the (start, length) pairs of the successive matches,
    scanning from position [pos]; [skip] counts the characters still
    covered by the previous match.  None of the patterns below matches the
    empty string. *)
Fixpoint finditer_from (r : regex) (prev : option ascii) (s : list ascii)
    (pos skip : nat) : list (nat * nat) :=
  match skip with
  | S skip' =>
      match s with
      | c :: s' => finditer_from r (Some c) s' (S pos) skip'
      | [] => []
      end
  | O =>
      match match_here r prev s with
      | Some n =>
          (pos, n) ::
          match s with
          | c :: s' => finditer_from r (Some c) s' (S pos) (pred n)
          | [] => []
          end
      | None =>
          match s with
          | c :: s' => finditer_from r (Some c) s' (S pos) O
          | [] => []
          end
      end
  end.

Definition finditer (r : regex) (s : list ascii) : list (nat * nat) :=
  finditer_from r None s 0 0.

(** [r.search(s)] as a truth value. *)
Definition search (r : regex) (s : list ascii) : bool :=
  match finditer r s with [] => false | _ :: _ => true end.

(** Pattern builders. *)
Definition lit (w : string) : regex :=
  foldr (λ c r, Seq (Chr c) r) Eps (String.list_ascii_of_string w).

Definition plus (p : ascii → bool) : regex := Seq (Cls p) (Star p).

Definition seq (rs : list regex) : regex := foldr Seq Eps rs.

End Re.

(** ** rules/base_rule.py and rules/non_null_rule.py *)

Module Rules.

Inductive ViolationSeverity : Type := INFO | WARNING | ERROR | CRITICAL.

Record RuleViolation : Type := {
  rule_id : string;
  severity : ViolationSeverity;
  file_path : string;
  message : string;
  explanation : string;
  suggested_fix : string;
  example_snippet : string;
  line_hint : option Z;
}.

End Rules.

Module NonNullRule.
Import Re Rules.

(** A line break inside a Python string literal. *)
Definition nl : string := String "010" "".

(** [\bADD\s+COLUMN\s+\w+\s+\w+[^;]*\bNOT\s+NULL\b(?![^;]*\bDEFAULT\b)] *)
Definition _ADD_COL_NOT_NULL_SQL_RE : regex :=
  seq [Boundary; lit "ADD"; plus is_space; lit "COLUMN"; plus is_space;
       plus is_word; plus is_space; plus is_word; Star not_semicolon;
       Boundary; lit "NOT"; plus is_space; lit "NULL"; Boundary;
       NotAhead (seq [Star not_semicolon; Boundary; lit "DEFAULT"; Boundary])].

(** [\bAddField\b] *)
Definition _DJANGO_ADD_FIELD_RE : regex := seq [Boundary; lit "AddField"; Boundary].

(** [\bnull\s*=\s*False\b] *)
Definition _DJANGO_NULL_FALSE_RE : regex :=
  seq [Boundary; lit "null"; Star is_space; lit "="; Star is_space; lit "False"; Boundary].

(** [\bdefault\s*=] *)
Definition _DJANGO_DEFAULT_RE : regex :=
  seq [Boundary; lit "default"; Star is_space; lit "="].

(** [\bop\.add_column\b] *)
Definition _ALEMBIC_ADD_COL_RE : regex := seq [Boundary; lit "op.add_column"; Boundary].

(** [\bnullable\s*=\s*False\b] *)
Definition _ALEMBIC_NULLABLE_FALSE_RE : regex :=
  seq [Boundary; lit "nullable"; Star is_space; lit "="; Star is_space; lit "False"; Boundary].

Definition rule_id : string := "non-null-without-default".

(** [content[:start].count("\n") + 1] *)
Definition line_no (content : list ascii) (start : nat) : Z :=
  (Z.of_nat (length (filter (λ c, c = "010"%char) (take start content))) + 1)%Z.

(** [content[start:min(start + 300, len(content))]]; on ASCII content the
    300 characters of the source are these 300 bytes. *)
Definition context_at (content : list ascii) (start : nat) : list ascii :=
  take 300 (drop start content).

Definition _make_violation (migration : Adapters.MigrationInfo) (line_no : Z) (message : string)
    : RuleViolation :=
  {| Rules.rule_id := rule_id; severity := ERROR;
     file_path := default "" (Adapters.file_path migration);
     message := message;
     explanation := "Adding a NOT NULL column without a default value will fail on tables that already contain rows.";
     suggested_fix := "Use a two-step migration approach:" +:+ nl
       +:+ "1. Add the column as nullable with a default value." +:+ nl
       +:+ "2. Back-fill existing rows." +:+ nl
       +:+ "3. In a separate migration, set NOT NULL.";
     example_snippet := "# Step 1:" +:+ nl
       +:+ "ALTER TABLE users ADD COLUMN role VARCHAR(50) DEFAULT 'member';" +:+ nl
       +:+ "# Step 2:" +:+ nl
       +:+ "UPDATE users SET role = 'member' WHERE role IS NULL;" +:+ nl
       +:+ "# Step 3:" +:+ nl
       +:+ "ALTER TABLE users ALTER COLUMN role SET NOT NULL;";
     line_hint := Some line_no |}.

Definition _check_django_add_field (content : list ascii) (migration : Adapters.MigrationInfo)
    (violations : list RuleViolation) : list RuleViolation :=
  foldl
    (λ violations '(start, _),
       let context := context_at content start in
       if search _DJANGO_NULL_FALSE_RE context && negb (search _DJANGO_DEFAULT_RE context)
       then violations ++
            [_make_violation migration (line_no content start)
               "Django AddField with null=False and no default value"]
       else violations)
    violations (finditer _DJANGO_ADD_FIELD_RE content).

Definition _check_alembic_add_column (content : list ascii) (migration : Adapters.MigrationInfo)
    (violations : list RuleViolation) : list RuleViolation :=
  foldl
    (λ violations '(start, _),
       let context := context_at content start in
       if search _ALEMBIC_NULLABLE_FALSE_RE context
       then violations ++
            [_make_violation migration (line_no content start)
               "Alembic op.add_column() with nullable=False"]
       else violations)
    violations (finditer _ALEMBIC_ADD_COL_RE content).

Definition evaluate (migration : Adapters.MigrationInfo) : list RuleViolation :=
  let content := String.list_ascii_of_string (Adapters.sql_content migration) in
  let violations :=
    (λ '(start, _),
       _make_violation migration (line_no content start)
         "SQL ADD COLUMN NOT NULL without DEFAULT detected")
    <$> finditer _ADD_COL_NOT_NULL_SQL_RE content in
  let violations := _check_django_add_field content migration violations in
  _check_alembic_add_column content migration violations.

End NonNullRule.

(** ** git/git_utils.py and core/branch_compare.py *)

(** The version-control collaborator.  Each operation either returns or
    raises ([GitClient._run] raises [GitError] on a failed command, a missing
    tool or a timeout). *)
Module Git.

Record GitClient : Type := {
  fetch : res unit;
  current_branch : res string;
  merge_base : string → string → res string;
  commits_between : string → string → res Z;
  diff_files : string → string → res (list string);
}.

End Git.

Module BranchCompare.

Record ComparisonReport : Type := {
  current_branch : string;
  target_branch : string;
  is_behind : bool;
  commits_behind : Z;
  current_only : list string;
  target_only : list string;
  parallel_migrations : list string;
  suggestions : list string;
}.

(** [ComparisonReport(target_branch=target_branch)] *)
Definition new_report (target_branch : string) : ComparisonReport :=
  {| current_branch := ""; target_branch := target_branch;
     is_behind := false; commits_behind := 0;
     current_only := []; target_only := []; parallel_migrations := [];
     suggestions := [] |}.

Definition has_issues (r : ComparisonReport) : bool :=
  is_behind r || bool_decide (parallel_migrations r ≠ [])
  || bool_decide (target_only r ≠ []).

(** [s.split(sep)] for a one-character separator. *)
Fixpoint split (sep : ascii) (s : string) : list string :=
  match s with
  | EmptyString => [""]
  | String c s' =>
      if decide (c = sep) then "" :: split sep s'
      else match split sep s' with
           | w :: ws => String c w :: ws
           | [] => [String c ""]
           end
  end.

(** [s.replace(a, b)] for one-character [a] and [b]. *)
Fixpoint replace (a b : ascii) (s : string) : string :=
  match s with
  | EmptyString => EmptyString
  | String c s' => String (if decide (c = a) then b else c) (replace a b s')
  end.

Definition endswith (s suffix : string) : bool :=
  bool_decide (String.list_ascii_of_string suffix
                 `suffix_of` String.list_ascii_of_string s).

Definition _is_migration_file (path : string) : bool :=
  let parts := split "/" (replace "\" "/" path) in
  if negb (endswith path ".py") then false
  else if bool_decide ("migrations" ∈ parts) then true
  else if bool_decide ("versions" ∈ parts) then true
  else false.

Definition _migration_files_in_diff (git : Git.GitClient) (base_ref head_ref : string)
    : res (gset string) :=
  all_files ← Git.diff_files git base_ref head_ref;
  Ok (list_to_set (filter (λ f, _is_migration_file f = true) all_files)).

Definition append_suggestion (s : string) (r : ComparisonReport) : ComparisonReport :=
  {| current_branch := current_branch r; target_branch := target_branch r;
     is_behind := is_behind r; commits_behind := commits_behind r;
     current_only := current_only r; target_only := target_only r;
     parallel_migrations := parallel_migrations r;
     suggestions := suggestions r ++ [s] |}.

Definition _generate_suggestions (report : ComparisonReport) : ComparisonReport :=
  let report :=
    if is_behind report then
      append_suggestion
        ("Your branch is " +:+ pretty (commits_behind report)
         +:+ " commit(s) behind '" +:+ target_branch report
         +:+ "'. Rebase or merge the target branch first.") report
    else report in
  let report :=
    if bool_decide (target_only report ≠ []) then
      append_suggestion
        ("Target branch has " +:+ pretty (length (target_only report))
         +:+ " new migration(s) not in your branch. Merge target into your branch and resolve any migration conflicts.") report
    else report in
  let report :=
    if bool_decide (parallel_migrations report ≠ []) then
      append_suggestion
        ("Found " +:+ pretty (length (parallel_migrations report))
         +:+ " parallel migration file(s) modified in both branches. This is likely to cause merge conflicts. Coordinate with the other branch author.") report
    else report in
  if bool_decide (current_only report ≠ []) && bool_decide (target_only report ≠ []) then
    append_suggestion
      "Both branches added new migrations. After merging, run 'makemigrations --merge' (Django) or 'alembic merge' (Alembic) to create a merge migration." report
  else report.

Definition no_merge_base_message : string :=
  "Could not determine merge base. Ensure both branches share a common ancestor.".

Definition compare (git : Git.GitClient) (target_branch : string) : res ComparisonReport :=
  let report := new_report target_branch in
  _ ← Git.fetch git;
  current ← Git.current_branch git;
  let report :=
    {| current_branch := current; target_branch := BranchCompare.target_branch report;
       is_behind := is_behind report; commits_behind := commits_behind report;
       current_only := current_only report; target_only := target_only report;
       parallel_migrations := parallel_migrations report;
       suggestions := suggestions report |} in
  merge_base ← Git.merge_base git (current_branch report) target_branch;
  if decide (merge_base = "") then Ok (append_suggestion no_merge_base_message report)
  else
    behind ← Git.commits_between git merge_base target_branch;
    current_files ← _migration_files_in_diff git merge_base (current_branch report);
    target_files ← _migration_files_in_diff git merge_base target_branch;
    Ok (_generate_suggestions
          {| current_branch := current_branch report;
             target_branch := BranchCompare.target_branch report;
             is_behind := bool_decide (0 < behind)%Z; commits_behind := behind;
             current_only := sorted (elements (current_files ∖ target_files));
             target_only := sorted (elements (target_files ∖ current_files));
             parallel_migrations := sorted (elements (current_files ∩ target_files));
             suggestions := suggestions report |}).

End BranchCompare.

(** ** Specification vocabulary *)

(** The dependencies and the dependents of a node, as the analyses read them. *)
Definition deps_of (g : MigrationGraph) (n : string) : gset string :=
  get_or_empty (_forward g) n.

Definition dependents_of (g : MigrationGraph) (n : string) : gset string :=
  get_or_empty (_reverse g) n.

(** [depends_on g n d]: there is an edge from [n] to its dependency [d]. *)
Definition depends_on (g : MigrationGraph) : relation string :=
  λ n d, d ∈ deps_of g n.

(** A graph contains a cycle when some node reaches itself along at least
    one edge. *)
Definition has_cycle (g : MigrationGraph) : Prop :=
  ∃ n, tc (depends_on g) n n.

Definition acyclic (g : MigrationGraph) : Prop := ¬ has_cycle g.





(** The graphs that the public interface can produce. *)
Inductive reachable : MigrationGraph → Prop :=
| reachable_empty : reachable empty_graph
| reachable_add_node g node : reachable g → reachable (add_node g node)
| reachable_add_edge g node dependency :
    reachable g → reachable (add_edge g node dependency).

(** A single linear chain over the nodes [l], first node first: each node
    after the first depends exactly on its predecessor. *)
Definition linear_chain (g : MigrationGraph) (l : list string) : Prop :=
  reachable g ∧ l ≠ [] ∧ NoDup l ∧ _nodes g = list_to_set l ∧
  ∀ n d, d ∈ deps_of g n ↔ ∃ i, l !! i = Some d ∧ l !! S i = Some n.

(** [before l x y]: [x] occurs in [l] strictly before an occurrence of [y]. *)
Definition before (l : list string) (x y : string) : Prop :=
  ∃ i j, l !! i = Some x ∧ l !! j = Some y ∧ i < j.

(** ** Inputs used in examples *)

(** A collaborator without a merge base between the two branches. *)
Definition no_merge_base_git : Git.GitClient :=
  {| Git.fetch := Ok ();
     Git.current_branch := Ok "feature/add-users";
     Git.merge_base := λ _ _, Ok "";
     Git.commits_between := λ _ _, Ok 0%Z;
     Git.diff_files := λ _ _, Ok [] |}.

(** The same collaborator, except that [git fetch] fails. *)
Definition failing_fetch_git : Git.GitClient :=
  {| Git.fetch := Raise (GitError "fetch" "fatal: unable to access remote" 128);
     Git.current_branch := Ok "feature/add-users";
     Git.merge_base := λ _ _, Ok "";
     Git.commits_between := λ _ _, Ok 0%Z;
     Git.diff_files := λ _ _, Ok [] |}.

Definition record (id : string) (deps : list string) (content : string)
    : Adapters.MigrationInfo :=
  {| Adapters.migration_id := id; Adapters.app_label := "app";
     Adapters.dependencies := deps; Adapters.operations := [];
     Adapters.sql_content := content; Adapters.file_path := None |}.

(** An Alembic revision adding a non-null column with a default. *)
Definition alembic_with_default : Adapters.MigrationInfo :=
  record "def456" []
    "op.add_column('users', sa.Column('age', sa.Integer(), nullable=False, server_default='0', default=0))".

Definition django_with_default : Adapters.MigrationInfo :=
  record "myapp.0002" []
    "migrations.AddField(model_name='User', name='age', field=models.IntegerField(null=False, default=0)),".

Definition django_without_default : Adapters.MigrationInfo :=
  record "myapp.0002" []
    "migrations.AddField(model_name='User', name='age', field=models.IntegerField(null=False)),".

(** A record that depends on an id that no record has. *)
Definition dangling_record : Adapters.MigrationInfo :=
  record "myapp.0002_add_email" ["ghost"] "".

(** ** Vocabulary for the order of [topological_sort] *)

(** [ready g l n k]: all the dependencies of [n] are among the first [k]
    elements of [l]; in an emission order [l], the node [n] has become ready
    once [k] nodes have been emitted. *)
Definition ready (g : MigrationGraph) (l : list string) (n : string) (k : nat) : Prop :=
  deps_of g n ⊆ list_to_set (take k l).

(** [fifo_rel g l x y]: [x] became ready no later than [y], and if both
    became ready at the same time then [x <= y]. *)
Definition fifo_rel (g : MigrationGraph) (l : list string) : relation string :=
  λ x y, (∀ k, ready g l y k → ready g l x k)
         ∧ ((∀ k, ready g l x k → ready g l y k) → str_le x y).

(** Following the words of the specification: repeatedly emit, among the
    nodes whose remaining in-degree (the count of not yet emitted
    dependencies) is zero, the lexicographically smallest one. *)
Fixpoint priority_loop (g : MigrationGraph) (fuel : nat) (emitted : list string)
    : list string :=
  match fuel with
  | O => emitted
  | S fuel' =>
      let candidates :=
        filter (λ n, (n ∉ emitted) ∧ size (deps_of g n ∖ list_to_set emitted) = 0)
               (elements (_nodes g)) in
      match sorted candidates with
      | [] => emitted
      | n :: _ => priority_loop g fuel' (emitted ++ [n])
      end
  end.

Definition topological_sort_priority (g : MigrationGraph) : list string :=
  priority_loop g (size (_nodes g)) [].

(** The invariant of the loop of [topological_sort]. *)
Record kahn_inv (g : MigrationGraph) (in_degree : gmap string Z)
    (queue result : list string) : Prop := {
  kahn_nodup : NoDup (result ++ queue);
  kahn_nodes : ∀ n, n ∈ result ++ queue → n ∈ _nodes g;
  kahn_degree : ∀ n, n ∈ _nodes g →
    in_degree !! n = Some (Z.of_nat (size (deps_of g n ∖ list_to_set result)));
  kahn_ready : ∀ n, n ∈ _nodes g →
    (n ∈ result ++ queue ↔ deps_of g n ⊆ list_to_set result);
  kahn_order : ∀ i n, result !! i = Some n → ready g result n i;
  kahn_fifo : StronglySorted (fifo_rel g result) (result ++ queue);
}.

(** Two nodes [a] and [c] without dependencies and a node [b] that depends on [a]. *)
Definition fork_graph : MigrationGraph :=
  add_node (add_edge empty_graph "b" "a") "c".

(** The chain [a <- b <- c]. *)
Definition chain_graph : MigrationGraph :=
  add_edge (add_edge empty_graph "b" "a") "c" "b".

(** The cycle [a -> b -> c -> a]. *)
Definition cycle_graph : MigrationGraph :=
  add_edge (add_edge (add_edge empty_graph "a" "b") "b" "c") "c" "a".

(** ** Invariants of [detect_cycles] *)

Definition nonwhite (st : dfs_state) (n : string) : Prop :=
  color st !! n = Some GRAY ∨ color st !! n = Some BLACK.

(** [parent_chain p cur l]: following the parent links from [cur] visits
    exactly the nodes of [l] and then stops. *)
Fixpoint parent_chain (p : gmap string (option string)) (cur : option string)
    (l : list string) : Prop :=
  match l with
  | [] => cur = None
  | c :: l' => cur = Some c ∧ parent_chain p (parent_get p c) l'
  end.

(** The nodes that are still white. *)
Definition whites (st : dfs_state) : gset string :=
  dom (filter (λ kv, kv.2 = WHITE) (color st)).

Definition entry_weight (e : string * bool) : nat := if e.2 then 1 else 2.

(** A quantity that every iteration of [while stack] decreases. *)
Definition dfs_potential (g : MigrationGraph) (st : dfs_state) (stack : dfs_stack) : nat :=
  size (whites st) * (2 * size (_nodes g) + 2) + sum_list_with entry_weight stack.

Record dfs_inv (g : MigrationGraph) (st : dfs_state) (stack : dfs_stack) : Prop := {
  dfs_dom : dom (color st) = _nodes g;
  dfs_stack_nodes : ∀ n b, (n, b) ∈ stack → n ∈ _nodes g;
  dfs_black : ∀ n d,
    color st !! n = Some BLACK → d ∈ deps_of g n → color st !! d ≠ Some WHITE;
  dfs_pending : ∀ above n below d,
    stack = above ++ (n, true) :: below → d ∈ deps_of g n →
    color st !! d = Some WHITE → (d, false) ∈ above;
  dfs_stale : ∀ above n below,
    stack = above ++ (n, false) :: below → color st !! n = Some GRAY →
    (n, true) ∈ above;
  dfs_gray : ∀ n, color st !! n = Some GRAY → (n, true) ∈ stack;
  dfs_open : ∀ n, (n, true) ∈ stack → nonwhite st n;
  dfs_parent_nonwhite : ∀ n p, parent st !! n = Some (Some p) → nonwhite st p;
  dfs_parent_chain : ∀ n, nonwhite st n →
    ∃ l, parent_chain (parent st) (Some n) l ∧ NoDup l ∧ ∀ x, x ∈ l → nonwhite st x;
}.

(** [fin_closed g fin]: in the list [fin] (most recent first) every node
    occurs once and all of its dependencies occur later in the list. *)
Fixpoint fin_closed (g : MigrationGraph) (fin : list string) : Prop :=
  match fin with
  | [] => True
  | n :: rest => (n ∉ rest) ∧ deps_of g n ⊆ list_to_set rest ∧ fin_closed g rest
  end.

(** The nodes [fin] whose traversal has been completed, as long as no cycle
    has been reported. *)
Record dfs_fin_inv (g : MigrationGraph) (st : dfs_state) (stack : dfs_stack)
    (fin : list string) : Prop := {
  fin_nonwhite : ∀ n, n ∈ fin → nonwhite st n;
  fin_black : ∀ n, color st !! n = Some BLACK → n ∈ fin;
  fin_order : fin_closed g fin;
  fin_open : ∀ above n below d,
    stack = above ++ (n, true) :: below → n ∉ fin → d ∈ deps_of g n →
    d ∈ fin
    ∨ (color st !! d = Some WHITE ∧ (d, false) ∈ above)
    ∨ (color st !! d = Some GRAY ∧ (d, true) ∈ above);
}.

(** The body of the loop [while stack] for the popped entry
    [(node, processed)]. *)
Definition dfs_step (g : MigrationGraph) (wfuel : nat) (st : dfs_state)
    (node : string) (processed : bool) (rest : dfs_stack) : res (dfs_state * dfs_stack) :=
  if processed then Ok (set_color node BLACK st, rest)
  else
    match color st !! node with
    | None => Raise (KeyError node)
    | Some GRAY => Ok (set_color node BLACK st, rest)
    | Some _ =>
        foldl (visit_dep wfuel node)
              (Ok (set_color node GRAY st, (node, true) :: rest))
              (sorted (elements (get_or_empty (_forward g) node)))
    end.

(** The entries pushed while a node is processed: one for each white
    dependency, the last dependency on top. *)
Definition pushed (col : gmap string colour) (ds : list string) : dfs_stack :=
  reverse ((λ d, (d, false)) <$> filter (λ d, col !! d = Some WHITE) ds).

(** The invariant of the loop [for start in sorted(self._nodes)]. *)
Record dfs_outer_inv (g : MigrationGraph) (st : dfs_state) : Prop := {
  outer_inv : dfs_inv g st [];
  outer_paths : Forall (λ c, c ≠ []) (cycles st);
  outer_fin : cycles st = [] → ∃ fin, dfs_fin_inv g st [] fin;
}.

(** * Further definitions *)

(** ** Vocabulary for the paths reported by [detect_cycles] *)

(** A path of the graph with at least one edge: every node of the path
    depends on the next one. *)
Definition dependency_path (g : MigrationGraph) (path : list string) : Prop :=
  2 ≤ length path
  ∧ ∀ i a b, path !! i = Some a → path !! S i = Some b → b ∈ deps_of g a.

(** The same for a path that is still in the order in which [detect_cycles]
    collects it (last node first). *)
Definition collected_path (g : MigrationGraph) (cycle : list string) : Prop :=
  ∀ i a b, cycle !! i = Some a → cycle !! S i = Some b → a ∈ deps_of g b.

(** Every recorded parent link is an edge of the graph. *)
Definition parent_edges (g : MigrationGraph) (st : dfs_state) : Prop :=
  ∀ x p, parent st !! x = Some (Some p) → x ∈ deps_of g p.

(** Every entry above a [(m, True)] entry of the stack is for a node that
    can be reached from [m]. *)
Definition stack_reach (g : MigrationGraph) (stack : dfs_stack) : Prop :=
  ∀ above m below x b,
    stack = above ++ (m, true) :: below → (x, b) ∈ above →
    rtc (depends_on g) m x.

(** ** Vocabulary for the cycles reported by [detect_cycles] *)

(** One step along the parent links of the traversal. *)
Definition parent_step (p : gmap string (option string)) : relation string :=
  λ x y, parent_get p x = Some y.

(** Following the parent links from any entry above a [(m, True)] entry of
    the stack leads to [m]. *)
Definition stack_climbs (st : dfs_state) (stack : dfs_stack) : Prop :=
  ∀ above m below x b,
    stack = above ++ (m, true) :: below → (x, b) ∈ above →
    tc (parent_step (parent st)) x m.

(** The last node of the path depends on the first one. *)
Definition closed_path (g : MigrationGraph) (path : list string) : Prop :=
  ∃ a b, head path = Some a ∧ last path = Some b ∧ a ∈ deps_of g b.

(** No node depends on itself. *)
Definition no_self_dependency (g : MigrationGraph) : Prop :=
  ∀ n, n ∉ deps_of g n.

(** ** Vocabulary for the risk report *)

Module RiskOrder.
Import RiskScoring.

(** The position of a severity in [LOW < MEDIUM < HIGH < CRITICAL]. *)
Definition severity_rank (s : Severity) : Z :=
  match s with LOW => 0 | MEDIUM => 1 | HIGH => 2 | CRITICAL => 3 end.

(** The operations of a [RiskScorer]. *)
Inductive scorer_op : Type :=
| AddFinding (category description file_path : string)
| Reset.

Definition apply_op (s : RiskScorer) (op : scorer_op) : RiskScorer :=
  match op with
  | AddFinding category description file_path =>
      add_finding s category description file_path
  | Reset => reset s
  end.

End RiskOrder.

(** ** Patterns with alternation

    [Re.regex] extended by the alternation [p|q], for the patterns of the
    other lint rules.  Alternatives are tried in order, as Python's engine
    does; the optional group [(p)?] is [p|] (first with, then without). *)

Module ReAlt.
Import Re.

Inductive pattern : Type :=
| Atom (r : regex)
| Alt (p q : pattern)
| Then (p q : pattern).

Fixpoint run (p : pattern) (k : cont) (prev : option ascii) (s : list ascii)
    : option nat :=
  match p with
  | Atom r => Re.run r k prev s
  | Alt p q =>
      match run p k prev s with
      | Some n => Some n
      | None => run q k prev s
      end
  | Then p q => run p (run q k) prev s
  end.

Definition match_here (p : pattern) (prev : option ascii) (s : list ascii) : option nat :=
  run p (λ _ _, Some 0) prev s.

(** [p.finditer(s)], as [Re.finditer_from]. *)
Fixpoint finditer_from (p : pattern) (prev : option ascii) (s : list ascii)
    (pos skip : nat) : list (nat * nat) :=
  match skip with
  | S skip' =>
      match s with
      | c :: s' => finditer_from p (Some c) s' (S pos) skip'
      | [] => []
      end
  | O =>
      match match_here p prev s with
      | Some n =>
          (pos, n) ::
          match s with
          | c :: s' => finditer_from p (Some c) s' (S pos) (pred n)
          | [] => []
          end
      | None =>
          match s with
          | c :: s' => finditer_from p (Some c) s' (S pos) O
          | [] => []
          end
      end
  end.

Definition finditer (p : pattern) (s : list ascii) : list (nat * nat) :=
  finditer_from p None s 0 0.

Definition search (p : pattern) (s : list ascii) : bool :=
  match finditer p s with [] => false | _ :: _ => true end.

(** [(p)?] *)
Definition opt (p : pattern) : pattern := Alt p (Atom Eps).

End ReAlt.

(** ** rules/drop_table_rule.py *)

Module DropTableRule.
Import Re ReAlt Rules.

(** [\bDROP\s+TABLE\b] *)
Definition _DROP_TABLE_SQL_RE : pattern :=
  Atom (seq [Boundary; lit "DROP"; plus is_space; lit "TABLE"; Boundary]).

(** [\bDeleteModel\b|\bRemoveModel\b] *)
Definition _DJANGO_DELETE_MODEL_RE : pattern :=
  Alt (Atom (seq [Boundary; lit "DeleteModel"; Boundary]))
      (Atom (seq [Boundary; lit "RemoveModel"; Boundary])).

(** [\bop\.drop_table\b] *)
Definition _ALEMBIC_DROP_TABLE_RE : pattern :=
  Atom (seq [Boundary; lit "op.drop_table"; Boundary]).

Definition rule_id : string := "drop-table".

Definition violation (migration : Adapters.MigrationInfo) (line_no : Z) (msg : string)
    : RuleViolation :=
  {| Rules.rule_id := rule_id; severity := CRITICAL;
     file_path := default "" (Adapters.file_path migration);
     message := msg;
     explanation := "Dropping a table permanently removes all data. This operation is irreversible in production.";
     suggested_fix := "1. Rename the table instead of dropping it." +:+ NonNullRule.nl
       +:+ "2. Keep the table for a deprecation period." +:+ NonNullRule.nl
       +:+ "3. Back up data before dropping." +:+ NonNullRule.nl
       +:+ "4. Use a two-step migration.";
     example_snippet := "# Instead of:" +:+ NonNullRule.nl
       +:+ "#   DROP TABLE users;" +:+ NonNullRule.nl
       +:+ "# Use:" +:+ NonNullRule.nl
       +:+ "ALTER TABLE users RENAME TO users_deprecated;" +:+ NonNullRule.nl
       +:+ "-- Drop in the next release after verifying no usage.";
     line_hint := Some line_no |}.

Definition patterns : list (pattern * string) :=
  [(_DROP_TABLE_SQL_RE, "DROP TABLE statement found");
   (_DJANGO_DELETE_MODEL_RE, "Django DeleteModel / RemoveModel operation found");
   (_ALEMBIC_DROP_TABLE_RE, "Alembic op.drop_table() call found")].

Definition evaluate (migration : Adapters.MigrationInfo) : list RuleViolation :=
  let content := String.list_ascii_of_string (Adapters.sql_content migration) in
  foldl
    (λ violations '(pattern, msg),
       foldl
         (λ violations '(start, _),
            violations ++
            [violation migration (NonNullRule.line_no content start) msg])
         violations (finditer pattern content))
    [] patterns.

End DropTableRule.

(** ** rules/drop_column_rule.py *)

Module DropColumnRule.
Import Re ReAlt Rules.

(** [\bDROP\s+COLUMN\b] *)
Definition _DROP_COL_SQL_RE : pattern :=
  Atom (seq [Boundary; lit "DROP"; plus is_space; lit "COLUMN"; Boundary]).

(** [\bRemoveField\b] *)
Definition _DJANGO_REMOVE_FIELD_RE : pattern :=
  Atom (seq [Boundary; lit "RemoveField"; Boundary]).

(** [\bop\.drop_column\b] *)
Definition _ALEMBIC_DROP_COL_RE : pattern :=
  Atom (seq [Boundary; lit "op.drop_column"; Boundary]).

Definition rule_id : string := "drop-column".

Definition violation (migration : Adapters.MigrationInfo) (line_no : Z) (msg : string)
    : RuleViolation :=
  {| Rules.rule_id := rule_id; severity := ERROR;
     file_path := default "" (Adapters.file_path migration);
     message := msg;
     explanation := "Dropping a column removes data permanently. Active application code referencing this column will break immediately.";
     suggested_fix := "1. Deploy code that no longer reads/writes the column first." +:+ NonNullRule.nl
       +:+ "2. Mark the column as deprecated (nullable)." +:+ NonNullRule.nl
       +:+ "3. Drop the column in a later release.";
     example_snippet := "# Step 1 – Make column nullable (safe):" +:+ NonNullRule.nl
       +:+ "ALTER TABLE users ALTER COLUMN legacy_field DROP NOT NULL;" +:+ NonNullRule.nl
       +:+ "" +:+ NonNullRule.nl
       +:+ "# Step 2 – In a later migration:" +:+ NonNullRule.nl
       +:+ "ALTER TABLE users DROP COLUMN legacy_field;";
     line_hint := Some line_no |}.

Definition patterns : list (pattern * string) :=
  [(_DROP_COL_SQL_RE, "DROP COLUMN statement found");
   (_DJANGO_REMOVE_FIELD_RE, "Django RemoveField operation found");
   (_ALEMBIC_DROP_COL_RE, "Alembic op.drop_column() call found")].

Definition evaluate (migration : Adapters.MigrationInfo) : list RuleViolation :=
  let content := String.list_ascii_of_string (Adapters.sql_content migration) in
  foldl
    (λ violations '(pattern, msg),
       foldl
         (λ violations '(start, _),
            violations ++
            [violation migration (NonNullRule.line_no content start) msg])
         violations (finditer pattern content))
    [] patterns.

End DropColumnRule.

(** ** rules/type_change_rule.py *)

Module TypeChangeRule.
Import Re ReAlt Rules.

(** [\bALTER\s+COLUMN\s+\w+\s+(SET\s+DATA\s+)?TYPE\b] *)
Definition _ALTER_TYPE_SQL_RE : pattern :=
  Then (Atom (seq [Boundary; lit "ALTER"; plus is_space; lit "COLUMN"; plus is_space;
                   plus is_word; plus is_space]))
       (Then (opt (Atom (seq [lit "SET"; plus is_space; lit "DATA"; plus is_space])))
             (Atom (seq [lit "TYPE"; Boundary]))).

(** [\bAlterField\b] *)
Definition _DJANGO_ALTER_FIELD_RE : pattern :=
  Atom (seq [Boundary; lit "AlterField"; Boundary]).

(** [\bop\.alter_column\b] *)
Definition _ALEMBIC_ALTER_COL_RE : pattern :=
  Atom (seq [Boundary; lit "op.alter_column"; Boundary]).

(** [\btype_\s*=] *)
Definition _ALEMBIC_TYPE_PARAM_RE : pattern :=
  Atom (seq [Boundary; lit "type_"; Star is_space; lit "="]).

Definition rule_id : string := "type-change".

Definition _make_violation (migration : Adapters.MigrationInfo) (line_no : Z)
    (message : string) : RuleViolation :=
  {| Rules.rule_id := "type-change"; severity := WARNING;
     file_path := default "" (Adapters.file_path migration);
     message := message;
     explanation := "Changing a column's type can silently truncate or corrupt data. On large tables the ALTER may acquire an exclusive lock and cause downtime.";
     suggested_fix := "1. Add a new column with the desired type." +:+ NonNullRule.nl
       +:+ "2. Back-fill data with a safe cast." +:+ NonNullRule.nl
       +:+ "3. Update application code to use the new column." +:+ NonNullRule.nl
       +:+ "4. Drop the old column in a subsequent release.";
     example_snippet := "# Instead of:" +:+ NonNullRule.nl
       +:+ "#   ALTER TABLE orders ALTER COLUMN amount TYPE INTEGER;" +:+ NonNullRule.nl
       +:+ "# Use:" +:+ NonNullRule.nl
       +:+ "ALTER TABLE orders ADD COLUMN amount_new INTEGER;" +:+ NonNullRule.nl
       +:+ "UPDATE orders SET amount_new = amount::INTEGER;" +:+ NonNullRule.nl
       +:+ "ALTER TABLE orders DROP COLUMN amount;" +:+ NonNullRule.nl
       +:+ "ALTER TABLE orders RENAME COLUMN amount_new TO amount;";
     line_hint := Some line_no |}.

Definition evaluate (migration : Adapters.MigrationInfo) : list RuleViolation :=
  let content := String.list_ascii_of_string (Adapters.sql_content migration) in
  let violations :=
    (λ '(start, _),
       _make_violation migration (NonNullRule.line_no content start)
         "ALTER COLUMN TYPE statement found")
    <$> finditer _ALTER_TYPE_SQL_RE content in
  let violations :=
    foldl
      (λ violations '(start, _),
         violations ++
         [_make_violation migration (NonNullRule.line_no content start)
            "Django AlterField operation found – may involve type change"])
      violations (finditer _DJANGO_ALTER_FIELD_RE content) in
  foldl
    (λ violations '(start, _),
       let context := NonNullRule.context_at content start in
       if search _ALEMBIC_TYPE_PARAM_RE context
       then violations ++
            [_make_violation migration (NonNullRule.line_no content start)
               "Alembic op.alter_column() with type_ parameter"]
       else violations)
    violations (finditer _ALEMBIC_ALTER_COL_RE content).

End TypeChangeRule.

(** ** rules/multiple_heads_rule.py *)

Module MultipleHeadsRule.
Import Rules.

(** Python's [repr] of a string of ASCII characters: single quotes unless
    the string has a single quote and no double quote; the backslash, the
    chosen quote, tab, newline and carriage return escaped; other control
    characters as [\xNN]. *)
Definition hex_digit (n : N) : ascii :=
  nth (N.to_nat n) (String.list_ascii_of_string "0123456789abcdef") "0"%char.

Definition repr_char (quote c : ascii) : string :=
  if decide (c = "\"%char) then "\\"
  else if decide (c = quote) then String "\" (String quote "")
  else if decide (c = "009"%char) then "\t"
  else if decide (c = "010"%char) then "\n"
  else if decide (c = "013"%char) then "\r"
  else if ((Re.code c <? 32) || (Re.code c =? 127))%N
       then String "\" (String "x" (String (hex_digit (Re.code c / 16))
                                      (String (hex_digit (Re.code c mod 16)) "")))
  else String c "".

Definition repr (s : string) : string :=
  let cs := String.list_ascii_of_string s in
  let quote :=
    if bool_decide ("'"%char ∈ cs) && negb (bool_decide ("034"%char ∈ cs))
    then "034"%char else "'"%char in
  String quote (foldr (λ c r, repr_char quote c +:+ r) (String quote "") cs).

Definition rule_id : string := "multiple-heads".

Definition evaluate (migration : Adapters.MigrationInfo) : list RuleViolation := [].

Definition evaluate_graph (graph : MigrationGraph) : list RuleViolation :=
  let heads := detect_multiple_heads graph in
  if decide (heads = []) then []
  else
    [{| Rules.rule_id := rule_id; severity := CRITICAL;
        file_path := "<migration-graph>";
        message := "Migration graph has " +:+ pretty (length heads) +:+ " heads: "
          +:+ String.concat ", " heads;
        explanation := "Multiple heads mean that the migration graph has diverged into parallel branches. The migration runner will not know which order to apply them.";
        suggested_fix := "Create a merge migration that depends on all current heads:" +:+ NonNullRule.nl
          +:+ "  Django:  python manage.py makemigrations --merge" +:+ NonNullRule.nl
          +:+ "  Alembic: alembic merge heads";
        example_snippet := "# Django merge migration:" +:+ NonNullRule.nl
          +:+ "class Migration(migrations.Migration):" +:+ NonNullRule.nl
          +:+ "    dependencies = [" +:+ NonNullRule.nl
          +:+ "        " +:+ String.concat ", " (repr <$> take 3 heads) +:+ "," +:+ NonNullRule.nl
          +:+ "    ]" +:+ NonNullRule.nl
          +:+ "    operations = []";
        line_hint := None |}].

End MultipleHeadsRule.

(** ** config/settings.py: the settings models and their defaults *)

Module Settings.

Record RulesConfig : Type := {
  allow_drop_table : bool;
  allow_drop_column : bool;
  require_two_step_non_null : bool;
}.

(** [RulesConfig()] *)
Definition default_rules : RulesConfig :=
  {| allow_drop_table := false; allow_drop_column := false;
     require_two_step_non_null := true |}.

Record MigrationIQSettings : Type := {
  database : string;
  target_branch : string;
  risk_threshold : Z;
  migration_dirs : list string;
  framework : string;
  rules : RulesConfig;
}.

(** [MigrationIQSettings()] *)
Definition default_settings : MigrationIQSettings :=
  {| database := "postgres"; target_branch := "origin/main"; risk_threshold := 7;
     migration_dirs := ["."]; framework := "auto"; rules := default_rules |}.

End Settings.

(** ** core/engine.py

    The engine reads the migrations through its adapter and the branches
    through a git client.  Both are inputs here: [migrations] is the list
    [adapter.discover_migrations()] returns (taken to be the same at each
    call of one run) and [git] is the client of the comparator. *)

Module CheckResult.

Record t : Type := {
  migrations : list Adapters.MigrationInfo;
  graph_issues : list GraphIssue;
  heads : list string;
  roots : list string;
}.

Definition has_critical (r : t) : bool :=
  existsb (λ i, bool_decide (severity i = "critical")) (graph_issues r).

Definition has_warnings (r : t) : bool :=
  existsb (λ i, bool_decide (severity i = "warning")) (graph_issues r).

Definition exit_code (r : t) : Z :=
  if has_critical r then 2 else if has_warnings r then 1 else 0.

End CheckResult.

#[global] Instance ViolationSeverity_eq_dec : EqDecision Rules.ViolationSeverity.
Proof. solve_decision. Defined.

Module LintResult.

Record t : Type := { violations : list Rules.RuleViolation }.

Definition has_critical (r : t) : bool :=
  existsb (λ v, bool_decide (Rules.severity v = Rules.CRITICAL)) (violations r).

Definition has_errors (r : t) : bool :=
  existsb (λ v, bool_decide (Rules.severity v = Rules.ERROR)) (violations r).

Definition exit_code (r : t) : Z :=
  if has_critical r then 2 else if has_errors r then 1 else 0.

End LintResult.

Module ReadyResult.

Record t : Type := {
  check : CheckResult.t;
  lint : LintResult.t;
  compare : option BranchCompare.ComparisonReport;
  risk : RiskScoring.RiskReport;
}.

Definition exit_code (r : t) : Z :=
  Z.max (CheckResult.exit_code (check r)) (LintResult.exit_code (lint r)).

End ReadyResult.

Module ProtectResult.

(** A [ReadyResult] with a threshold. *)
Record t : Type := {
  check : CheckResult.t;
  lint : LintResult.t;
  compare : option BranchCompare.ComparisonReport;
  risk : RiskScoring.RiskReport;
  threshold : Z;
}.

Definition exceeds_threshold (r : t) : bool :=
  bool_decide (threshold r < RiskScoring.total_score (risk r))%Z.

(** [super().exit_code] is [ReadyResult.exit_code] on the same fields. *)
Definition exit_code (r : t) : Z :=
  let base := Z.max (CheckResult.exit_code (check r)) (LintResult.exit_code (lint r)) in
  if exceeds_threshold r then Z.max base 2 else base.

End ProtectResult.

Module Engine.

(** The rule classes. *)
Inductive Rule : Type :=
| DropTable | DropColumn | NonNull | TypeChange | MultipleHeads.

#[global] Instance Rule_eq_dec : EqDecision Rule.
Proof. solve_decision. Defined.

(** [rule.rule_id] *)
Definition rule_id (rule : Rule) : string :=
  match rule with
  | DropTable => DropTableRule.rule_id
  | DropColumn => DropColumnRule.rule_id
  | NonNull => NonNullRule.rule_id
  | TypeChange => TypeChangeRule.rule_id
  | MultipleHeads => MultipleHeadsRule.rule_id
  end.

(** [rule.evaluate(m)] *)
Definition evaluate (rule : Rule) (m : Adapters.MigrationInfo) : list Rules.RuleViolation :=
  match rule with
  | DropTable => DropTableRule.evaluate m
  | DropColumn => DropColumnRule.evaluate m
  | NonNull => NonNullRule.evaluate m
  | TypeChange => TypeChangeRule.evaluate m
  | MultipleHeads => MultipleHeadsRule.evaluate m
  end.

Definition _build_rules (settings : Settings.MigrationIQSettings) : list Rule :=
  let cfg := Settings.rules settings in
  let rules := [] in
  let rules := if negb (Settings.allow_drop_table cfg) then rules ++ [DropTable] else rules in
  let rules := if negb (Settings.allow_drop_column cfg) then rules ++ [DropColumn] else rules in
  let rules := if Settings.require_two_step_non_null cfg then rules ++ [NonNull] else rules in
  let rules := rules ++ [TypeChange] in
  rules ++ [MultipleHeads].

Definition run_check (migrations : list Adapters.MigrationInfo) : res CheckResult.t :=
  let graph := _build_graph migrations in
  issues ← analyze graph;
  Ok {| CheckResult.migrations := migrations; CheckResult.graph_issues := issues;
        CheckResult.heads := find_heads graph; CheckResult.roots := find_roots graph |}.

Definition run_lint (settings : Settings.MigrationIQSettings)
    (migrations : list Adapters.MigrationInfo) : LintResult.t :=
  let graph := _build_graph migrations in
  {| LintResult.violations :=
       foldl
         (λ violations rule,
            let violations :=
              foldl (λ violations m, violations ++ evaluate rule m) violations migrations in
            if decide (rule = MultipleHeads)
            then violations ++ MultipleHeadsRule.evaluate_graph graph
            else violations)
         [] (_build_rules settings) |}.

(** [target_branch or self.settings.target_branch] *)
Definition run_compare (settings : Settings.MigrationIQSettings) (git : Git.GitClient)
    (target_branch : option string) : res BranchCompare.ComparisonReport :=
  let target :=
    match target_branch with
    | Some t => if decide (t = "") then Settings.target_branch settings else t
    | None => Settings.target_branch settings
    end in
  BranchCompare.compare git target.

Definition category_map : gmap string string :=
  list_to_map
    [("drop-table", "drop_table"); ("drop-column", "drop_column");
     ("non-null-without-default", "non_null_without_default");
     ("type-change", "risky_type_change"); ("multiple-heads", "multiple_heads")].

(** [run_ready]; an exception of [run_compare] is caught and leaves
    [compare] at [None]. *)
Definition run_ready (settings : Settings.MigrationIQSettings) (git : Git.GitClient)
    (migrations : list Adapters.MigrationInfo) : res ReadyResult.t :=
  match run_compare settings git None with
  | OutOfFuel => OutOfFuel
  | compared =>
      let compare := match compared with Ok r => Some r | _ => None end in
      check ← run_check migrations;
      let lint := run_lint settings migrations in
      let scorer := RiskScoring.new_scorer None in
      let scorer :=
        foldl
          (λ scorer v,
             RiskScoring.add_finding scorer
               (default (Rules.rule_id v) (category_map !! Rules.rule_id v))
               (Rules.message v) (Rules.file_path v))
          scorer (LintResult.violations lint) in
      let scorer :=
        foldl
          (λ scorer issue,
             if decide (issue_type issue = "multiple_heads")
             then RiskScoring.add_finding scorer "multiple_heads" (description issue) ""
             else scorer)
          scorer (CheckResult.graph_issues check) in
      let scorer :=
        match compare with
        | Some c =>
            if BranchCompare.is_behind c
            then RiskScoring.add_finding scorer "branch_behind_target"
                   ("Branch is " +:+ pretty (BranchCompare.commits_behind c)
                    +:+ " commits behind target") ""
            else scorer
        | None => scorer
        end in
      Ok {| ReadyResult.check := check; ReadyResult.lint := lint;
            ReadyResult.compare := compare;
            ReadyResult.risk := RiskScoring.report scorer |}
  end.

(** [threshold if threshold is not None else self.settings.risk_threshold] *)
Definition run_protect (settings : Settings.MigrationIQSettings) (git : Git.GitClient)
    (migrations : list Adapters.MigrationInfo) (threshold : option Z)
    : res ProtectResult.t :=
  ready ← run_ready settings git migrations;
  let thr := default (Settings.risk_threshold settings) threshold in
  Ok {| ProtectResult.check := ReadyResult.check ready;
        ProtectResult.lint := ReadyResult.lint ready;
        ProtectResult.compare := ReadyResult.compare ready;
        ProtectResult.risk := ReadyResult.risk ready;
        ProtectResult.threshold := thr |}.

End Engine.

(** ** Vocabulary for the lint results *)

(** The severity each rule gives to its violations. *)
Definition rule_severity (rule : Engine.Rule) : Rules.ViolationSeverity :=
  match rule with
  | Engine.DropTable => Rules.CRITICAL
  | Engine.DropColumn => Rules.ERROR
  | Engine.NonNull => Rules.ERROR
  | Engine.TypeChange => Rules.WARNING
  | Engine.MultipleHeads => Rules.CRITICAL
  end.

(** Whether the settings enable a rule. *)
Definition rule_enabled (settings : Settings.MigrationIQSettings) (rule : Engine.Rule) : bool :=
  match rule with
  | Engine.DropTable => negb (Settings.allow_drop_table (Settings.rules settings))
  | Engine.DropColumn => negb (Settings.allow_drop_column (Settings.rules settings))
  | Engine.NonNull => Settings.require_two_step_non_null (Settings.rules settings)
  | Engine.TypeChange => true
  | Engine.MultipleHeads => true
  end.

(** The risk weight of the category that [run_ready] files the violations
    of a rule under. *)
Definition rule_weight (rule : Engine.Rule) : Z :=
  match rule with
  | Engine.DropTable => 10
  | Engine.DropColumn => 8
  | Engine.NonNull => 7
  | Engine.TypeChange => 6
  | Engine.MultipleHeads => 9
  end.

(** The number of violations that carry the id of a rule. *)
Definition count_rule (rule : Engine.Rule) (violations : list Rules.RuleViolation) : Z :=
  Z.of_nat (length (filter (λ v, Rules.rule_id v = Engine.rule_id rule) violations)).

(** The number of lines of a text: one more than its line breaks. *)
Definition line_count (content : string) : Z :=
  (Z.of_nat (length (filter (λ c, c = "010"%char) (String.list_ascii_of_string content))) + 1)%Z.

(** [v] is a violation of [rule] in the file of the migration [m]: it
    carries the id and the severity of the rule, the path of the file, and
    a line of the file. *)
Definition file_violation (rule : Engine.Rule) (m : Adapters.MigrationInfo)
    (v : Rules.RuleViolation) : Prop :=
  Rules.rule_id v = Engine.rule_id rule
  ∧ Rules.severity v = rule_severity rule
  ∧ Rules.file_path v = default "" (Adapters.file_path m)
  ∧ ∃ n, Rules.line_hint v = Some n
         ∧ (1 ≤ n ≤ line_count (Adapters.sql_content m))%Z.

(** ** Vocabulary for what the lint patterns match *)

(** The text, character by character. *)
Definition chars (s : string) : list ascii := String.list_ascii_of_string s.

(** The text is ASCII: every character has a code below 128.  On such text
    a byte is a character, and the classes and the case folding of [Re] are
    those of Python's [re]. *)
Definition ascii_text (s : string) : Prop :=
  Forall (λ c, (Re.code c < 128)%N) (chars s).

(** [x] spells the word [w], whatever the case of its letters. *)
Definition spells (x : list ascii) (w : string) : Prop :=
  Re.lower <$> x = Re.lower <$> chars w.

(** The content has the word [w] as a whole word: no word character comes
    directly before or after it. *)
Definition word_occurrence (w : string) (content : list ascii) : Prop :=
  ∃ pre x post,
    content = pre ++ x ++ post ∧ spells x w
    ∧ Re.word_at (last pre) = false ∧ Re.word_at (head post) = false.

(** The content has the words [w1] and [w2] as whole words, separated by
    white space only. *)
Definition phrase_occurrence (w1 w2 : string) (content : list ascii) : Prop :=
  ∃ pre x1 ws x2 post,
    content = pre ++ x1 ++ ws ++ x2 ++ post
    ∧ spells x1 w1 ∧ ws ≠ [] ∧ Forall (λ c, Re.is_space c = true) ws ∧ spells x2 w2
    ∧ Re.word_at (last pre) = false ∧ Re.word_at (head post) = false.

(** The character before a position: the last one of [x], or [prev] when
    [x] is empty. *)
Definition last_or (prev : option ascii) (x : list ascii) : option ascii :=
  match last x with Some c => Some c | None => prev end.

(** A character class that does not tell the cases of a letter apart. *)
Definition class_stable (p : ascii → bool) : Prop :=
  ∀ c c', Re.lower c = Re.lower c' → p c = p c'.

Fixpoint regex_stable (r : Re.regex) : Prop :=
  match r with
  | Re.Eps | Re.Chr _ | Re.Boundary => True
  | Re.Cls p | Re.Star p => class_stable p
  | Re.Seq r1 r2 => regex_stable r1 ∧ regex_stable r2
  | Re.NotAhead r' => regex_stable r'
  end.

Fixpoint pattern_stable (p : ReAlt.pattern) : Prop :=
  match p with
  | ReAlt.Atom r => regex_stable r
  | ReAlt.Alt p q | ReAlt.Then p q => pattern_stable p ∧ pattern_stable q
  end.

(** [s] with every character replaced by its image under [f]. *)
Fixpoint map_string (f : ascii → ascii) (s : string) : string :=
  match s with
  | EmptyString => EmptyString
  | String c s' => String (f c) (map_string f s')
  end.

(** The migration [m] with its content rewritten by [f]. *)
Definition recase (f : ascii → ascii) (m : Adapters.MigrationInfo) : Adapters.MigrationInfo :=
  {| Adapters.migration_id := Adapters.migration_id m;
     Adapters.app_label := Adapters.app_label m;
     Adapters.dependencies := Adapters.dependencies m;
     Adapters.operations := Adapters.operations m;
     Adapters.sql_content := map_string f (Adapters.sql_content m);
     Adapters.file_path := Adapters.file_path m |}.

(** ** Vocabulary for migration file names *)

(** The path [p] (with slashes) names a [.py] file below a directory
    called [dir]: [dir] is a whole component of the path and the rest of
    the path, after the slash that follows it, ends in [.py]. *)
Definition file_under (dir : string) (p : list ascii) : Prop :=
  ∃ pre rest,
    p = pre ++ chars dir ++ "/"%char :: rest
    ∧ (pre = [] ∨ last pre = Some "/"%char)
    ∧ chars ".py" `suffix_of` rest.

(** ** Further inputs used in examples *)

(** A collaborator for a branch that is two commits behind its target;
    both branches changed files since the merge base. *)
Definition diverged_git : Git.GitClient :=
  {| Git.fetch := Ok ();
     Git.current_branch := Ok "feature";
     Git.merge_base := λ _ _, Ok "abc123";
     Git.commits_between := λ _ _, Ok 2%Z;
     Git.diff_files := λ _ head,
       if decide (head = "feature")
       then Ok ["app/migrations/0002_a.py"; "README.md"; "app/migrations/0003_shared.py"]
       else Ok ["app/migrations/0003_shared.py"; "app/migrations/0002_b.py"] |}.

(** Two migrations without dependencies. *)
Definition two_heads : list Adapters.MigrationInfo :=
  [record "app.0001" [] "CREATE TABLE a (id int);";
   record "app.0002" [] "DROP TABLE b;"].

(** * Properties *)

(** ** The order on strings and [sorted] *)

Lemma str_le_alt a b : str_le a b ↔ a = b ∨ OrderedTypeEx.String_as_OT.lt a b.
Proof.
  unfold str_le, String.leb.
  destruct (String.compare a b) eqn:E.
  - apply OrderedTypeEx.String_as_OT.cmp_eq in E. naive_solver.
  - apply OrderedTypeEx.String_as_OT.cmp_lt in E. naive_solver.
  - split; [done|]. intros [->|H].
    + assert (String.compare b b = Eq) as E'
        by by apply OrderedTypeEx.String_as_OT.cmp_eq.
      congruence.
    + apply OrderedTypeEx.String_as_OT.cmp_lt in H.
      unfold OrderedTypeEx.String_as_OT.cmp in H. congruence.
Qed.

#[global] Instance str_le_refl : Reflexive str_le.
Proof. intros a. apply str_le_alt. by left. Qed.

#[global] Instance str_le_trans : Transitive str_le.
Proof.
  intros a b c [->|Hab]%str_le_alt [->|Hbc]%str_le_alt; apply str_le_alt; auto.
  right. by eapply OrderedTypeEx.String_as_OT.lt_trans.
Qed.

#[global] Instance str_le_antisymm : AntiSymm (=) str_le.
Proof. intros a b. apply String.leb_antisym. Qed.

#[global] Instance str_le_total : Total str_le.
Proof. intros a b. apply String.leb_total. Qed.

Lemma sorted_perm l : sorted l ≡ₚ l.
Proof. apply merge_sort_Permutation. Qed.

Lemma elem_of_sorted x l : x ∈ sorted l ↔ x ∈ l.
Proof. by rewrite sorted_perm. Qed.

Lemma sorted_NoDup l : NoDup l → NoDup (sorted l).
Proof. by rewrite sorted_perm. Qed.

Lemma sorted_length l : length (sorted l) = length l.
Proof. by rewrite sorted_perm. Qed.

Lemma sorted_Sorted l : StronglySorted str_le (sorted l).
Proof. apply StronglySorted_merge_sort; apply _. Qed.

Lemma sorted_nil_inv l : sorted l = [] → l = [].
Proof.
  intros H. apply Permutation_nil_r. rewrite <- H. symmetry. apply sorted_perm.
Qed.

Lemma sorted_singleton x : sorted [x] = [x].
Proof. reflexivity. Qed.

(** ** The [defaultdict(set)] operations *)

Lemma get_or_empty_dict_add d k x k' :
  get_or_empty (dict_add d k x) k' =
  if decide (k = k') then get_or_empty d k ∪ {[x]} else get_or_empty d k'.
Proof.
  unfold get_or_empty. induction d as [|[k0 v] d IH]; simpl.
  - repeat case_decide; simplify_eq; simpl; try done. set_solver.
  - destruct (decide (k0 = k)) as [->|Hne]; simpl.
    + repeat case_decide; simplify_eq; done.
    + destruct (decide (k0 = k')) as [->|Hne']; simpl.
      * by rewrite decide_False by done.
      * apply IH.
Qed.

Lemma dict_add_idemp d k x : dict_add (dict_add d k x) k x = dict_add d k x.
Proof.
  induction d as [|[k0 v] d IH]; simpl.
  - rewrite decide_True by done. f_equal. f_equal. set_solver.
  - destruct (decide (k0 = k)) as [->|Hne]; simpl.
    + rewrite decide_True by done. f_equal. f_equal. set_solver.
    + rewrite decide_False by done. by rewrite IH.
Qed.

Lemma truthy_get d k : truthy (dict_get d k) ↔ get_or_empty d k ≠ ∅.
Proof. unfold get_or_empty. destruct (dict_get d k); simpl; naive_solver. Qed.

Lemma dict_get_elem_of d k v : dict_get d k = Some v → (k, v) ∈ d.
Proof.
  induction d as [|[k0 v0] d IH]; simpl; [done|].
  destruct (decide (k0 = k)) as [->|Hne]; intros H.
  - injection H as ->. left.
  - right. auto.
Qed.

Lemma elem_of_dict_add d k x k' v :
  (k', v) ∈ dict_add d k x →
  (k', v) ∈ d ∨ (k' = k ∧ ∃ v0, v = v0 ∪ {[x]} ∧ (v0 = ∅ ∨ (k, v0) ∈ d)).
Proof.
  induction d as [|[k0 v0] d IH]; simpl.
  - intros [= -> ->]%list_elem_of_singleton. right. split; [done|].
    exists ∅. split; [set_solver|by left].
  - case_decide; subst.
    + intros [?|?]%elem_of_cons; simplify_eq.
      * right. split; [done|]. exists v0. split; [done|]. right. left.
      * left. by right.
    + intros [?|?]%elem_of_cons; simplify_eq.
      * left. left.
      * destruct IH as [?|(-> & v1 & -> & [->|?])]; [done|left; by right|..].
        -- right. split; [done|]. exists ∅. split; [done|by left].
        -- right. split; [done|]. exists v1. split; [done|]. right. by right.
Qed.

(** ** Graphs built through the public interface *)

Lemma deps_of_add_node g x n : deps_of (add_node g x) n = deps_of g n.
Proof. done. Qed.

Lemma dependents_of_add_node g x n : dependents_of (add_node g x) n = dependents_of g n.
Proof. done. Qed.

Lemma deps_of_add_edge g a b n :
  deps_of (add_edge g a b) n = if decide (a = n) then deps_of g a ∪ {[b]} else deps_of g n.
Proof. apply get_or_empty_dict_add. Qed.

Lemma dependents_of_add_edge g a b n :
  dependents_of (add_edge g a b) n =
  if decide (b = n) then dependents_of g b ∪ {[a]} else dependents_of g n.
Proof. apply get_or_empty_dict_add. Qed.

(** Forward and reverse adjacency mirror each other. *)
Lemma reachable_mirror g n d :
  reachable g → d ∈ deps_of g n ↔ n ∈ dependents_of g d.
Proof.
  intros Hg. revert n d. induction Hg as [|g x _ IH|g a b _ IH]; intros n d.
  - done.
  - apply IH.
  - rewrite deps_of_add_edge, dependents_of_add_edge.
    specialize (IH n d). repeat case_decide; set_solver.
Qed.

(** Every entry of the forward table only mentions nodes of the node set:
    [add_edge] registers both endpoints. *)
Lemma reachable_forward_closed g k v :
  reachable g → (k, v) ∈ _forward g → k ∈ _nodes g ∧ v ⊆ _nodes g.
Proof.
  intros Hg. revert k v. induction Hg as [|g x _ IH|g a b _ IH]; intros k v; simpl.
  - by intros ?%elem_of_nil.
  - intros [??]%IH. set_solver.
  - intros [[??]%IH|(-> & v0 & -> & [->|[??]%IH])]%elem_of_dict_add; set_solver.
Qed.

Lemma reachable_deps_nodes g n d :
  reachable g → d ∈ deps_of g n → n ∈ _nodes g ∧ d ∈ _nodes g.
Proof.
  intros Hg. unfold deps_of, get_or_empty.
  destruct (dict_get (_forward g) n) as [v|] eqn:E; simpl; [|set_solver].
  apply dict_get_elem_of in E. apply (reachable_forward_closed _ _ _ Hg) in E.
  set_solver.
Qed.

Lemma deps_source_node g n d : reachable g → d ∈ deps_of g n → n ∈ _nodes g.
Proof. intros Hg Hd. by destruct (reachable_deps_nodes g n d Hg Hd). Qed.

Lemma deps_target_node g n d : reachable g → d ∈ deps_of g n → d ∈ _nodes g.
Proof. intros Hg Hd. by destruct (reachable_deps_nodes g n d Hg Hd). Qed.

Lemma reachable_dependents_nodes g n d :
  reachable g → n ∈ dependents_of g d → n ∈ _nodes g ∧ d ∈ _nodes g.
Proof. intros Hg ?%reachable_mirror; [|done]. by eapply reachable_deps_nodes. Qed.

Lemma reachable_build_inner g id deps :
  reachable g → reachable (foldl (λ graph dep, add_edge graph id dep) g deps).
Proof.
  revert g. induction deps as [|d deps IH]; intros g Hg; simpl; [done|].
  apply IH. by constructor.
Qed.

Lemma reachable_build_graph migrations : reachable (_build_graph migrations).
Proof.
  unfold _build_graph. generalize reachable_empty. generalize empty_graph.
  induction migrations as [|m ms IH]; intros g Hg; simpl; [done|].
  apply IH, reachable_build_inner. by constructor.
Qed.

Lemma filter_nil_Forall {A} (P : A → Prop) `{∀ x, Decision (P x)} (l : list A) :
  Forall (λ x, ¬ P x) l → filter P l = [].
Proof.
  induction 1 as [|x l Hx _ IH]; [done|].
  rewrite filter_cons, decide_False by done. done.
Qed.

Lemma missing_dependencies_reachable g : reachable g → missing_dependencies g = [].
Proof.
  intros Hg. unfold missing_dependencies.
  assert (∀ k v, (k, v) ∈ _forward g → v ⊆ _nodes g) as Hcl
    by (intros k v H; apply (reachable_forward_closed _ _ _ Hg) in H; tauto).
  induction (_forward g) as [|[k v] d IH]; simpl; [done|].
  rewrite IH; [|intros k' v' ?; apply (Hcl k' v'); by right].
  rewrite app_nil_r, filter_nil_Forall; [done|].
  apply Forall_forall. intros x Hx%elem_of_sorted%elem_of_elements.
  intros Hn. apply Hn. eapply Hcl; [left|done].
Qed.

(** Membership in the lists of heads, roots and orphans. *)
Lemma elem_of_find_heads g n :
  n ∈ find_heads g ↔ n ∈ _nodes g ∧ dependents_of g n = ∅.
Proof.
  unfold find_heads. rewrite elem_of_sorted, list_elem_of_filter, elem_of_elements.
  rewrite truthy_get. change (get_or_empty (_reverse g) n) with (dependents_of g n).
  destruct (decide (dependents_of g n = ∅)); naive_solver.
Qed.

Lemma elem_of_find_roots g n :
  n ∈ find_roots g ↔ n ∈ _nodes g ∧ deps_of g n = ∅.
Proof.
  unfold find_roots. rewrite elem_of_sorted, list_elem_of_filter, elem_of_elements.
  rewrite truthy_get. change (get_or_empty (_forward g) n) with (deps_of g n).
  destruct (decide (deps_of g n = ∅)); naive_solver.
Qed.

Lemma elem_of_find_orphans g n :
  n ∈ find_orphans g ↔ n ∈ _nodes g ∧ deps_of g n = ∅ ∧ dependents_of g n = ∅.
Proof.
  unfold find_orphans. rewrite elem_of_sorted, list_elem_of_filter, elem_of_elements.
  rewrite !truthy_get.
  change (get_or_empty (_forward g) n) with (deps_of g n).
  change (get_or_empty (_reverse g) n) with (dependents_of g n).
  destruct (decide (deps_of g n = ∅)), (decide (dependents_of g n = ∅)); naive_solver.
Qed.

Lemma sorted_strict l :
  NoDup l → StronglySorted (λ a b, str_le a b ∧ a ≠ b) (sorted l).
Proof.
  intros Hnd%sorted_NoDup. pose proof (sorted_Sorted l) as Hs.
  induction Hs as [|x xs Hs IH Hx]; constructor.
  - apply IH. by apply NoDup_cons in Hnd as [_ ?].
  - apply NoDup_cons in Hnd as [Hx' _]. apply Forall_forall. intros y Hy.
    split; [by eapply Forall_forall in Hx|]. by intros ->.
Qed.

Lemma two_elements_length (l : list string) (a b : string) :
  a ∈ l → b ∈ l → a ≠ b → 1 < length l.
Proof.
  intros Ha Hb Hab. destruct l as [|x [|y l]]; simpl; [|exfalso|lia].
  - by apply elem_of_nil in Ha.
  - apply list_elem_of_singleton in Ha, Hb. congruence.
Qed.

(** ** Idempotence of [add_node] and [add_edge] *)

(** C9. [add_node] and [add_edge] are idempotent: a second call with the same
    arguments leaves the whole graph state (node set, forward table, reverse
    table) as it was after the first call, and [add_edge] puts both of its
    endpoints into the node set. *)
Theorem add_node_add_edge_idempotent (g : MigrationGraph) (node dependency : string) :
  add_node (add_node g node) node = add_node g node
  ∧ add_edge (add_edge g node dependency) node dependency = add_edge g node dependency
  ∧ node ∈ _nodes (add_edge g node dependency)
  ∧ dependency ∈ _nodes (add_edge g node dependency).
Proof.
  split_and!.
  - unfold add_node; simpl. f_equal. set_solver.
  - unfold add_edge; simpl. rewrite !dict_add_idemp. f_equal. set_solver.
  - simpl. set_solver.
  - simpl. set_solver.
Qed.

(** Duplicate edges collapse: the adjacency read back after two identical
    insertions is the one read back after a single insertion. *)
Lemma add_edge_twice_adjacency g a b n :
  deps_of (add_edge (add_edge g a b) a b) n = deps_of (add_edge g a b) n
  ∧ dependents_of (add_edge (add_edge g a b) a b) n = dependents_of (add_edge g a b) n.
Proof. unfold deps_of, dependents_of. simpl. by rewrite !dict_add_idemp. Qed.

(** ** Risk scoring *)

Section risk_scoring.
Import RiskScoring.

Lemma total_score_foldl (fs : list RiskFinding) (z : Z) :
  foldl (λ acc f, (acc + score f)%Z) z fs = (z + foldr Z.add 0%Z (score <$> fs))%Z.
Proof.
  revert z. induction fs as [|f fs IH]; intros z; csimpl; [lia|].
  rewrite IH. lia.
Qed.

Lemma total_score_app (fs1 fs2 : list RiskFinding) :
  total_score {| findings := fs1 ++ fs2 |}
  = (total_score {| findings := fs1 |} + total_score {| findings := fs2 |})%Z.
Proof.
  unfold total_score; simpl. rewrite !total_score_foldl, fmap_app, foldr_app.
  generalize (score <$> fs2). intros l2.
  induction (score <$> fs1) as [|x l1 IH]; simpl; lia.
Qed.

(** C5. [total_score] is the sum of the findings' scores, and [severity]
    follows the bands: at most 3 is LOW, 4 to 6 is MEDIUM, 7 to 9 is HIGH,
    10 or more is CRITICAL; the boundary scores 0, 3, 4, 6, 7, 9, 10 and
    100 fall as listed. *)
Theorem total_score_sum_severity_bands (r : RiskReport) :
  total_score r = foldr Z.add 0%Z (score <$> findings r)
  ∧ (severity r = LOW ↔ (total_score r ≤ 3)%Z)
  ∧ (severity r = MEDIUM ↔ (4 ≤ total_score r ≤ 6)%Z)
  ∧ (severity r = HIGH ↔ (7 ≤ total_score r ≤ 9)%Z)
  ∧ (severity r = CRITICAL ↔ (10 ≤ total_score r)%Z)
  ∧ from_score 0 = LOW ∧ from_score 3 = LOW
  ∧ from_score 4 = MEDIUM ∧ from_score 6 = MEDIUM
  ∧ from_score 7 = HIGH ∧ from_score 9 = HIGH
  ∧ from_score 10 = CRITICAL ∧ from_score 100 = CRITICAL.
Proof.
  split.
  { unfold total_score. rewrite total_score_foldl. lia. }
  unfold severity, from_score. generalize (total_score r). intros z.
  split_and!; try done; repeat case_decide; split; intros; try done; lia.
Qed.

(** The score that [add] records is the table entry of the category, or 5
    for a category the table does not know. *)
Lemma add_finding_total_score (s : RiskScorer) (c d f : string) :
  total_score (report (add_finding s c d f))
  = (total_score (report s) + default 5%Z (weights s !! c))%Z
    ∨ weights s = ∅.
Proof.
  destruct (decide (weights s = ∅)) as [|Hne]; [by right|left].
  unfold report, add_finding, add; simpl. rewrite decide_False by done.
  destruct (_report s) as [fs]. rewrite total_score_app.
  unfold total_score at 2; simpl. lia.
Qed.

(** C10. [passed] holds exactly for a report without findings: every call
    of [add] (and of [RiskScorer.add_finding]) makes it false whatever
    score the finding gets, even a score of 0 from a custom weight table,
    and a report without findings passes. *)
Theorem passed_iff_no_findings :
  (∀ r : RiskReport, passed r = true ↔ findings r = [])
  ∧ (∀ (r : RiskReport) (c d f : string) (w : option (gmap string Z)),
       passed (add r c d f w) = false)
  ∧ (∀ (s : RiskScorer) (c d f : string),
       passed (report (add_finding s c d f)) = false)
  ∧ (let s := add_finding (new_scorer (Some {[ "custom" := 0%Z ]})) "custom" "d" "" in
     total_score (report s) = 0%Z ∧ passed (report s) = false)
  ∧ passed new_report = true.
Proof.
  assert (∀ (r : RiskReport) c d f w, passed (add r c d f w) = false) as Hadd.
  { intros r c d f w. unfold passed, add; simpl.
    apply bool_decide_eq_false. rewrite length_app; simpl. lia. }
  split_and!.
  - intros r. unfold passed. rewrite bool_decide_eq_true.
    destruct (findings r); simpl; naive_solver.
  - apply Hadd.
  - intros s c d f. apply Hadd.
  - by vm_compute.
  - done.
Qed.

End risk_scoring.

(** ** Branch comparison *)

Section branch_compare.
Import BranchCompare.

(** C8, as amended. When [fetch] and [current_branch] succeed and
    [merge_base] returns the empty string for the current and the target
    branch, [compare] returns normally: the report carries the two branch
    names, exactly one suggestion, and otherwise the default fields. *)
Theorem compare_no_merge_base (git : Git.GitClient) (target current : string) :
  Git.fetch git = Ok () →
  Git.current_branch git = Ok current →
  Git.merge_base git current target = Ok "" →
  compare git target
  = Ok {| current_branch := current; target_branch := target;
          is_behind := false; commits_behind := 0;
          current_only := []; target_only := []; parallel_migrations := [];
          suggestions := [no_merge_base_message] |}.
Proof.
  intros Hf Hc Hm. unfold compare. rewrite Hf; simpl. rewrite Hc; simpl.
  rewrite Hm; simpl. done.
Qed.

Lemma compare_no_merge_base_witness :
  compare no_merge_base_git "origin/main"
  = Ok {| current_branch := "feature/add-users"; target_branch := "origin/main";
          is_behind := false; commits_behind := 0;
          current_only := []; target_only := []; parallel_migrations := [];
          suggestions := [no_merge_base_message] |}.
Proof.
  apply (compare_no_merge_base no_merge_base_git "origin/main" "feature/add-users");
    reflexivity.
Defined.

(** C8, as stated, fails: a collaborator whose [merge_base] returns the
    empty string for all branches but whose [fetch] fails makes [compare]
    raise, because the failure of [fetch] is propagated before the merge
    base is looked at. *)
Lemma compare_raises_when_fetch_fails :
  (∀ a b, Git.merge_base failing_fetch_git a b = Ok "")
  ∧ compare failing_fetch_git "origin/main"
    = Raise (GitError "fetch" "fatal: unable to access remote" 128).
Proof. split; reflexivity. Qed.

End branch_compare.

(** ** The non-null-without-default rule *)

Section non_null_rule.
Import Re Rules NonNullRule.

(** The Alembic check appends a violation for a call site whenever
    [nullable=False] occurs in its window; no default is looked for. *)
Lemma alembic_check_ignores_default content migration violations :
  _check_alembic_add_column content migration violations
  = violations ++
    ((λ '(start, _),
        _make_violation migration (line_no content start)
          "Alembic op.add_column() with nullable=False")
     <$> filter (λ '(start, _),
                   search _ALEMBIC_NULLABLE_FALSE_RE (context_at content start) = true)
                (finditer _ALEMBIC_ADD_COL_RE content)).
Proof.
  unfold _check_alembic_add_column.
  generalize (finditer _ALEMBIC_ADD_COL_RE content). intros ms. revert violations.
  induction ms as [|[start len] ms IH]; intros vs; simpl.
  - by rewrite app_nil_r.
  - rewrite IH.
    destruct (search _ALEMBIC_NULLABLE_FALSE_RE (context_at content start)) eqn:E.
    + rewrite filter_cons, decide_True by done. by rewrite <- app_assoc.
    + rewrite filter_cons, decide_False by (by rewrite E). done.
Qed.

(** C2 fails on the Alembic form: [op.add_column] followed, within the
    window, by [nullable=False] together with a default still yields a
    violation. *)
Theorem alembic_add_column_with_default_flagged :
  evaluate alembic_with_default
  = [_make_violation alembic_with_default 1
       "Alembic op.add_column() with nullable=False"]
  ∧ search _DJANGO_DEFAULT_RE
      (String.list_ascii_of_string (Adapters.sql_content alembic_with_default)) = true.
Proof. split; by vm_compute. Qed.

(** The Django form of the same statement is not flagged when a default is
    given, and is flagged without it. *)
Lemma django_add_field_default_respected :
  evaluate django_with_default = []
  ∧ evaluate django_without_default
    = [_make_violation django_without_default 1
         "Django AddField with null=False and no default value"].
Proof. split; by vm_compute. Qed.

End non_null_rule.

(** ** Dangling dependencies *)

(** A graph built from migration records never reports a missing
    dependency: [add_edge] has inserted every dependency into the node set. *)
Lemma build_graph_no_missing_dependencies (migrations : list Adapters.MigrationInfo) :
  missing_dependencies (_build_graph migrations) = [].
Proof. apply missing_dependencies_reachable, reachable_build_graph. Qed.

(** C1 fails on the code: for a record that depends on an id that no record
    has, the dangling id has become a node of the graph, so
    [missing_dependencies] is empty and [analyze] reports nothing. *)
Theorem dangling_dependency_not_reported :
  let g := _build_graph [dangling_record] in
  "ghost" ∈ _nodes g
  ∧ missing_dependencies g = []
  ∧ analyze g = Ok [].
Proof. split_and!; by vm_compute. Qed.

(** ** Kahn's algorithm *)

Lemma filter_ext_elem_of {A} (P Q : A → Prop)
    `{!∀ x, Decision (P x), !∀ x, Decision (Q x)} (l : list A) :
  (∀ x, x ∈ l → P x ↔ Q x) → filter P l = filter Q l.
Proof.
  induction l as [|a l IH]; intros Hext; [done|].
  rewrite !filter_cons, IH by (intros; apply Hext; by right).
  assert (P a ↔ Q a) as Ha by (apply Hext; left).
  destruct (decide (P a)), (decide (Q a)); tauto || done.
Qed.

Lemma in_degree_init_lookup g n :
  n ∈ _nodes g →
  in_degree_init g !! n = Some (Z.of_nat (size (deps_of g n))).
Proof.
  intros Hn. unfold in_degree_init. apply lookup_set_to_map; [naive_solver|].
  by exists n.
Qed.

Lemma in_degree_init_dom g n : is_Some (in_degree_init g !! n) → n ∈ _nodes g.
Proof.
  intros [z Hz]. unfold in_degree_init in Hz.
  apply lookup_set_to_map in Hz as (y & Hy & [= <- _]); naive_solver.
Qed.

(** The effect of the loop over the dependents of an emitted node. *)
Lemma relax_fold (in_degree : gmap string Z) (queue ds : list string) :
  NoDup ds →
  (∀ d, d ∈ ds → is_Some (in_degree !! d)) →
  ∃ in_degree',
    foldl relax (Ok (in_degree, queue)) ds
    = Ok (in_degree', queue ++ filter (λ d, in_degree !! d = Some 1%Z) ds)
    ∧ ∀ n, in_degree' !! n
           = if decide (n ∈ ds) then (λ z, (z - 1)%Z) <$> in_degree !! n
             else in_degree !! n.
Proof.
  revert in_degree queue. induction ds as [|d ds IH]; intros m q Hnd Hdom.
  - exists m. simpl. rewrite app_nil_r. split; [done|]. intros n.
    destruct (decide (n ∈ [])) as [?%elem_of_nil|]; done.
  - apply NoDup_cons in Hnd as [Hd Hnd].
    destruct (Hdom d) as [z Hz]; [left|].
    simpl. rewrite Hz; simpl.
    destruct (IH (<[d := (z - 1)%Z]> m)
                 (if decide ((z - 1)%Z = 0%Z) then q ++ [d] else q) Hnd)
      as (m' & Hfold & Hm').
    { intros d' Hd'. rewrite lookup_insert_ne by set_solver. apply Hdom. by right. }
    exists m'. split.
    + rewrite Hfold. f_equal. f_equal.
      rewrite filter_cons, Hz.
      rewrite (filter_ext_elem_of (λ d0, <[d:=(z - 1)%Z]> m !! d0 = Some 1%Z)
                                  (λ d0, m !! d0 = Some 1%Z)).
      2:{ intros x Hx. rewrite lookup_insert_ne by set_solver. done. }
      destruct (decide ((z - 1)%Z = 0%Z)) as [Hz1|Hz1].
      * rewrite decide_True by (f_equal; lia). by rewrite <- app_assoc.
      * rewrite decide_False; [done|]. intros [= ->]. done.
    + intros n. rewrite Hm'.
      destruct (decide (n = d)) as [->|Hne].
      * rewrite decide_False by done. rewrite decide_True by left.
        by rewrite lookup_insert_eq, Hz.
      * rewrite lookup_insert_ne by done.
        destruct (decide (n ∈ ds)).
        -- rewrite decide_True by (by right). done.
        -- rewrite decide_False; [done|]. by intros [?|?]%elem_of_cons.
Qed.

Lemma StronglySorted_impl_elem_of {A} (R1 R2 : relation A) (l : list A) :
  (∀ x y, x ∈ l → y ∈ l → R1 x y → R2 x y) →
  StronglySorted R1 l → StronglySorted R2 l.
Proof.
  intros Himpl Hl. induction Hl as [|x l Hl IH Hx]; constructor.
  - apply IH. intros ?????. apply Himpl; by try right.
  - apply Forall_forall. intros y Hy. apply Himpl; [left|by right|].
    by eapply Forall_forall in Hx.
Qed.

Lemma StronglySorted_filter {A} (R : relation A) (P : A → Prop)
    `{!∀ x, Decision (P x)} (l : list A) :
  StronglySorted R l → StronglySorted R (filter P l).
Proof.
  induction 1 as [|x l Hl IH Hx]; [constructor|].
  rewrite filter_cons. destruct (decide (P x)); [|done].
  constructor; [done|]. apply Forall_forall.
  intros y [_ Hy]%list_elem_of_filter. by eapply Forall_forall in Hx.
Qed.

Lemma size_zero_empty (X : gset string) : size X = 0 ↔ X = ∅.
Proof. rewrite size_empty_iff. apply leibniz_equiv_iff. Qed.

Lemma size_difference_step (D E : gset string) (x : string) :
  x ∈ D → x ∉ E → size (D ∖ E) = S (size (D ∖ (E ∪ {[x]}))).
Proof.
  intros HD HE.
  assert (D ∖ E = {[x]} ∪ D ∖ (E ∪ {[x]})) as ->.
  { apply set_eq. intros y. destruct (decide (y = x)); set_solver. }
  rewrite size_union by set_solver. by rewrite size_singleton.
Qed.

Lemma list_to_set_snoc (l : list string) (x : string) :
  list_to_set (l ++ [x]) =@{gset string} list_to_set l ∪ {[x]}.
Proof. rewrite list_to_set_app_L. set_solver. Qed.

Lemma ready_snoc_old g result x n k :
  deps_of g n ⊆ list_to_set result →
  ready g (result ++ [x]) n k ↔ ready g result n k.
Proof.
  intros Hn. unfold ready. destruct (decide (k ≤ length result)).
  - by rewrite take_app_le.
  - rewrite !take_ge by (rewrite ?length_app; simpl; lia).
    rewrite list_to_set_snoc. set_solver.
Qed.

Lemma ready_snoc_new g result x n k :
  x ∉ result → x ∈ deps_of g n → deps_of g n ⊆ list_to_set result ∪ {[x]} →
  ready g (result ++ [x]) n k ↔ length result < k.
Proof.
  intros Hx Hn Hsub. unfold ready. split.
  - intros Hr. destruct (decide (length result < k)) as [|Hk]; [done|].
    rewrite take_app_le in Hr by lia.
    assert (x ∈ take k result) as ?%subseteq_take by set_solver.
    done.
  - intros Hk. rewrite take_ge by (rewrite length_app; simpl; lia).
    by rewrite list_to_set_snoc.
Qed.

Lemma kahn_inv_init g :
  reachable g →
  kahn_inv g (in_degree_init g)
    (sorted (filter (λ n, in_degree_init g !! n = Some 0%Z) (elements (_nodes g)))) [].
Proof.
  intros Hg.
  assert (∀ n, n ∈ sorted (filter (λ n, in_degree_init g !! n = Some 0%Z)
                              (elements (_nodes g)))
               ↔ n ∈ _nodes g ∧ deps_of g n = ∅) as Hq.
  { intros n. rewrite elem_of_sorted, list_elem_of_filter, elem_of_elements.
    split; intros [H1 H2].
    - split; [done|]. rewrite in_degree_init_lookup in H1 by done.
      apply size_zero_empty. injection H1. lia.
    - split; [|done]. rewrite in_degree_init_lookup, H2 by done.
      by rewrite size_empty. }
  split; simpl.
  - apply sorted_NoDup, NoDup_filter, NoDup_elements.
  - intros n Hn. by apply Hq in Hn as [? _].
  - intros n Hn. rewrite in_degree_init_lookup by done.
    do 3 f_equal. set_solver.
  - intros n Hn. rewrite Hq. set_solver.
  - intros i n. by rewrite lookup_nil.
  - eapply StronglySorted_impl_elem_of; [|apply sorted_Sorted].
    intros x y [_ Hx]%Hq [_ Hy]%Hq Hxy. split; [|done].
    intros k _. unfold ready. rewrite Hx. set_solver.
Qed.

Lemma kahn_inv_step g in_degree x queue result :
  reachable g →
  kahn_inv g in_degree (x :: queue) result →
  ∃ in_degree' queue',
    foldl relax (Ok (in_degree, queue)) (sorted (elements (get_or_empty (_reverse g) x)))
    = Ok (in_degree', queue')
    ∧ kahn_inv g in_degree' queue' (result ++ [x]).
Proof.
  intros Hg [Hnd Hnodes Hdeg Hready Horder Hfifo].
  change (get_or_empty (_reverse g) x) with (dependents_of g x).
  set (ds := sorted (elements (dependents_of g x))).
  assert (∀ n, n ∈ ds ↔ x ∈ deps_of g n) as Hds.
  { intros n. unfold ds. rewrite elem_of_sorted, elem_of_elements.
    symmetry. by apply reachable_mirror. }
  assert (NoDup ds) as Hdsnd by apply sorted_NoDup, NoDup_elements.
  assert ((x ∉ result) ∧ (x ∉ queue) ∧ NoDup result ∧ NoDup queue
          ∧ ∀ n, n ∈ result → n ∉ queue) as (Hxr & Hxq & Hndr & Hndq & Hdisj).
  { apply NoDup_app in Hnd as (? & Hd & [??]%NoDup_cons).
    split_and!; try done; [|set_solver]. intros ?. eapply Hd; [done|left]. }
  assert (x ∈ _nodes g) as Hxn by (apply Hnodes; set_solver).
  assert (deps_of g x ⊆ list_to_set result) as Hxready
    by (apply Hready; [done|set_solver]).
  destruct (relax_fold in_degree queue ds Hdsnd) as (m' & Hfold & Hm').
  { intros d Hd%Hds. rewrite Hdeg; [done|]. by eapply deps_source_node. }
  exists m', (queue ++ filter (λ d, in_degree !! d = Some 1%Z) ds).
  split; [done|].
  set (new := filter (λ d, in_degree !! d = Some 1%Z) ds).
  assert (∀ n, n ∈ new ↔ x ∈ deps_of g n
                          ∧ size (deps_of g n ∖ list_to_set result) = 1) as Hnew.
  { intros n. unfold new. rewrite list_elem_of_filter, Hds. split.
    - intros [H1 H2]. split; [done|].
      rewrite Hdeg in H1 by (by eapply deps_source_node). injection H1. lia.
    - intros [H1 H2]. split; [|done].
      rewrite Hdeg by (by eapply deps_source_node). by rewrite H2. }
  assert (∀ n, n ∈ new → n ∉ result ++ x :: queue) as Hfresh.
  { intros n [Hn1 Hn2]%Hnew Hin.
    apply Hready in Hin; [|by eapply deps_source_node].
    assert (deps_of g n ∖ list_to_set result = ∅) as Hemp by set_solver.
    rewrite Hemp, size_empty in Hn2. done. }
  assert (∀ n, n ∈ new → deps_of g n ⊆ list_to_set result ∪ {[x]}) as Hnewsub.
  { intros n [Hn1 Hn2]%Hnew.
    rewrite (size_difference_step _ _ x) in Hn2 by (by rewrite ?elem_of_list_to_set).
    assert (deps_of g n ∖ (list_to_set result ∪ {[x]}) = ∅) as Hemp
      by (apply size_zero_empty; lia).
    intros y Hy.
    destruct (decide (y ∈ (list_to_set result ∪ {[x]} : gset string))); [done|].
    set_solver. }
  split.
  - (* no duplicates *)
    rewrite <- app_assoc. simpl.
    apply NoDup_app. split_and!; [done| |].
    + intros n Hn [->|[?|?%Hfresh]%elem_of_app]%elem_of_cons; try done.
      * by eapply Hdisj.
      * set_solver.
    + apply NoDup_cons. split.
      * intros [?|?%Hfresh]%elem_of_app; [done|set_solver].
      * apply NoDup_app. split_and!; [done| |by apply NoDup_filter].
        intros n Hn ?%Hfresh. set_solver.
  - (* all nodes *)
    intros n. rewrite <- app_assoc. simpl.
    intros [?|[->|[?|[? _]%Hnew]%elem_of_app]%elem_of_cons]%elem_of_app.
    + apply Hnodes. set_solver.
    + done.
    + apply Hnodes. set_solver.
    + by eapply deps_source_node.
  - (* remaining in-degrees *)
    intros n Hn. rewrite Hm', Hdeg by done. rewrite list_to_set_snoc.
    destruct (decide (n ∈ ds)) as [Hd%Hds|Hd]; simpl.
    + rewrite (size_difference_step _ (list_to_set result) x)
        by (by rewrite ?elem_of_list_to_set).
      f_equal. lia.
    + rewrite Hds in Hd. do 3 f_equal. set_solver.
  - (* readiness *)
    intros n Hn. rewrite list_to_set_snoc, <- app_assoc. simpl. split.
    + intros [?|[->|[?|?%Hnewsub]%elem_of_app]%elem_of_cons]%elem_of_app;
        [..|done]; (etrans; [apply Hready; [done|set_solver]|set_solver]).
    + intros Hsub. destruct (decide (deps_of g n ⊆ list_to_set result)) as [Hold|Hnold].
      * apply Hready in Hold; [|done]. set_solver.
      * assert (x ∈ deps_of g n) as Hxd.
        { destruct (decide (x ∈ deps_of g n)); [done|]. exfalso. apply Hnold.
          set_solver. }
        assert (n ∈ new); [|set_solver].
        apply Hnew. split; [done|].
        rewrite (size_difference_step _ _ x) by (by rewrite ?elem_of_list_to_set).
        assert (deps_of g n ∖ (list_to_set result ∪ {[x]}) = ∅) as -> by set_solver.
        by rewrite size_empty.
  - (* dependencies first *)
    intros i n Hi. destruct (decide (i < length result)) as [Hlt|Hge].
    + rewrite lookup_app_l in Hi by done.
      apply ready_snoc_old.
      * apply Hready; [apply Hnodes|]; apply list_elem_of_lookup_2 in Hi; set_solver.
      * by apply Horder.
    + rewrite lookup_app_r in Hi by lia.
      apply list_lookup_singleton_Some in Hi as [Hi <-].
      unfold ready. rewrite take_app_le, take_ge by lia. done.
  - (* first in, first out *)
    replace ((result ++ [x]) ++ queue ++ new) with ((result ++ x :: queue) ++ new)
      by (by rewrite <- !app_assoc).
    assert (∀ n, n ∈ result ++ x :: queue →
                 ∀ k, ready g (result ++ [x]) n k ↔ ready g result n k) as Hold.
    { intros n Hn k. apply ready_snoc_old, Hready; [by apply Hnodes|done]. }
    assert (∀ n, n ∈ new → ∀ k, ready g (result ++ [x]) n k ↔ length result < k) as Hrnew.
    { intros n Hn k. apply ready_snoc_new; [done|by apply Hnew in Hn as [? _]|].
      by apply Hnewsub. }
    apply StronglySorted_app. split_and!.
    + intros a b Ha Hb. split.
      * intros k Hk%Hrnew; [|done]. apply Hold; [done|].
        unfold ready. rewrite take_ge by lia. apply Hready; [by apply Hnodes|done].
      * intros Hab. exfalso.
        assert (length result < length result); [|lia].
        apply (Hrnew b Hb), Hab, Hold; [done|].
        unfold ready. rewrite take_ge by lia. apply Hready; [by apply Hnodes|done].
    + eapply StronglySorted_impl_elem_of; [|exact Hfifo].
      intros a b Ha Hb [H1 H2]. split.
      * intros k ?%Hold; [|done]. apply Hold; auto.
      * intros Hab. apply H2. intros k ?%Hold; [|done]. apply Hold; auto.
    + eapply StronglySorted_impl_elem_of; [|apply StronglySorted_filter, sorted_Sorted].
      intros a b Ha Hb Hab. split; [|done].
      intros k ?%Hrnew; [|done]. by apply Hrnew.
Qed.

Lemma NoDup_subset_length (l : list string) (X : gset string) :
  NoDup l → (∀ x, x ∈ l → x ∈ X) → length l ≤ size X.
Proof.
  intros Hnd Hsub. rewrite <- (size_list_to_set (C := gset string)) by done.
  apply subseteq_size. set_solver.
Qed.

(** The loop terminates within [size nodes] iterations and keeps the
    invariant. *)
Lemma kahn_loop_fuel_enough g fuel in_degree queue result :
  reachable g →
  kahn_inv g in_degree queue result →
  size (_nodes g) ≤ fuel + length result →
  ∃ emitted in_degree',
    kahn_loop g fuel in_degree queue result = Ok emitted
    ∧ kahn_inv g in_degree' [] emitted.
Proof.
  intros Hg. revert in_degree queue result.
  induction fuel as [|fuel IH]; intros m queue result Hinv Hfuel.
  - destruct queue as [|x queue]; [by exists result, m|].
    exfalso.
    assert (length (result ++ [x]) ≤ size (_nodes g)) as Hlen.
    { apply NoDup_subset_length.
      - destruct Hinv as [Hnd _ _ _ _ _].
        apply NoDup_app in Hnd as (? & Hd & [??]%NoDup_cons).
        apply NoDup_app. split_and!; [done| |apply NoDup_singleton].
        intros y Hy ->%list_elem_of_singleton. eapply Hd; [done|left].
      - intros y Hy. apply (kahn_nodes _ _ _ _ Hinv). set_solver. }
    rewrite length_app in Hlen. simpl in *. lia.
  - destruct queue as [|x queue]; [by exists result, m|].
    destruct (kahn_inv_step g m x queue result Hg Hinv) as (m' & q' & Hfold & Hinv').
    simpl. rewrite Hfold. simpl. apply IH; [done|].
    rewrite length_app. simpl. lia.
Qed.

(** More fuel does not change the result. *)
Lemma kahn_loop_fuel_mono g fuel fuel' in_degree queue result emitted :
  kahn_loop g fuel in_degree queue result = Ok emitted →
  fuel ≤ fuel' →
  kahn_loop g fuel' in_degree queue result = Ok emitted.
Proof.
  revert fuel' in_degree queue result.
  induction fuel as [|fuel IH]; intros fuel' m queue result Hrun Hle.
  - destruct queue; [|done]. by destruct fuel'.
  - destruct queue as [|x queue]; [by destruct fuel'|].
    destruct fuel' as [|fuel']; [lia|]. simpl in *.
    destruct (foldl relax _ _) as [[m' q']| |]; simpl in *; try done.
    apply IH; [done|lia].
Qed.

Section kahn_final.
Context (g : MigrationGraph) (in_degree : gmap string Z) (emitted : list string).
Context (Hg : reachable g) (Hinv : kahn_inv g in_degree [] emitted).

Lemma kahn_final_NoDup : NoDup emitted.
Proof. destruct Hinv as [Hnd _ _ _ _ _]. by rewrite app_nil_r in Hnd. Qed.

Lemma kahn_final_nodes n : n ∈ emitted → n ∈ _nodes g.
Proof. intros Hn. apply (kahn_nodes _ _ _ _ Hinv). by rewrite app_nil_r. Qed.

Lemma kahn_final_length : length emitted ≤ size (_nodes g).
Proof.
  apply NoDup_subset_length; [apply kahn_final_NoDup|apply kahn_final_nodes].
Qed.

Lemma kahn_final_ready n :
  n ∈ _nodes g → n ∈ emitted ↔ deps_of g n ⊆ list_to_set emitted.
Proof.
  intros Hn. rewrite <- (kahn_ready _ _ _ _ Hinv) by done. by rewrite app_nil_r.
Qed.

(** Every dependency of an emitted node is emitted at a smaller index. *)
Lemma kahn_final_before i n d :
  emitted !! i = Some n → d ∈ deps_of g n → ∃ j, j < i ∧ emitted !! j = Some d.
Proof.
  intros Hi Hd. apply (kahn_order _ _ _ _ Hinv) in Hi.
  assert (d ∈ take i emitted) as (j & ? & ?)%elem_of_take
    by (apply Hi in Hd; set_solver).
  eauto.
Qed.

Lemma kahn_final_before_tc i n d :
  tc (depends_on g) n d → emitted !! i = Some n →
  ∃ j, j < i ∧ emitted !! j = Some d.
Proof.
  intros Htc. revert i. induction Htc as [n d Hnd|n y d Hny _ IH]; intros i Hi.
  - by eapply kahn_final_before.
  - destruct (kahn_final_before i n y Hi Hny) as (j & Hj & Hy).
    destruct (IH j Hy) as (k & Hk & Hd). exists k. split; [lia|done].
Qed.

(** A node on a cycle is never emitted. *)
Lemma kahn_final_cycle n : tc (depends_on g) n n → n ∉ emitted.
Proof.
  intros Htc (i & Hi)%list_elem_of_lookup.
  destruct (kahn_final_before_tc i n n Htc Hi) as (j & Hj & Hn).
  assert (i = j); [|lia]. eapply NoDup_lookup; eauto using kahn_final_NoDup.
Qed.

Lemma tc_depends_nodes n d : tc (depends_on g) n d → n ∈ _nodes g ∧ d ∈ _nodes g.
Proof.
  induction 1 as [n d Hnd|n y d Hny _ [_ IH]].
  - by apply reachable_deps_nodes.
  - split; [|done]. by eapply deps_source_node.
Qed.

Lemma kahn_final_has_cycle : has_cycle g → length emitted < size (_nodes g).
Proof.
  intros [n Hn].
  assert (length emitted ≤ size (_nodes g ∖ {[n]})) as Hlen.
  { apply NoDup_subset_length; [apply kahn_final_NoDup|].
    intros x Hx. apply elem_of_difference. split; [by apply kahn_final_nodes|].
    intros ->%elem_of_singleton. by eapply kahn_final_cycle. }
  rewrite size_difference in Hlen.
  - rewrite size_singleton in Hlen.
    assert (0 < size (_nodes g)); [|lia].
    apply tc_depends_nodes in Hn as [Hn _].
    destruct (decide (size (_nodes g) = 0)) as [Hz%size_zero_empty|]; [|lia].
    set_solver.
  - apply tc_depends_nodes in Hn as [Hn _]. set_solver.
Qed.

Lemma kahn_final_acyclic : acyclic g → length emitted = size (_nodes g).
Proof.
  intros Hac.
  assert (∀ n, n ∈ _nodes g → n ∈ emitted) as Hall.
  { intros n.
    assert (sn (depends_on g) n) as Hsn.
    { apply tc_finite_sn.
      - intros x Hx. apply Hac. by exists x.
      - exists (elements (_nodes g)). intros y Hy%tc_depends_nodes.
        apply elem_of_elements. tauto. }
    induction Hsn as [n _ IH]. intros Hn.
    apply kahn_final_ready; [done|]. intros d Hd.
    apply elem_of_list_to_set, IH; [done|]. by eapply deps_target_node. }
  apply Nat.le_antisymm; [apply kahn_final_length|].
  rewrite <- (size_list_to_set (C := gset string)) by apply kahn_final_NoDup.
  apply subseteq_size. set_solver.
Qed.

Lemma kahn_final_perm :
  length emitted = size (_nodes g) → emitted ≡ₚ elements (_nodes g).
Proof.
  intros Hlen. apply NoDup_Permutation; [apply kahn_final_NoDup|apply NoDup_elements|].
  intros x. rewrite elem_of_elements. split; [apply kahn_final_nodes|].
  assert (list_to_set emitted = _nodes g) as <-; [|by rewrite elem_of_list_to_set].
  apply set_subseteq_size_eq.
  - intros y ?%elem_of_list_to_set. by apply kahn_final_nodes.
  - rewrite size_list_to_set by apply kahn_final_NoDup. lia.
Qed.

End kahn_final.

(** [topological_sort] runs its loop to the end; it raises exactly when the
    loop has emitted fewer nodes than the graph has. *)
Lemma topological_sort_emitted g :
  reachable g →
  ∃ emitted in_degree,
    kahn_loop g (size (_nodes g)) (in_degree_init g)
      (sorted (filter (λ n, in_degree_init g !! n = Some 0%Z) (elements (_nodes g)))) []
    = Ok emitted
    ∧ kahn_inv g in_degree [] emitted
    ∧ topological_sort g
      = if decide (length emitted < size (_nodes g))
        then Raise (ValueError cycle_message) else Ok emitted.
Proof.
  intros Hg.
  destruct (kahn_loop_fuel_enough g (size (_nodes g)) _ _ _ Hg (kahn_inv_init g Hg))
    as (emitted & m & Hrun & Hinv); [simpl; lia|].
  exists emitted, m. split_and!; [done..|].
  unfold topological_sort, topological_sort_fuel. rewrite Hrun. simpl.
  pose proof (kahn_final_length g m emitted Hinv).
  repeat case_decide; done || lia.
Qed.

(** Any iteration budget from [size nodes] on gives the same result. *)
Lemma topological_sort_fuel_enough g fuel :
  reachable g → size (_nodes g) ≤ fuel →
  topological_sort_fuel fuel g = topological_sort g.
Proof.
  intros Hg Hfuel.
  destruct (topological_sort_emitted g Hg) as (emitted & m & Hrun & _ & _).
  unfold topological_sort, topological_sort_fuel.
  by rewrite Hrun, (kahn_loop_fuel_mono _ _ _ _ _ _ _ Hrun Hfuel).
Qed.

(** ** Depth-first traversal: [detect_cycles] *)

Lemma dfs_loop_unfold g wfuel fuel st node processed rest :
  dfs_loop g wfuel (S fuel) st ((node, processed) :: rest)
  = '(st', stack') ← dfs_step g wfuel st node processed rest;
    dfs_loop g wfuel fuel st' stack'.
Proof.
  unfold dfs_step. simpl. destruct processed; [done|].
  destruct (color st !! node) as [[]|]; done.
Qed.

Lemma elem_of_whites st n : n ∈ whites st ↔ color st !! n = Some WHITE.
Proof.
  unfold whites. rewrite elem_of_dom. split.
  - intros [c [Hc Hw]%map_lookup_filter_Some]. simpl in Hw. by subst.
  - intros Hn. exists WHITE. by apply map_lookup_filter_Some.
Qed.

Lemma whites_set_color st n c :
  c ≠ WHITE → whites (set_color n c st) = whites st ∖ {[n]}.
Proof.
  intros Hc. apply set_eq. intros x.
  rewrite elem_of_difference, !elem_of_whites, not_elem_of_singleton. simpl.
  destruct (decide (n = x)) as [->|Hne].
  - rewrite lookup_insert_eq. naive_solver.
  - rewrite lookup_insert_ne by done. naive_solver.
Qed.

Lemma whites_subseteq g st : dom (color st) = _nodes g → whites st ⊆ _nodes g.
Proof.
  intros <- x Hx%elem_of_whites. apply elem_of_dom. by eexists.
Qed.

(** *** The walk along parent links *)

Lemma parent_chain_agree p p' cur l :
  (∀ x, x ∈ l → parent_get p' x = parent_get p x) →
  parent_chain p cur l → parent_chain p' cur l.
Proof.
  revert cur. induction l as [|c l IH]; intros cur Hag; simpl; [done|].
  intros [-> Hl]. split; [done|].
  rewrite Hag by left. apply IH; [|done]. intros x Hx. apply Hag. by right.
Qed.

Lemma walk_parents_chain fuel p dep cur l acc :
  parent_chain p cur l → length l ≤ fuel →
  ∃ more, walk_parents fuel p dep cur acc = Ok (acc ++ more).
Proof.
  revert fuel cur acc. induction l as [|c l IH]; intros fuel cur acc; simpl.
  - intros -> _. exists []. destruct fuel; simpl; by rewrite app_nil_r.
  - intros [-> Hl] Hfuel. destruct fuel as [|fuel]; [lia|]. simpl.
    destruct (decide (c = dep)); [exists []; by rewrite app_nil_r|].
    destruct (IH fuel (parent_get p c) (acc ++ [c]) Hl) as [more Hmore]; [lia|].
    exists (c :: more). rewrite Hmore. by rewrite <- app_assoc.
Qed.

Lemma walk_parents_fuel_mono fuel fuel' p dep cur acc c :
  walk_parents fuel p dep cur acc = Ok c → fuel ≤ fuel' →
  walk_parents fuel' p dep cur acc = Ok c.
Proof.
  revert fuel' cur acc. induction fuel as [|fuel IH]; intros fuel' cur acc Hrun Hle.
  - destruct cur as [x|]; simpl in *; [|by destruct fuel'].
    destruct fuel'; simpl; by destruct (decide (x = dep)).
  - destruct fuel' as [|fuel']; [lia|]. destruct cur as [x|]; simpl in *; [|done].
    destruct (decide (x = dep)); [done|]. apply IH; [done|lia].
Qed.

Lemma parent_get_insert_ne p d v x :
  x ≠ d → parent_get (<[d := v]> p) x = parent_get p x.
Proof. intros Hne. unfold parent_get. by rewrite lookup_insert_ne. Qed.

(** *** The loop over the dependencies of a node *)

Lemma visit_deps_spec wfuel node st stack ds :
  (∀ d, d ∈ ds → is_Some (color st !! d)) →
  color st !! node ≠ Some WHITE →
  (∃ l, parent_chain (parent st) (parent_get (parent st) node) l
        ∧ length l ≤ wfuel
        ∧ ∀ x, x ∈ l → color st !! x ≠ Some WHITE) →
  ∃ st' cs,
    foldl (visit_dep wfuel node) (Ok (st, stack)) ds
    = Ok (st', reverse ((λ d, (d, false))
                          <$> filter (λ d, color st !! d = Some WHITE) ds) ++ stack)
    ∧ color st' = color st
    ∧ cycles st' = cycles st ++ cs
    ∧ Forall (λ c, c ≠ []) cs
    ∧ (cs = [] ↔ ∀ d, d ∈ ds → color st !! d ≠ Some GRAY)
    ∧ (∀ k, color st !! k ≠ Some WHITE → parent st' !! k = parent st !! k)
    ∧ (∀ k p, parent st' !! k = Some (Some p) →
              parent st !! k = Some (Some p) ∨ p = node).
Proof.
  revert st stack. induction ds as [|d ds IH]; intros st stack Hcol Hnode Hchain.
  - exists st, []. simpl. split_and!; try done.
    + by rewrite app_nil_r.
    + split; [|done]. by intros _ d ?%elem_of_nil.
    + auto.
  - destruct (Hcol d) as [c Hc]; [left|].
    assert (∀ d', d' ∈ ds → is_Some (color st !! d')) as Hcol'
      by (intros; apply Hcol; by right).
    simpl. rewrite Hc. destruct c.
    + (* white: record the parent and push *)
      assert (node ≠ d) as Hnd by (intros ->; done).
      destruct (IH (set_parent d node st) ((d, false) :: stack))
        as (st' & cs & Hrun & Hcolor & Hcyc & Hne & Hcs & Hp1 & Hp2); try done.
      { destruct Hchain as (l & Hl & Hlen & Hnw). exists l. simpl. split_and!; try done.
        rewrite parent_get_insert_ne by done.
        eapply parent_chain_agree; [|done].
        intros x Hx. apply parent_get_insert_ne. intros ->. by apply Hnw in Hx. }
      exists st', cs. simpl in *. split_and!; try done.
      * rewrite Hrun, filter_cons, decide_True by done.
        rewrite fmap_cons, reverse_cons, <- app_assoc. done.
      * rewrite Hcs. split; intros H d' Hd'; [|apply H; by right].
        apply elem_of_cons in Hd' as [->|Hd']; [by rewrite Hc|by apply H].
      * intros k Hk. rewrite Hp1 by done. apply lookup_insert_ne. intros ->. done.
      * intros k p [Hp| ->]%Hp2; [|by right].
        destruct (decide (d = k)) as [->|Hne'].
        -- rewrite lookup_insert_eq in Hp. right. congruence.
        -- rewrite lookup_insert_ne in Hp by done. by left.
    + (* gray: report a cycle *)
      destruct Hchain as (l & Hl & Hlen & Hnw).
      destruct (walk_parents_chain wfuel (parent st) d _ l [d; node] Hl Hlen)
        as [more Hwalk].
      rewrite Hwalk. simpl.
      destruct (IH (add_cycle (reverse ([d; node] ++ more)) st) stack)
        as (st' & cs & Hrun & Hcolor & Hcyc & Hne & Hcs & Hp1 & Hp2); try done.
      { by exists l. }
      exists st', (reverse ([d; node] ++ more) :: cs). simpl in *.
      split_and!; try done.
      * rewrite Hrun, filter_cons, decide_False by (rewrite Hc; done). done.
      * rewrite Hcyc, <- app_assoc. done.
      * constructor; [|done]. intros Hnil%(f_equal length).
        rewrite length_reverse in Hnil. simpl in Hnil. lia.
      * split; [done|]. intros H. exfalso. by apply (H d); [left|].
    + (* black: nothing to do *)
      destruct (IH st stack)
        as (st' & cs & Hrun & Hcolor & Hcyc & Hne & Hcs & Hp1 & Hp2); try done.
      exists st', cs. split_and!; try done.
      * rewrite Hrun, filter_cons, decide_False by (rewrite Hc; done). done.
      * rewrite Hcs. split; intros H d' Hd'; [|apply H; by right].
        apply elem_of_cons in Hd' as [->|Hd']; [by rewrite Hc|by apply H].
Qed.

(** *** Preservation of the invariant *)

Lemma split_app_cons {A} (l1 l2 above below : list A) (e x : A) :
  l1 ++ e :: l2 = above ++ x :: below →
  (∃ k, l1 = above ++ x :: k ∧ below = k ++ e :: l2)
  ∨ (above = l1 ∧ x = e ∧ below = l2)
  ∨ (∃ k, above = l1 ++ e :: k ∧ l2 = k ++ x :: below).
Proof.
  revert above. induction l1 as [|a l1 IH]; intros above Heq; simpl in *.
  - destruct above as [|b above]; simpl in *; simplify_eq.
    + right. by left.
    + right. right. by exists above.
  - destruct above as [|b above]; simpl in *; simplify_eq.
    + left. by exists l1.
    + destruct (IH above) as [(k & -> & ->)|[(-> & -> & ->)|(k & -> & ->)]]; [done|..].
      * left. by exists k.
      * right. by left.
      * right. right. by exists k.
Qed.

Lemma nonwhite_not_white st x : nonwhite st x → color st !! x ≠ Some WHITE.
Proof. intros [H|H]; rewrite H; done. Qed.

Lemma nonwhite_insert st st' n c x :
  color st' = <[n := c]> (color st) → c ≠ WHITE → nonwhite st x → nonwhite st' x.
Proof.
  intros Hcol Hc Hx. unfold nonwhite in *. rewrite Hcol.
  destruct (decide (n = x)) as [->|Hne].
  - rewrite lookup_insert_eq. destruct c; naive_solver.
  - by rewrite lookup_insert_ne.
Qed.

Lemma whites_insert st st' n c :
  color st' = <[n := c]> (color st) → c ≠ WHITE → whites st' = whites st ∖ {[n]}.
Proof.
  intros Hcol Hc. rewrite <- (whites_set_color st n c Hc).
  unfold whites. simpl. by rewrite Hcol.
Qed.

(** Popping a [(node, True)] entry: the node becomes black. *)
Lemma dfs_inv_finish g st n rest :
  reachable g →
  dfs_inv g st ((n, true) :: rest) →
  dfs_inv g (set_color n BLACK st) rest.
Proof.
  intros Hg [Hdom Hstk Hblack Hpend Hstale Hgray Hopen Hpnw Hchain].
  assert (n ∈ _nodes g) as Hn by (eapply Hstk; left).
  assert (∀ x, nonwhite st x → nonwhite (set_color n BLACK st) x) as Hmono
    by (intros x; by apply (nonwhite_insert st _ n BLACK)).
  assert (∀ x, color (set_color n BLACK st) !! x = Some WHITE →
               x ≠ n ∧ color st !! x = Some WHITE) as Hwhite.
  { intros x. simpl. destruct (decide (n = x)) as [->|Hne].
    - by rewrite lookup_insert_eq.
    - rewrite lookup_insert_ne by done. auto. }
  assert (∀ x, color (set_color n BLACK st) !! x = Some GRAY →
               x ≠ n ∧ color st !! x = Some GRAY) as Hgr.
  { intros x. simpl. destruct (decide (n = x)) as [->|Hne].
    - by rewrite lookup_insert_eq.
    - rewrite lookup_insert_ne by done. auto. }
  split.
  - simpl. rewrite dom_insert_L, Hdom. set_solver.
  - intros m b Hm. eapply Hstk. by right.
  - intros m d Hm Hd [Hdn Hdw]%Hwhite. simpl in Hm.
    destruct (decide (n = m)) as [->|Hne].
    + apply (Hpend [] m rest d) in Hdw; [|done..]. by apply elem_of_nil in Hdw.
    + rewrite lookup_insert_ne in Hm by done. by eapply Hblack.
  - intros above m below d -> Hd [Hdn Hdw]%Hwhite.
    apply (Hpend ((n, true) :: above) m below d) in Hdw; [|done..].
    apply elem_of_cons in Hdw as [?|?]; [simplify_eq|done].
  - intros above m below -> [Hmn Hmg]%Hgr.
    apply (Hstale ((n, true) :: above) m below) in Hmg; [|done].
    apply elem_of_cons in Hmg as [?|?]; [simplify_eq|done].
  - intros m [Hmn Hmg]%Hgr. apply Hgray in Hmg.
    apply elem_of_cons in Hmg as [?|?]; [simplify_eq|done].
  - intros m Hm. apply Hmono, Hopen. by right.
  - intros m p Hp. simpl in Hp. by apply Hmono, (Hpnw m).
  - intros m Hm.
    assert (nonwhite st m) as Hm'.
    { destruct (decide (m = n)) as [->|Hne]; [apply Hopen; left|].
      unfold nonwhite in *. simpl in Hm. by rewrite lookup_insert_ne in Hm. }
    destruct (Hchain m Hm') as (l & Hl & Hnd & Hnw).
    exists l. split_and!; [done..|]. intros x Hx. by apply Hmono, Hnw.
Qed.

Lemma elem_of_pushed col ds d b :
  (d, b) ∈ pushed col ds ↔ b = false ∧ d ∈ ds ∧ col !! d = Some WHITE.
Proof.
  unfold pushed. rewrite elem_of_reverse, list_elem_of_fmap. split.
  - intros (x & [= -> ->] & [? ?]%list_elem_of_filter). done.
  - intros (-> & ? & ?). exists d. split; [done|]. by apply list_elem_of_filter.
Qed.

Lemma pushed_length col ds : length (pushed col ds) ≤ length ds.
Proof.
  unfold pushed. rewrite length_reverse, length_fmap. apply length_filter.
Qed.

Lemma pushed_weight col ds :
  sum_list_with entry_weight (pushed col ds) = 2 * length (pushed col ds).
Proof.
  assert (Forall (λ e, e.2 = false) (pushed col ds)) as Hall.
  { apply Forall_forall. intros [d b] Hd%elem_of_pushed. simpl. tauto. }
  induction Hall as [|[d b] l Hb _ IH]; simpl in *; [done|].
  subst. rewrite IH. unfold entry_weight. simpl. lia.
Qed.

(** Popping a [(node, False)] entry: the node is not gray, it becomes gray
    and its white dependencies are pushed above a [(node, True)] entry. *)
Lemma dfs_step_process g wfuel st n rest :
  reachable g →
  dfs_inv g st ((n, false) :: rest) →
  size (_nodes g) ≤ wfuel →
  ∃ st' cs,
    dfs_step g wfuel st n false rest
    = Ok (st', pushed (<[n := GRAY]> (color st)) (sorted (elements (deps_of g n)))
               ++ (n, true) :: rest)
    ∧ (color st !! n = Some WHITE ∨ color st !! n = Some BLACK)
    ∧ color st' = <[n := GRAY]> (color st)
    ∧ cycles st' = cycles st ++ cs
    ∧ Forall (λ c, c ≠ []) cs
    ∧ (cs = [] ↔ ∀ d, d ∈ deps_of g n → <[n := GRAY]> (color st) !! d ≠ Some GRAY)
    ∧ (∀ k, <[n := GRAY]> (color st) !! k ≠ Some WHITE →
            parent st' !! k = parent st !! k)
    ∧ (∀ k p, parent st' !! k = Some (Some p) →
              parent st !! k = Some (Some p) ∨ p = n).
Proof.
  intros Hg Hinv Hfuel.
  pose proof Hinv as [Hdom Hstk Hblack Hpend Hstale Hgray Hopen Hpnw Hchain].
  assert (n ∈ _nodes g) as Hn by (eapply Hstk; left).
  assert (∀ x, nonwhite st x → x ∈ _nodes g) as Hnwn.
  { intros x Hx. rewrite <- Hdom. apply elem_of_dom.
    destruct Hx as [Hx|Hx]; rewrite Hx; done. }
  assert (color st !! n = Some WHITE ∨ color st !! n = Some BLACK) as Hcn.
  { assert (is_Some (color st !! n)) as [c Hc] by (apply elem_of_dom; by rewrite Hdom).
    destruct c; auto. exfalso.
    apply (Hstale [] n rest) in Hc; [|done]. by apply elem_of_nil in Hc. }
  destruct (visit_deps_spec wfuel n (set_color n GRAY st) ((n, true) :: rest)
              (sorted (elements (deps_of g n))))
    as (st' & cs & Hrun & Hcolor & Hcyc & Hne & Hcs & Hp1 & Hp2).
  { intros d Hd%elem_of_sorted%elem_of_elements. simpl.
    apply elem_of_dom. rewrite dom_insert_L, Hdom.
    apply (deps_target_node g n d Hg) in Hd. set_solver. }
  { simpl. by rewrite lookup_insert_eq. }
  { simpl.
    assert (∀ x, nonwhite st x → <[n:=GRAY]> (color st) !! x ≠ Some WHITE) as Hnw'.
    { intros x Hx. apply (nonwhite_not_white (set_color n GRAY st)).
      by apply (nonwhite_insert st _ n GRAY). }
    destruct (parent_get (parent st) n) as [p|] eqn:Hp.
    - assert (parent st !! n = Some (Some p)) as Hp'.
      { unfold parent_get in Hp. by destruct (parent st !! n) as [[?|]|]; simplify_eq/=. }
      destruct (Hchain p) as (l & Hl & Hnd & Hnw); [by eapply Hpnw|].
      exists l. split_and!; [done| |by auto].
      etrans; [|apply Hfuel]. apply NoDup_subset_length; auto.
    - exists []. simpl. split_and!; [done|lia|]. by intros x ?%elem_of_nil. }
  exists st', cs. simpl in *. split_and!; try done.
  - unfold dfs_step. destruct Hcn as [-> | ->]; exact Hrun.
  - rewrite Hcs. split; intros H d Hd; apply H.
    + by apply elem_of_sorted, elem_of_elements.
    + by apply elem_of_sorted, elem_of_elements in Hd.
Qed.

Lemma parent_get_agree (p p' : gmap string (option string)) x :
  p' !! x = p !! x → parent_get p' x = parent_get p x.
Proof. unfold parent_get. by intros ->. Qed.

Lemma dfs_inv_process g st st' n rest :
  reachable g →
  dfs_inv g st ((n, false) :: rest) →
  color st !! n = Some WHITE ∨ color st !! n = Some BLACK →
  color st' = <[n := GRAY]> (color st) →
  (∀ k, <[n := GRAY]> (color st) !! k ≠ Some WHITE → parent st' !! k = parent st !! k) →
  (∀ k p, parent st' !! k = Some (Some p) → parent st !! k = Some (Some p) ∨ p = n) →
  dfs_inv g st'
    (pushed (<[n := GRAY]> (color st)) (sorted (elements (deps_of g n)))
     ++ (n, true) :: rest).
Proof.
  intros Hg [Hdom Hstk Hblack Hpend Hstale Hgray Hopen Hpnw Hchain] Hcn Hcol Hp1 Hp2.
  set (ds := sorted (elements (deps_of g n))).
  assert (n ∈ _nodes g) as Hn by (eapply Hstk; left).
  assert (∀ x, nonwhite st x → nonwhite st' x) as Hmono
    by (intros x; by apply (nonwhite_insert st _ n GRAY)).
  assert (nonwhite st' n) as Hnn by (left; by rewrite Hcol, lookup_insert_eq).
  assert (∀ x, color st' !! x = Some WHITE ↔ x ≠ n ∧ color st !! x = Some WHITE)
    as Hwhite.
  { intros x. rewrite Hcol. destruct (decide (n = x)) as [->|Hne].
    - rewrite lookup_insert_eq. naive_solver.
    - rewrite lookup_insert_ne by done. naive_solver. }
  assert (∀ x, color st' !! x = Some GRAY → x = n ∨ color st !! x = Some GRAY) as Hgr.
  { intros x. rewrite Hcol. destruct (decide (n = x)) as [->|Hne]; [auto|].
    rewrite lookup_insert_ne by done. auto. }
  assert (∀ d b, (d, b) ∈ pushed (<[n:=GRAY]> (color st)) ds ↔
                 b = false ∧ d ∈ deps_of g n ∧ color st' !! d = Some WHITE) as Hpush.
  { intros d b. rewrite elem_of_pushed, <- Hcol. unfold ds.
    by rewrite elem_of_sorted, elem_of_elements. }
  assert (∀ x, nonwhite st x → parent_get (parent st') x = parent_get (parent st) x)
    as Hpg.
  { intros x Hx. apply parent_get_agree, Hp1. rewrite <- Hcol.
    by apply nonwhite_not_white, Hmono. }
  split.
  - rewrite Hcol, dom_insert_L, Hdom. set_solver.
  - intros m b [Hm|[?|Hm]%elem_of_cons]%elem_of_app.
    + apply Hpush in Hm as (_ & Hm & _). by eapply deps_target_node.
    + by simplify_eq.
    + eapply Hstk. by right.
  - intros m d Hm Hd [Hdn Hdw]%Hwhite.
    rewrite Hcol in Hm. destruct (decide (n = m)) as [->|Hne].
    + by rewrite lookup_insert_eq in Hm.
    + rewrite lookup_insert_ne in Hm by done. by eapply Hblack.
  - intros above m below d Heq Hd Hdw.
    apply split_app_cons in Heq as [(k & Hk & _)|[(-> & [= ->] & ->)|(k & -> & ->)]].
    + assert ((m, true) ∈ pushed (<[n:=GRAY]> (color st)) ds) as Hin
        by (rewrite Hk; set_solver).
      by apply Hpush in Hin as [? _].
    + by apply Hpush.
    + apply Hwhite in Hdw as [Hdn Hdw].
      apply (Hpend ((n, false) :: k) m below d) in Hdw; [|done..].
      apply elem_of_cons in Hdw as [?|?]; [simplify_eq|set_solver].
  - intros above m below Heq Hmg.
    apply split_app_cons in Heq as [(k & Hk & _)|[(_ & [=] & _)|(k & -> & ->)]].
    + assert ((m, false) ∈ pushed (<[n:=GRAY]> (color st)) ds) as Hin
        by (rewrite Hk; set_solver).
      apply Hpush in Hin as (_ & _ & Hw). congruence.
    + destruct (Hgr m Hmg) as [->|Hmg']; [set_solver|].
      apply (Hstale ((n, false) :: k) m below) in Hmg'; [|done].
      apply elem_of_cons in Hmg' as [?|?]; [simplify_eq|set_solver].
  - intros m [->|Hmg]%Hgr; [set_solver|].
    apply Hgray in Hmg. apply elem_of_cons in Hmg as [?|?]; [simplify_eq|set_solver].
  - intros m [Hm|[?|Hm]%elem_of_cons]%elem_of_app.
    + by apply Hpush in Hm as [? _].
    + by simplify_eq.
    + apply Hmono, Hopen. by right.
  - intros m p [Hp| ->]%Hp2; [|done]. by apply Hmono, (Hpnw m).
  - intros m Hm.
    assert (∀ x, nonwhite st x →
              ∃ l, parent_chain (parent st') (Some x) l ∧ NoDup l
                   ∧ ∀ y, y ∈ l → nonwhite st y) as Hold.
    { intros x Hx. destruct (Hchain x Hx) as (l & Hl & Hnd & Hnw).
      exists l. split_and!; [|done..].
      eapply parent_chain_agree; [|done]. intros y Hy. by apply Hpg, Hnw. }
    destruct (decide (nonwhite st m)) as [Hm'|Hwm].
    { destruct (Hold m Hm') as (l & Hl & Hnd & Hnw). exists l. auto. }
    assert (m = n) as ->.
    { destruct (decide (m = n)); [done|]. exfalso. apply Hwm.
      unfold nonwhite in *. by rewrite Hcol, lookup_insert_ne in Hm. }
    assert (parent_get (parent st') n = parent_get (parent st) n) as Hpn
      by (apply parent_get_agree, Hp1; by rewrite lookup_insert_eq).
    destruct (parent_get (parent st) n) as [p|] eqn:Hp.
    + assert (parent st !! n = Some (Some p)) as Hp'.
      { unfold parent_get in Hp. by destruct (parent st !! n) as [[?|]|]; simplify_eq/=. }
      destruct (Hold p) as (l & Hl & Hnd & Hnw); [by eapply Hpnw|].
      exists (n :: l). split_and!.
      * simpl. split; [done|]. by rewrite Hpn.
      * apply NoDup_cons. split; [|done]. intros Hnl. by apply Hwm, Hnw.
      * intros y [->|Hy]%elem_of_cons; auto.
    + exists [n]. split_and!.
      * simpl. split; [done|]. by rewrite Hpn.
      * apply NoDup_singleton.
      * by intros y ->%list_elem_of_singleton.
Qed.

(** *** Termination measure *)

Lemma dfs_potential_finish g st n rest :
  dfs_potential g (set_color n BLACK st) rest < dfs_potential g st ((n, true) :: rest).
Proof.
  unfold dfs_potential. rewrite whites_set_color by done. simpl.
  assert (size (whites st ∖ {[n]}) ≤ size (whites st)) as Hle
    by (apply subseteq_size; set_solver).
  apply Nat.lt_le_trans with
    (size (whites st ∖ {[n]}) * (2 * size (_nodes g) + 2)
     + S (sum_list_with entry_weight rest)); [lia|].
  apply Nat.add_le_mono_r, Nat.mul_le_mono_r, Hle.
Qed.

Lemma dfs_potential_process g st st' n rest :
  reachable g →
  dfs_inv g st ((n, false) :: rest) →
  color st !! n = Some WHITE ∨ color st !! n = Some BLACK →
  color st' = <[n := GRAY]> (color st) →
  dfs_potential g st'
    (pushed (<[n := GRAY]> (color st)) (sorted (elements (deps_of g n)))
     ++ (n, true) :: rest)
  < dfs_potential g st ((n, false) :: rest).
Proof.
  intros Hg Hinv Hcn Hcol. unfold dfs_potential.
  rewrite (whites_insert st st' n GRAY) by done.
  rewrite sum_list_with_app, pushed_weight. simpl.
  set (P := pushed _ _). set (S := sum_list_with entry_weight rest).
  destruct Hcn as [Hw|Hb].
  - assert (length P ≤ size (_nodes g)) as HP.
    { etrans; [apply pushed_length|]. rewrite sorted_length.
      apply NoDup_subset_length; [apply NoDup_elements|].
      intros d Hd%elem_of_elements. by eapply deps_target_node. }
    assert (size (whites st) = Datatypes.S (size (whites st ∖ {[n]}))) as ->.
    { rewrite size_difference by (apply singleton_subseteq_l; by apply elem_of_whites).
      rewrite size_singleton.
      assert (0 < size (whites st)); [|lia].
      destruct (decide (size (whites st) = 0)) as [Hz%size_zero_empty|]; [|lia].
      apply (elem_of_whites st n) in Hw. set_solver. }
    rewrite Nat.mul_succ_l. lia.
  - assert (whites st ∖ {[n]} = whites st) as ->.
    { assert (n ∉ whites st); [|set_solver]. rewrite elem_of_whites. congruence. }
    assert (P = []) as ->; [|simpl; lia].
    unfold P. destruct (pushed _ _) as [|[d b] l] eqn:E; [done|]. exfalso.
    assert ((d, b) ∈ pushed (<[n:=GRAY]> (color st)) (sorted (elements (deps_of g n))))
      as (_ & Hd%elem_of_sorted%elem_of_elements & Hdw)%elem_of_pushed
      by (rewrite E; left).
    destruct (decide (n = d)) as [->|Hne]; [by rewrite lookup_insert_eq in Hdw|].
    rewrite lookup_insert_ne in Hdw by done.
    by apply (dfs_black _ _ _ Hinv n d).
Qed.

(** *** Completed nodes *)

Lemma dfs_fin_finish g st n rest fin :
  dfs_inv g st ((n, true) :: rest) →
  dfs_fin_inv g st ((n, true) :: rest) fin →
  ∃ fin', dfs_fin_inv g (set_color n BLACK st) rest fin'.
Proof.
  intros Hinv [Hfnw Hfb Hford Hfopen].
  assert (∀ x, nonwhite st x → nonwhite (set_color n BLACK st) x) as Hmono
    by (intros x; by apply (nonwhite_insert st _ n BLACK)).
  assert (nonwhite st n) as Hn by (apply (dfs_open _ _ _ Hinv); left).
  assert (nonwhite (set_color n BLACK st) n) as Hn'
    by (right; simpl; by rewrite lookup_insert_eq).
  assert (∀ x, x ≠ n → color (set_color n BLACK st) !! x = color st !! x) as Hne
    by (intros x Hx; simpl; by rewrite lookup_insert_ne).
  assert (∀ d, color st !! d = Some WHITE → d ≠ n) as Hwn.
  { intros d Hd ->. by apply nonwhite_not_white in Hn. }
  assert (∀ fin' : list string, (∀ x, x ∈ fin → x ∈ fin') → n ∈ fin' →
            ∀ above m below d,
              rest = above ++ (m, true) :: below → m ∉ fin' → d ∈ deps_of g m →
              d ∈ fin'
              ∨ (color (set_color n BLACK st) !! d = Some WHITE ∧ (d, false) ∈ above)
              ∨ (color (set_color n BLACK st) !! d = Some GRAY ∧ (d, true) ∈ above))
    as Hopen'.
  { intros fin' Hsub Hnin above m below d -> Hm Hd.
    destruct (Hfopen ((n, true) :: above) m below d) as [?|[[Hc Hin]|[Hc Hin]]];
      [done|by auto|done|by auto|..].
    - right. left. rewrite Hne by by apply Hwn. split; [done|].
      apply elem_of_cons in Hin as [?|?]; [simplify_eq|done].
    - destruct (decide (d = n)) as [->|Hdn]; [by left|].
      right. right. rewrite Hne by done. split; [done|].
      apply elem_of_cons in Hin as [?|?]; [simplify_eq|done]. }
  destruct (decide (n ∈ fin)) as [Hin|Hnin].
  - exists fin. split; [by auto| |done|by apply Hopen'].
    intros m Hm. simpl in Hm. destruct (decide (n = m)) as [->|?]; [done|].
    rewrite lookup_insert_ne in Hm by done. by apply Hfb.
  - exists (n :: fin). split.
    + intros m [->|Hm]%elem_of_cons; auto.
    + intros m Hm. simpl in Hm. destruct (decide (n = m)) as [->|?]; [left|].
      rewrite lookup_insert_ne in Hm by done. right. by apply Hfb.
    + simpl. split_and!; [done| |done]. intros d Hd.
      destruct (Hfopen [] n rest d) as [?|[[_ Hx]|[_ Hx]]]; try done.
      * by apply elem_of_list_to_set.
      * by apply elem_of_nil in Hx.
      * by apply elem_of_nil in Hx.
    + apply Hopen'; [intros; by right|left].
Qed.

Lemma dfs_fin_process g st st' n rest fin :
  reachable g →
  dfs_inv g st ((n, false) :: rest) →
  color st !! n = Some WHITE ∨ color st !! n = Some BLACK →
  color st' = <[n := GRAY]> (color st) →
  (∀ d, d ∈ deps_of g n → <[n := GRAY]> (color st) !! d ≠ Some GRAY) →
  dfs_fin_inv g st ((n, false) :: rest) fin →
  dfs_fin_inv g st'
    (pushed (<[n := GRAY]> (color st)) (sorted (elements (deps_of g n)))
     ++ (n, true) :: rest) fin.
Proof.
  intros Hg Hinv Hcn Hcol Hnogray [Hfnw Hfb Hford Hfopen].
  set (ds := sorted (elements (deps_of g n))).
  assert (∀ x, nonwhite st x → nonwhite st' x) as Hmono
    by (intros x; by apply (nonwhite_insert st _ n GRAY)).
  assert (color st' !! n = Some GRAY) as Hng by (by rewrite Hcol, lookup_insert_eq).
  assert (∀ x, x ≠ n → color st' !! x = color st !! x) as Hne
    by (intros x Hx; by rewrite Hcol, lookup_insert_ne).
  assert (∀ d b, (d, b) ∈ pushed (<[n:=GRAY]> (color st)) ds ↔
                 b = false ∧ d ∈ deps_of g n ∧ color st' !! d = Some WHITE) as Hpush.
  { intros d b. rewrite elem_of_pushed, <- Hcol. unfold ds.
    by rewrite elem_of_sorted, elem_of_elements. }
  split; [by auto| |done|].
  - intros m Hm. destruct (decide (m = n)) as [->|Hmn]; [congruence|].
    rewrite Hne in Hm by done. by apply Hfb.
  - intros above m below d Heq Hm Hd.
    apply split_app_cons in Heq as [(k & Hk & _)|[(-> & [= ->] & ->)|(k & -> & ->)]].
    + assert ((m, true) ∈ pushed (<[n:=GRAY]> (color st)) ds) as Hin
        by (rewrite Hk; set_solver).
      by apply Hpush in Hin as [? _].
    + assert (is_Some (color st' !! d)) as [c Hc].
      { apply elem_of_dom. rewrite Hcol, dom_insert_L, (dfs_dom _ _ _ Hinv).
        apply (deps_target_node g n d Hg) in Hd. set_solver. }
      destruct c.
      * right. left. split; [done|]. by apply Hpush.
      * exfalso. apply (Hnogray d Hd). by rewrite <- Hcol.
      * left. apply Hfb. destruct (decide (d = n)) as [->|?]; [congruence|].
        by rewrite <- Hne.
    + destruct (Hfopen ((n, false) :: k) m below d) as [?|[[Hc Hin]|[Hc Hin]]];
        [done|done|done|by left|..].
      * destruct (decide (d = n)) as [->|Hdn].
        -- right. right. split; [done|set_solver].
        -- right. left. rewrite Hne by done. split; [done|].
           apply elem_of_cons in Hin as [?|?]; [simplify_eq|set_solver].
      * right. right.
        assert (d ≠ n) by (intros ->; destruct Hcn; congruence).
        rewrite Hne by done. split; [done|].
        apply elem_of_cons in Hin as [?|?]; [simplify_eq|set_solver].
Qed.

(** *** One iteration, and the whole loop *)

Lemma dfs_step_inv g wfuel st n b rest :
  reachable g →
  dfs_inv g st ((n, b) :: rest) →
  size (_nodes g) ≤ wfuel →
  ∃ st' stack' cs,
    dfs_step g wfuel st n b rest = Ok (st', stack')
    ∧ dfs_inv g st' stack'
    ∧ dfs_potential g st' stack' < dfs_potential g st ((n, b) :: rest)
    ∧ cycles st' = cycles st ++ cs
    ∧ Forall (λ c, c ≠ []) cs
    ∧ (∀ x, nonwhite st x → nonwhite st' x)
    ∧ nonwhite st' n
    ∧ (∀ e, e ∈ rest → e ∈ stack')
    ∧ (cs = [] → ∀ fin, dfs_fin_inv g st ((n, b) :: rest) fin →
                 ∃ fin', dfs_fin_inv g st' stack' fin').
Proof.
  intros Hg Hinv Hfuel. destruct b.
  - exists (set_color n BLACK st), rest, []. split_and!.
    + done.
    + by apply dfs_inv_finish.
    + apply dfs_potential_finish.
    + by rewrite app_nil_r.
    + done.
    + intros x. by apply (nonwhite_insert st _ n BLACK).
    + right. simpl. by rewrite lookup_insert_eq.
    + done.
    + intros _ fin. by apply dfs_fin_finish.
  - destruct (dfs_step_process g wfuel st n rest Hg Hinv Hfuel)
      as (st' & cs & Hstep & Hcn & Hcol & Hcyc & Hne & Hcs & Hp1 & Hp2).
    eexists st', _, cs. split_and!.
    + exact Hstep.
    + by apply dfs_inv_process.
    + by apply dfs_potential_process.
    + done.
    + done.
    + intros x. by apply (nonwhite_insert st _ n GRAY).
    + left. by rewrite Hcol, lookup_insert_eq.
    + intros e He. set_solver.
    + intros Hnil fin Hfin. exists fin. apply dfs_fin_process; try done.
      by apply Hcs.
Qed.

Lemma dfs_loop_spec g wfuel fuel st stack :
  reachable g →
  dfs_inv g st stack →
  size (_nodes g) ≤ wfuel →
  dfs_potential g st stack ≤ fuel →
  ∃ st' cs,
    dfs_loop g wfuel fuel st stack = Ok st'
    ∧ dfs_inv g st' []
    ∧ cycles st' = cycles st ++ cs
    ∧ Forall (λ c, c ≠ []) cs
    ∧ (∀ x, nonwhite st x → nonwhite st' x)
    ∧ (∀ n b, (n, b) ∈ stack → nonwhite st' n)
    ∧ (cs = [] → ∀ fin, dfs_fin_inv g st stack fin → ∃ fin', dfs_fin_inv g st' [] fin').
Proof.
  intros Hg. revert st stack.
  induction fuel as [|fuel IH]; intros st stack Hinv Hwfuel Hfuel.
  - destruct stack as [|[n b] rest].
    + exists st, []. simpl. rewrite app_nil_r. split_and!; try done.
      * by intros n b ?%elem_of_nil.
      * intros _ fin ?. by exists fin.
    + exfalso. unfold dfs_potential in Hfuel. simpl in Hfuel.
      unfold entry_weight in Hfuel. destruct b; simpl in Hfuel; lia.
  - destruct stack as [|[n b] rest].
    + exists st, []. simpl. rewrite app_nil_r. split_and!; try done.
      * by intros n b ?%elem_of_nil.
      * intros _ fin ?. by exists fin.
    + destruct (dfs_step_inv g wfuel st n b rest Hg Hinv Hwfuel)
        as (st1 & stack1 & cs1 & Hstep & Hinv1 & Hpot & Hcyc1 & Hne1 & Hmono1
            & Hn1 & Hrest1 & Hfin1).
      destruct (IH st1 stack1 Hinv1 Hwfuel) as
        (st2 & cs2 & Hrun & Hinv2 & Hcyc2 & Hne2 & Hmono2 & Hstk2 & Hfin2); [lia|].
      exists st2, (cs1 ++ cs2). split_and!.
      * rewrite dfs_loop_unfold, Hstep. simpl. exact Hrun.
      * done.
      * by rewrite Hcyc2, Hcyc1, app_assoc.
      * by apply Forall_app.
      * auto.
      * intros m c [[= -> ->]|Hm]%elem_of_cons; [auto|].
        eapply Hstk2. by apply Hrest1.
      * intros [-> ->]%app_eq_nil fin Hfin.
        destruct (Hfin1 eq_refl fin Hfin) as [fin1 Hfin1'].
        by apply (Hfin2 eq_refl fin1).
Qed.

(** *** The loop over the start nodes *)

Lemma dfs_init_outer_inv g : dfs_outer_inv g (dfs_init g).
Proof.
  assert (∀ n c, color (dfs_init g) !! n = Some c → c = WHITE) as Hwhite.
  { intros n c [_ <-]%lookup_gset_to_gmap_Some. done. }
  assert (∀ n, ¬ nonwhite (dfs_init g) n) as Hnw.
  { intros n [H|H]; by apply Hwhite in H. }
  split; [split| |]; simpl.
  - apply dom_gset_to_gmap.
  - by intros n b ?%elem_of_nil.
  - intros n d Hn. by apply Hwhite in Hn.
  - intros above n below d Heq. by destruct above.
  - intros above n below Heq. by destruct above.
  - intros n Hn. by apply Hwhite in Hn.
  - by intros n ?%elem_of_nil.
  - intros n p [_ ?]%lookup_gset_to_gmap_Some. done.
  - intros n Hn. by apply Hnw in Hn.
  - done.
  - intros _. exists []. split; simpl.
    + by intros n ?%elem_of_nil.
    + intros n Hn. by apply Hwhite in Hn.
    + done.
    + intros above n below d Heq. by destruct above.
Qed.

Lemma dfs_inv_start g st start :
  dfs_inv g st [] → color st !! start = Some WHITE → dfs_inv g st [(start, false)].
Proof.
  intros [Hdom Hstk Hblack Hpend Hstale Hgray Hopen Hpnw Hchain] Hs.
  split; try done.
  - intros n b [= -> ->]%list_elem_of_singleton.
    rewrite <- Hdom. apply elem_of_dom. by eexists.
  - intros above n below d Heq. destruct above as [|? [|]]; simplify_eq/=.
  - intros above n below Heq Hn. destruct above as [|? [|]]; simplify_eq/=.
  - intros n Hn%Hgray. by apply elem_of_nil in Hn.
  - intros n Hn%list_elem_of_singleton. simplify_eq.
Qed.

Lemma dfs_fin_start g st start fin :
  dfs_fin_inv g st [] fin → dfs_fin_inv g st [(start, false)] fin.
Proof.
  intros [Hfnw Hfb Hford Hfopen]. split; try done.
  intros above n below d Heq. destruct above as [|? [|]]; simplify_eq/=.
Qed.

Lemma dfs_bound_nodes g : size (_nodes g) ≤ dfs_bound g.
Proof. unfold dfs_bound. nia. Qed.

Lemma dfs_from_spec g fuel st start :
  reachable g →
  dfs_outer_inv g st →
  start ∈ _nodes g →
  dfs_bound g ≤ fuel →
  ∃ st',
    dfs_from g fuel (Ok st) start = Ok st'
    ∧ dfs_outer_inv g st'
    ∧ (∀ x, nonwhite st x → nonwhite st' x)
    ∧ nonwhite st' start.
Proof.
  intros Hg [Hinv Hpaths Hfin] Hstart Hfuel.
  assert (is_Some (color st !! start)) as [c Hc]
    by (apply elem_of_dom; by rewrite (dfs_dom _ _ _ Hinv)).
  unfold dfs_from. simpl. rewrite Hc.
  destruct c; [|exists st; split_and!; [done..|by left]
                |exists st; split_and!; [done..|by right]].
  destruct (dfs_loop_spec g fuel fuel st [(start, false)] Hg)
    as (st' & cs & Hrun & Hinv' & Hcyc & Hne & Hmono & Hstk & Hfin').
  { by apply dfs_inv_start. }
  { pose proof (dfs_bound_nodes g). lia. }
  { unfold dfs_potential. simpl.
    assert (size (whites st) ≤ size (_nodes g)) as Hw
      by (apply subseteq_size, whites_subseteq, (dfs_dom _ _ _ Hinv)).
    etrans; [|apply Hfuel]. unfold dfs_bound.
    assert (size (whites st) * (2 * size (_nodes g) + 2)
            ≤ size (_nodes g) * (2 * size (_nodes g) + 2))
      by (by apply Nat.mul_le_mono_r).
    lia. }
  exists st'. split_and!; [done| |done|].
  - split; [done| |].
    + rewrite Hcyc. by apply Forall_app.
    + rewrite Hcyc. intros [Hnil ->]%app_eq_nil.
      destruct (Hfin Hnil) as [fin Hf].
      apply (Hfin' eq_refl fin), dfs_fin_start, Hf.
  - apply (Hstk start false). left.
Qed.

Lemma dfs_outer_spec g fuel st starts :
  reachable g →
  dfs_outer_inv g st →
  (∀ s, s ∈ starts → s ∈ _nodes g) →
  dfs_bound g ≤ fuel →
  ∃ st',
    foldl (dfs_from g fuel) (Ok st) starts = Ok st'
    ∧ dfs_outer_inv g st'
    ∧ (∀ x, nonwhite st x → nonwhite st' x)
    ∧ (∀ s, s ∈ starts → nonwhite st' s).
Proof.
  intros Hg. revert st. induction starts as [|s starts IH]; intros st Hinv Hsub Hfuel.
  - exists st. split_and!; try done. by intros s ?%elem_of_nil.
  - destruct (dfs_from_spec g fuel st s Hg Hinv) as (st1 & Hrun1 & Hinv1 & Hmono1 & Hs1);
      [apply Hsub; left|done|].
    destruct (IH st1 Hinv1) as (st2 & Hrun2 & Hinv2 & Hmono2 & Hs2);
      [intros; apply Hsub; by right|done|].
    exists st2. cbn [foldl]. rewrite Hrun1. split_and!; try done; [by auto|].
    intros x [->|Hx]%elem_of_cons; auto.
Qed.

(** *** No cycle among completed nodes *)

Lemma fin_closed_deps g fin n d :
  fin_closed g fin → n ∈ fin → d ∈ deps_of g n → d ∈ fin.
Proof.
  induction fin as [|x fin IH]; simpl; [by intros _ ?%elem_of_nil|].
  intros (Hx & Hsub & Hcl) [->|Hn]%elem_of_cons Hd; right.
  - apply Hsub in Hd. by apply elem_of_list_to_set in Hd.
  - by apply IH.
Qed.

Lemma fin_closed_tc g fin n d :
  fin_closed g fin → n ∈ fin → tc (depends_on g) n d → d ∈ fin.
Proof.
  intros Hcl Hn Htc. induction Htc as [n d Hnd|n y d Hny _ IH].
  - by eapply fin_closed_deps.
  - apply IH. by eapply fin_closed_deps.
Qed.

Lemma fin_closed_no_cycle g fin n :
  fin_closed g fin → n ∈ fin → ¬ tc (depends_on g) n n.
Proof.
  induction fin as [|x fin IH]; simpl; [by intros _ ?%elem_of_nil|].
  intros (Hx & Hsub & Hcl) Hn Htc.
  destruct (decide (n ∈ fin)) as [Hin|Hnin]; [by apply IH|].
  apply elem_of_cons in Hn as [->|?]; [|done].
  apply Hx. inversion Htc as [? ? Hxx|? y ? Hxy Hyx]; subst.
  - apply Hsub in Hxx. by apply elem_of_list_to_set in Hxx.
  - apply (fin_closed_tc g fin y x); [done| |done].
    apply Hsub in Hxy. by apply elem_of_list_to_set in Hxy.
Qed.

(** *** [detect_cycles] returns, and finds a path whenever there is a cycle *)

Lemma detect_cycles_fuel_spec g fuel :
  reachable g →
  dfs_bound g ≤ fuel →
  ∃ paths,
    detect_cycles_fuel fuel g = Ok paths
    ∧ Forall (λ c, c ≠ []) paths
    ∧ (has_cycle g → paths ≠ []).
Proof.
  intros Hg Hfuel.
  destruct (dfs_outer_spec g fuel (dfs_init g) (sorted (elements (_nodes g))) Hg)
    as (st & Hrun & [Hinv Hpaths Hfin] & _ & Hall);
    [apply dfs_init_outer_inv|by intros s ?%elem_of_sorted%elem_of_elements|done|].
  exists (cycles st). unfold detect_cycles_fuel. rewrite Hrun. simpl.
  split_and!; [done..|].
  intros [n Hn] Hnil. destruct (Hfin Hnil) as [fin [Hfnw Hfb Hford Hfopen]].
  apply (fin_closed_no_cycle g fin n Hford); [|done].
  apply Hfb.
  assert (nonwhite st n) as [Hgr|Hbl]; [|exfalso|done].
  - apply Hall, elem_of_sorted, elem_of_elements.
    by apply (tc_depends_nodes g Hg) in Hn as [? _].
  - apply (dfs_gray _ _ _ Hinv) in Hgr. by apply elem_of_nil in Hgr.
Qed.

(** *** A larger iteration budget does not change the result *)

Lemma visit_fold_not_ok wfuel node (acc : res (dfs_state * dfs_stack)) ds r :
  foldl (visit_dep wfuel node) acc ds = Ok r → ∃ a, acc = Ok a.
Proof.
  revert acc. induction ds as [|d ds IH]; intros acc; simpl; [by eauto|].
  intros [a Ha]%IH. destruct acc; [by eauto|done..].
Qed.

Lemma visit_fold_fuel_mono wfuel wfuel' node acc ds r :
  foldl (visit_dep wfuel node) acc ds = Ok r → wfuel ≤ wfuel' →
  foldl (visit_dep wfuel' node) acc ds = Ok r.
Proof.
  intros Hrun Hle. revert acc Hrun.
  induction ds as [|d ds IH]; intros acc Hrun; simpl in *; [done|].
  destruct (visit_fold_not_ok _ _ _ _ _ Hrun) as [a Ha].
  assert (visit_dep wfuel' node acc d = visit_dep wfuel node acc d) as ->;
    [|by apply IH].
  destruct acc as [[st stack]| |]; try done. simpl in *.
  destruct (color st !! d) as [[]|]; try done.
  destruct (walk_parents wfuel _ _ _ _) eqn:Hw; try done.
  by rewrite (walk_parents_fuel_mono _ _ _ _ _ _ _ Hw Hle).
Qed.

Lemma dfs_step_fuel_mono g wfuel wfuel' st n b rest r :
  dfs_step g wfuel st n b rest = Ok r → wfuel ≤ wfuel' →
  dfs_step g wfuel' st n b rest = Ok r.
Proof.
  unfold dfs_step. destruct b; [done|].
  destruct (color st !! n) as [[]|]; try done; apply visit_fold_fuel_mono.
Qed.

Lemma dfs_loop_fuel_mono g wfuel wfuel' fuel fuel' st stack r :
  dfs_loop g wfuel fuel st stack = Ok r → wfuel ≤ wfuel' → fuel ≤ fuel' →
  dfs_loop g wfuel' fuel' st stack = Ok r.
Proof.
  intros Hrun Hwle. revert fuel' st stack Hrun.
  induction fuel as [|fuel IH]; intros fuel' st stack Hrun Hle.
  - destruct stack as [|[n b] rest]; [|done]. by destruct fuel'.
  - destruct stack as [|[n b] rest]; [by destruct fuel'|].
    destruct fuel' as [|fuel']; [lia|].
    rewrite dfs_loop_unfold in *.
    destruct (dfs_step g wfuel st n b rest) as [[st1 stack1]| |] eqn:Hstep; try done.
    rewrite (dfs_step_fuel_mono _ _ _ _ _ _ _ _ Hstep Hwle). simpl in *.
    apply IH; [done|lia].
Qed.

Lemma dfs_outer_fuel_mono g fuel fuel' acc starts r :
  foldl (dfs_from g fuel) acc starts = Ok r → fuel ≤ fuel' →
  foldl (dfs_from g fuel') acc starts = Ok r.
Proof.
  intros Hrun Hle. revert acc Hrun.
  induction starts as [|s starts IH]; intros acc Hrun; simpl in *; [done|].
  assert (∃ a, dfs_from g fuel acc s = Ok a) as [a Ha].
  { clear IH. revert Hrun. generalize (dfs_from g fuel acc s).
    induction starts as [|s' starts IH]; intros x; simpl; [by eauto|].
    intros [a Ha]%IH. destruct x; [by eauto|done..]. }
  assert (dfs_from g fuel' acc s = Ok a) as ->; [|rewrite Ha in Hrun; by apply IH].
  destruct acc as [st| |]; try done. unfold dfs_from in *. simpl in *.
  destruct (color st !! s) as [[]|]; try done.
  by eapply dfs_loop_fuel_mono.
Qed.

Lemma detect_cycles_fuel_mono g fuel fuel' paths :
  detect_cycles_fuel fuel g = Ok paths → fuel ≤ fuel' →
  detect_cycles_fuel fuel' g = Ok paths.
Proof.
  unfold detect_cycles_fuel. intros Hrun Hle.
  destruct (foldl (dfs_from g fuel) _ _) as [st| |] eqn:Hfold; try done.
  by rewrite (dfs_outer_fuel_mono _ _ _ _ _ _ Hfold Hle).
Qed.

(** On a graph built through the public interface [detect_cycles] returns,
    every path it reports is non-empty, and it reports at least one path
    when the graph has a cycle; any iteration budget from [dfs_bound g] on
    gives the same result. *)
Lemma detect_cycles_spec g :
  reachable g →
  ∃ paths,
    detect_cycles g = Ok paths
    ∧ (∀ fuel, dfs_bound g ≤ fuel → detect_cycles_fuel fuel g = Ok paths)
    ∧ Forall (λ c, c ≠ []) paths
    ∧ (has_cycle g → paths ≠ []).
Proof.
  intros Hg.
  destruct (detect_cycles_fuel_spec g (dfs_bound g) Hg) as (paths & Hrun & Hne & Hcyc);
    [done|].
  exists paths. split_and!; try done.
  intros fuel Hfuel. by eapply detect_cycles_fuel_mono.
Qed.

(** ** Cycles, topological order and the aggregate analysis *)

(** [topological_sort] raises its cycle error on a graph with a cycle, and
    returns on an acyclic graph. *)
Lemma topological_sort_has_cycle g :
  reachable g → has_cycle g → topological_sort g = Raise (ValueError cycle_message).
Proof.
  intros Hg Hc.
  destruct (topological_sort_emitted g Hg) as (emitted & m & _ & Hinv & ->).
  rewrite decide_True; [done|]. by eapply kahn_final_has_cycle.
Qed.

Lemma topological_sort_ok_acyclic g l :
  reachable g → topological_sort g = Ok l → acyclic g.
Proof.
  intros Hg Hok Hc. by rewrite (topological_sort_has_cycle g Hg Hc) in Hok.
Qed.

Lemma kahn_before g m emitted n d :
  reachable g →
  kahn_inv g m [] emitted → n ∈ emitted → d ∈ deps_of g n → before emitted d n.
Proof.
  intros Hg Hinv (i & Hi)%list_elem_of_lookup Hd.
  destruct (kahn_final_before g m emitted Hg Hinv i n d Hi Hd) as (j & Hj & Hdj).
  by exists j, i.
Qed.

(** C4. On a graph with a cycle [topological_sort] fails with its cycle
    error (a [ValueError], raised because the loop has emitted fewer nodes
    than the graph has), and [detect_cycles] returns at least one path, all
    of whose paths are non-empty. *)
Theorem cycle_makes_sort_fail_and_traversal_report (g : MigrationGraph) :
  reachable g →
  has_cycle g →
  topological_sort g = Raise (ValueError cycle_message)
  ∧ (∀ fuel, size (_nodes g) ≤ fuel →
       topological_sort_fuel fuel g = Raise (ValueError cycle_message))
  ∧ (∃ emitted,
       kahn_loop g (size (_nodes g)) (in_degree_init g)
         (sorted (filter (λ n, in_degree_init g !! n = Some 0%Z) (elements (_nodes g))))
         []
       = Ok emitted
       ∧ length emitted < size (_nodes g))
  ∧ ∃ path paths,
      detect_cycles g = Ok (path :: paths)
      ∧ (∀ fuel, dfs_bound g ≤ fuel → detect_cycles_fuel fuel g = Ok (path :: paths))
      ∧ Forall (λ p, p ≠ []) (path :: paths).
Proof.
  intros Hg Hc. split_and!.
  - by apply topological_sort_has_cycle.
  - intros fuel Hfuel. rewrite topological_sort_fuel_enough by done.
    by apply topological_sort_has_cycle.
  - destruct (topological_sort_emitted g Hg) as (emitted & m & Hrun & Hinv & _).
    exists emitted. split; [done|]. by eapply kahn_final_has_cycle.
  - destruct (detect_cycles_spec g Hg) as (paths & Hrun & Hfuel & Hne & Hcyc).
    destruct paths as [|path paths]; [by destruct (Hcyc Hc)|].
    by exists path, paths.
Qed.

Lemma cycle_graph_has_cycle : has_cycle cycle_graph.
Proof.
  assert (∀ n d, bool_decide (d ∈ deps_of cycle_graph n) = true →
                 depends_on cycle_graph n d) as Hedge
    by (intros n d; apply bool_decide_eq_true_1).
  exists "a". apply (tc_l _ "a" "b" "a"); [by apply Hedge|].
  apply (tc_l _ "b" "c" "a"); [by apply Hedge|].
  apply tc_once. by apply Hedge.
Qed.

Lemma cycle_makes_sort_fail_and_traversal_report_witness :
  topological_sort cycle_graph = Raise (ValueError cycle_message)
  ∧ (∀ fuel, size (_nodes cycle_graph) ≤ fuel →
       topological_sort_fuel fuel cycle_graph = Raise (ValueError cycle_message))
  ∧ (∃ emitted,
       kahn_loop cycle_graph (size (_nodes cycle_graph)) (in_degree_init cycle_graph)
         (sorted (filter (λ n, in_degree_init cycle_graph !! n = Some 0%Z)
                         (elements (_nodes cycle_graph))))
         []
       = Ok emitted
       ∧ length emitted < size (_nodes cycle_graph))
  ∧ ∃ path paths,
      detect_cycles cycle_graph = Ok (path :: paths)
      ∧ (∀ fuel, dfs_bound cycle_graph ≤ fuel →
           detect_cycles_fuel fuel cycle_graph = Ok (path :: paths))
      ∧ Forall (λ p, p ≠ []) (path :: paths).
Proof.
  apply (cycle_makes_sort_fail_and_traversal_report cycle_graph).
  - repeat constructor.
  - apply cycle_graph_has_cycle.
Defined.

(** The traversal of the three-node cycle reports the path [b, c, a]. *)
Example detect_cycles_cycle_graph : detect_cycles cycle_graph = Ok [["b"; "c"; "a"]].
Proof. by vm_compute. Qed.

(** C3, as amended. On an acyclic graph [topological_sort] returns every
    node once, each after its dependencies, in first-in-first-out order of
    readiness: a node is emitted before every node that became ready later,
    and nodes that became ready at the same time are emitted in
    lexicographic order. *)
Theorem topological_sort_fifo_order (g : MigrationGraph) :
  reachable g →
  acyclic g →
  ∃ l,
    topological_sort g = Ok l
    ∧ (∀ fuel, size (_nodes g) ≤ fuel → topological_sort_fuel fuel g = Ok l)
    ∧ l ≡ₚ elements (_nodes g)
    ∧ (∀ n d, n ∈ l → d ∈ deps_of g n → before l d n)
    ∧ StronglySorted (fifo_rel g l) l.
Proof.
  intros Hg Hac.
  destruct (topological_sort_emitted g Hg) as (emitted & m & _ & Hinv & Hsort).
  pose proof (kahn_final_acyclic g m emitted Hg Hinv Hac) as Hlen.
  exists emitted. split_and!.
  - rewrite Hsort, decide_False by lia. done.
  - intros fuel Hfuel. rewrite topological_sort_fuel_enough by done.
    rewrite Hsort, decide_False by lia. done.
  - by eapply kahn_final_perm.
  - intros n d. by eapply kahn_before.
  - pose proof (kahn_fifo _ _ _ _ Hinv) as Hfifo. by rewrite app_nil_r in Hfifo.
Qed.

Lemma fork_graph_acyclic : acyclic fork_graph.
Proof.
  apply (topological_sort_ok_acyclic fork_graph ["a"; "c"; "b"]).
  - repeat constructor.
  - by vm_compute.
Qed.

Lemma topological_sort_fifo_order_witness :
  ∃ l,
    topological_sort fork_graph = Ok l
    ∧ (∀ fuel, size (_nodes fork_graph) ≤ fuel →
         topological_sort_fuel fuel fork_graph = Ok l)
    ∧ l ≡ₚ elements (_nodes fork_graph)
    ∧ (∀ n d, n ∈ l → d ∈ deps_of fork_graph n → before l d n)
    ∧ StronglySorted (fifo_rel fork_graph l) l.
Proof.
  apply (topological_sort_fifo_order fork_graph).
  - repeat constructor.
  - apply fork_graph_acyclic.
Defined.

(** C3, as stated, fails: on the acyclic graph with the edge [b -> a] and
    the isolated node [c], the code emits [c] before [b], because [b] joins
    the queue behind [c]; emitting the smallest ready node first would give
    [a, b, c]. *)
Lemma topological_sort_is_not_smallest_first :
  reachable fork_graph
  ∧ acyclic fork_graph
  ∧ topological_sort fork_graph = Ok ["a"; "c"; "b"]
  ∧ topological_sort_priority fork_graph = ["a"; "b"; "c"]
  ∧ topological_sort fork_graph ≠ Ok (topological_sort_priority fork_graph).
Proof.
  split_and!.
  - repeat constructor.
  - apply fork_graph_acyclic.
  - by vm_compute.
  - by vm_compute.
  - by vm_compute.
Qed.

(** ** The aggregate analysis *)









(** On the three-node cycle, which has no head at all, [analyze] returns the
    single cycle issue. *)
Example analyze_cycle_graph :
  analyze cycle_graph = Ok [cycle_issue ["b"; "c"; "a"]].
Proof. by vm_compute. Qed.

(** A fork, an orphan and nothing else: the multiple-heads issue comes
    first and the orphan issue last. *)
Example analyze_fork_graph :
  analyze (add_edge fork_graph "d" "a")
  = Ok [multiple_heads_issue ["b"; "c"; "d"]; orphan_issue ["c"]].
Proof. by vm_compute. Qed.

(** ** Linear chains *)

Lemma NoDup_only_elem {A} (l : list A) (a : A) :
  NoDup l → (∀ x, x ∈ l ↔ x = a) → l = [a].
Proof.
  intros Hnd Hl. destruct l as [|x [|y l]].
  - assert (a ∈ []) as ?%elem_of_nil by by apply Hl. done.
  - f_equal. apply Hl. left.
  - assert (x = a) as -> by (apply Hl; left).
    assert (y = a) as -> by (apply Hl; right; left).
    apply NoDup_cons in Hnd as [Hnd _]. exfalso. apply Hnd. left.
Qed.

Lemma before_cons_inv (x : string) (l : list string) (a b : string) :
  a ≠ x → before (x :: l) a b → before l a b.
Proof.
  intros Hax (i & j & Hi & Hj & Hij).
  destruct i as [|i]; [simpl in Hi; congruence|].
  destruct j as [|j]; [lia|]. exists i, j. simpl in *. split_and!; [done..|lia].
Qed.

(** An order of the nodes of a chain in which every node comes after its
    predecessor is the chain itself. *)
Lemma chain_order_unique (l order : list string) :
  NoDup l → NoDup order → order ≡ₚ l →
  (∀ i d n, l !! i = Some d → l !! S i = Some n → before order d n) →
  order = l.
Proof.
  revert order. induction l as [|x l IH]; intros order Hl Ho Hperm Hbefore.
  - by apply Permutation_nil_r.
  - destruct order as [|y order]; [by apply Permutation_nil_cons in Hperm|].
    apply NoDup_cons in Hl as [Hxl Hl]. apply NoDup_cons in Ho as [Hyo Ho].
    assert (y = x) as ->.
    { assert (y ∈ x :: l) as [->|Hy]%elem_of_cons by (rewrite <- Hperm; left); [done|].
      exfalso. apply list_elem_of_lookup in Hy as [i Hi].
      assert (∃ d, (x :: l) !! i = Some d) as [d Hd].
      { apply lookup_lt_is_Some. apply lookup_lt_Some in Hi. simpl. lia. }
      destruct (Hbefore i d y Hd Hi) as (a & b & Ha & Hb & Hab).
      destruct b as [|b]; [lia|]. simpl in Hb.
      apply list_elem_of_lookup_2 in Hb. done. }
    f_equal. apply IH; [done..| |].
    + by apply Permutation_cons_inv in Hperm.
    + intros i d n Hi HSi. apply (before_cons_inv x); [|by apply (Hbefore (S i))].
      intros ->. apply list_elem_of_lookup_2 in Hi. done.
Qed.

Section linear_chain.
Context (g : MigrationGraph) (l : list string) (Hchain : linear_chain g l).

Local Lemma chain_reachable : reachable g.
Proof. by destruct Hchain. Qed.

Local Lemma chain_NoDup : NoDup l.
Proof. by destruct Hchain as (_ & _ & ? & _). Qed.

Local Lemma chain_nodes n : n ∈ _nodes g ↔ n ∈ l.
Proof. destruct Hchain as (_ & _ & _ & -> & _). apply elem_of_list_to_set. Qed.

Local Lemma chain_deps n d :
  d ∈ deps_of g n ↔ ∃ i, l !! i = Some d ∧ l !! S i = Some n.
Proof. destruct Hchain as (_ & _ & _ & _ & H). apply H. Qed.

Local Lemma chain_acyclic : acyclic g.
Proof.
  assert (∀ n d, tc (depends_on g) n d →
            ∀ i, l !! i = Some n → ∃ j, j < i ∧ l !! j = Some d) as Htc.
  { intros n d Hnd. induction Hnd as [n d Hnd|n y d Hny _ IH]; intros i Hi.
    - apply chain_deps in Hnd as (j & Hj & HSj).
      assert (i = S j) as -> by (eapply NoDup_lookup; eauto using chain_NoDup).
      exists j. split; [lia|done].
    - apply chain_deps in Hny as (j & Hj & HSj).
      assert (i = S j) as -> by (eapply NoDup_lookup; eauto using chain_NoDup).
      destruct (IH j Hj) as (k & Hk & Hd). exists k. split; [lia|done]. }
  intros [n Hn].
  assert (n ∈ l) as (i & Hi)%list_elem_of_lookup.
  { apply chain_nodes. by apply (tc_depends_nodes g chain_reachable) in Hn as [? _]. }
  destruct (Htc n n Hn i Hi) as (j & Hj & Hnj).
  assert (i = j); [|lia]. eapply NoDup_lookup; eauto using chain_NoDup.
Qed.

Local Lemma chain_root first n :
  head l = Some first → n ∈ l → deps_of g n = ∅ ↔ n = first.
Proof.
  intros Hfirst (i & Hi)%list_elem_of_lookup. rewrite head_lookup in Hfirst. split.
  - intros Hemp. destruct i as [|i]; [congruence|exfalso].
    assert (∃ d, l !! i = Some d) as [d Hd].
    { apply lookup_lt_is_Some. apply lookup_lt_Some in Hi. lia. }
    assert (d ∈ deps_of g n) as Hin by (apply chain_deps; eauto).
    rewrite Hemp in Hin. set_solver.
  - intros ->. apply set_eq. intros d. split; [|set_solver].
    intros (j & Hj & HSj)%chain_deps. exfalso.
    assert (S j = 0); [|lia]. eapply NoDup_lookup; eauto using chain_NoDup.
Qed.

Local Lemma chain_head final n :
  last l = Some final → n ∈ l → dependents_of g n = ∅ ↔ n = final.
Proof.
  intros Hfinal (i & Hi)%list_elem_of_lookup. rewrite last_lookup in Hfinal. split.
  - intros Hemp. destruct (decide (S i < length l)) as [Hlt|Hge].
    + exfalso. apply lookup_lt_is_Some in Hlt as [m Hm].
      assert (m ∈ dependents_of g n) as Hin.
      { apply reachable_mirror; [apply chain_reachable|]. apply chain_deps. eauto. }
      rewrite Hemp in Hin. set_solver.
    + apply lookup_lt_Some in Hi as Hlt.
      assert (i = pred (length l)) as -> by lia. congruence.
  - intros ->. apply set_eq. intros m. split; [|set_solver].
    intros Hm. apply reachable_mirror in Hm; [|apply chain_reachable].
    apply chain_deps in Hm as (j & Hj & HSj). exfalso.
    assert (j = pred (length l)) as -> by (eapply NoDup_lookup; eauto using chain_NoDup).
    apply lookup_lt_Some in HSj. lia.
Qed.

Local Lemma chain_find_roots first : head l = Some first → find_roots g = [first].
Proof.
  intros Hfirst. unfold find_roots.
  rewrite (NoDup_only_elem
             (filter (λ n, ¬ truthy (dict_get (_forward g) n)) (elements (_nodes g)))
             first); [done|apply NoDup_filter, NoDup_elements|].
  intros x. rewrite list_elem_of_filter, elem_of_elements, chain_nodes, truthy_get.
  change (get_or_empty (_forward g) x) with (deps_of g x).
  split.
  - intros [Hx Hin]. apply (chain_root first x Hfirst Hin).
    destruct (decide (deps_of g x = ∅)); [done|by destruct Hx].
  - intros ->. assert (first ∈ l) as Hin by by apply head_Some_elem_of.
    split; [|done]. intros Hne. apply Hne. by apply (chain_root first first).
Qed.

Local Lemma chain_find_heads final : last l = Some final → find_heads g = [final].
Proof.
  intros Hfinal. unfold find_heads.
  rewrite (NoDup_only_elem
             (filter (λ n, ¬ truthy (dict_get (_reverse g) n)) (elements (_nodes g)))
             final); [done|apply NoDup_filter, NoDup_elements|].
  intros x. rewrite list_elem_of_filter, elem_of_elements, chain_nodes, truthy_get.
  change (get_or_empty (_reverse g) x) with (dependents_of g x).
  split.
  - intros [Hx Hin]. apply (chain_head final x Hfinal Hin).
    destruct (decide (dependents_of g x = ∅)); [done|by destruct Hx].
  - intros ->. assert (final ∈ l) as Hin by by apply last_Some_elem_of.
    split; [|done]. intros Hne. apply Hne. by apply (chain_head final final).
Qed.

Local Lemma chain_topological_sort : topological_sort g = Ok l.
Proof.
  pose proof chain_reachable as Hg.
  destruct (topological_sort_emitted g Hg) as (emitted & m & _ & Hinv & ->).
  pose proof (kahn_final_acyclic g m emitted Hg Hinv chain_acyclic) as Hlen.
  rewrite decide_False by lia. f_equal.
  apply chain_order_unique.
  - apply chain_NoDup.
  - by eapply kahn_final_NoDup.
  - rewrite (kahn_final_perm g m emitted Hinv Hlen).
    destruct Hchain as (_ & _ & Hnd & -> & _). by apply elements_list_to_set.
  - intros i d n Hi HSi. apply (kahn_before g m); [done..| |].
    + eapply elem_of_Permutation_proper; [by eapply kahn_final_perm|].
      apply elem_of_elements, chain_nodes. by eapply list_elem_of_lookup_2.
    + apply chain_deps. eauto.
Qed.

End linear_chain.

(** C7. In a single linear chain of N nodes [find_heads] and [find_roots]
    return exactly one node each (the last and the first node of the chain),
    and [topological_sort] returns all N nodes, each after its dependencies
    (it returns the chain itself). *)
Theorem linear_chain_heads_roots_order (g : MigrationGraph) (l : list string) :
  linear_chain g l →
  (∃ final, last l = Some final ∧ find_heads g = [final])
  ∧ (∃ first, head l = Some first ∧ find_roots g = [first])
  ∧ ∃ order,
      topological_sort g = Ok order
      ∧ (∀ fuel, size (_nodes g) ≤ fuel → topological_sort_fuel fuel g = Ok order)
      ∧ order = l
      ∧ length order = size (_nodes g)
      ∧ (∀ n, n ∈ _nodes g → n ∈ order)
      ∧ (∀ n d, d ∈ deps_of g n → before order d n).
Proof.
  intros Hchain. pose proof Hchain as (Hg & Hne & Hnd & Hnodes & Hdeps).
  split_and!.
  - destruct (last l) as [final|] eqn:Hlast.
    + exists final. split; [done|]. by apply (chain_find_heads g l).
    + by apply last_None in Hlast.
  - destruct (head l) as [first|] eqn:Hhead.
    + exists first. split; [done|]. by apply (chain_find_roots g l).
    + by apply head_None in Hhead.
  - exists l. split_and!.
    + by apply chain_topological_sort.
    + intros fuel Hfuel. rewrite topological_sort_fuel_enough by done.
      by apply chain_topological_sort.
    + done.
    + rewrite Hnodes. symmetry. by apply size_list_to_set.
    + intros n. rewrite Hnodes. by rewrite elem_of_list_to_set.
    + intros n d (i & Hi & HSi)%Hdeps. exists i, (S i). split_and!; [done..|lia].
Qed.

Lemma chain_graph_linear : linear_chain chain_graph ["a"; "b"; "c"].
Proof.
  split_and!.
  - repeat constructor.
  - done.
  - apply (bool_decide_unpack (NoDup ["a"; "b"; "c"])). by vm_compute.
  - apply (bool_decide_unpack (_nodes chain_graph = list_to_set ["a"; "b"; "c"])).
    by vm_compute.
  - intros n d. unfold chain_graph. rewrite !deps_of_add_edge.
    change (deps_of empty_graph) with (λ _ : string, ∅ : gset string). simpl. split.
    + intros Hd. repeat case_decide; simplify_eq; set_unfold.
      * destruct Hd as [[]| ->]. by exists 1.
      * destruct Hd as [[]| ->]. by exists 0.
    + intros (i & Hi & HSi).
      destruct i as [|[|[|i]]]; simplify_eq/=; repeat case_decide; set_solver.
Qed.

Lemma linear_chain_heads_roots_order_witness :
  (∃ final, last ["a"; "b"; "c"] = Some final ∧ find_heads chain_graph = [final])
  ∧ (∃ first, head ["a"; "b"; "c"] = Some first ∧ find_roots chain_graph = [first])
  ∧ ∃ order,
      topological_sort chain_graph = Ok order
      ∧ (∀ fuel, size (_nodes chain_graph) ≤ fuel →
           topological_sort_fuel fuel chain_graph = Ok order)
      ∧ order = ["a"; "b"; "c"]
      ∧ length order = size (_nodes chain_graph)
      ∧ (∀ n, n ∈ _nodes chain_graph → n ∈ order)
      ∧ (∀ n d, d ∈ deps_of chain_graph n → before order d n).
Proof.
  apply (linear_chain_heads_roots_order chain_graph ["a"; "b"; "c"]).
  apply chain_graph_linear.
Defined.

(** * Further properties *)

(** ** Heads, roots and orphans *)

(** [find_heads], [find_roots] and [find_orphans] return, in strictly
    increasing order, exactly the nodes without dependents, without
    dependencies, and without either; the orphans are the nodes that are
    both a head and a root. *)
Theorem heads_roots_orphans_characterised (g : MigrationGraph) :
  (∀ n, n ∈ find_heads g ↔ n ∈ _nodes g ∧ dependents_of g n = ∅)
  ∧ (∀ n, n ∈ find_roots g ↔ n ∈ _nodes g ∧ deps_of g n = ∅)
  ∧ (∀ n, n ∈ find_orphans g ↔ n ∈ find_heads g ∧ n ∈ find_roots g)
  ∧ StronglySorted (λ a b, str_le a b ∧ a ≠ b) (find_heads g)
  ∧ StronglySorted (λ a b, str_le a b ∧ a ≠ b) (find_roots g)
  ∧ StronglySorted (λ a b, str_le a b ∧ a ≠ b) (find_orphans g).
Proof.
  split_and!.
  - apply elem_of_find_heads.
  - apply elem_of_find_roots.
  - intros n. rewrite elem_of_find_orphans, elem_of_find_heads, elem_of_find_roots.
    naive_solver.
  - apply sorted_strict, NoDup_filter, NoDup_elements.
  - apply sorted_strict, NoDup_filter, NoDup_elements.
  - apply sorted_strict, NoDup_filter, NoDup_elements.
Qed.

(** An acyclic, non-empty graph built through the public interface has at
    least one head and at least one root: the first node of its topological
    order is a root and the last one is a head. *)
Theorem acyclic_graph_has_head_and_root (g : MigrationGraph) :
  reachable g → acyclic g → _nodes g ≠ ∅ →
  find_heads g ≠ [] ∧ find_roots g ≠ [].
Proof.
  intros Hg Hac Hne.
  destruct (topological_sort_emitted g Hg) as (emitted & m & _ & Hinv & _).
  pose proof (kahn_final_acyclic g m emitted Hg Hinv Hac) as Hlen.
  pose proof (kahn_final_perm g m emitted Hinv Hlen) as Hperm.
  pose proof (kahn_final_NoDup g m emitted Hinv) as Hnd.
  assert (0 < length emitted) as Hpos.
  { rewrite Hlen. destruct (decide (size (_nodes g) = 0)) as [Hz%size_zero_empty|]; [|lia].
    done. }
  assert (∀ n, n ∈ emitted ↔ n ∈ _nodes g) as Hin
    by (intros n; by rewrite Hperm, elem_of_elements).
  split.
  - destruct (lookup_lt_is_Some_2 emitted (pred (length emitted))) as [h Hh]; [lia|].
    assert (h ∈ find_heads g) as Hhead; [|by intros E; rewrite E in Hhead; set_solver].
    apply elem_of_find_heads. split; [by eapply Hin, list_elem_of_lookup_2|].
    apply set_eq. intros x. split; [|set_solver]. intros Hx. exfalso.
    apply reachable_mirror in Hx; [|done].
    assert (x ∈ emitted) as (i & Hi)%list_elem_of_lookup
      by (by eapply Hin, deps_source_node).
    destruct (kahn_final_before g m emitted Hg Hinv i x h Hi Hx) as (j & Hj & Hhj).
    assert (j = pred (length emitted)) as -> by (eapply NoDup_lookup; eauto).
    apply lookup_lt_Some in Hi. lia.
  - destruct (lookup_lt_is_Some_2 emitted 0) as [r Hr]; [lia|].
    assert (r ∈ find_roots g) as Hroot; [|by intros E; rewrite E in Hroot; set_solver].
    apply elem_of_find_roots. split; [by eapply Hin, list_elem_of_lookup_2|].
    apply set_eq. intros x. split; [|set_solver]. intros Hx. exfalso.
    destruct (kahn_final_before g m emitted Hg Hinv 0 r x Hr Hx) as (j & Hj & _). lia.
Qed.

Lemma acyclic_graph_has_head_and_root_witness :
  find_heads fork_graph ≠ [] ∧ find_roots fork_graph ≠ [].
Proof.
  apply (acyclic_graph_has_head_and_root fork_graph).
  - repeat constructor.
  - apply fork_graph_acyclic.
  - apply (bool_decide_unpack (_nodes fork_graph ≠ ∅)). by vm_compute.
Defined.

(** ** [detect_cycles] reports only real cycles *)

(** An invariant of the loop [while stack] that every iteration keeps holds
    at the end of the loop. *)
Lemma dfs_loop_invariant g wfuel (I : dfs_state → dfs_stack → Prop) :
  reachable g →
  size (_nodes g) ≤ wfuel →
  (∀ st n b rest st' stack',
     dfs_inv g st ((n, b) :: rest) → I st ((n, b) :: rest) →
     dfs_step g wfuel st n b rest = Ok (st', stack') → I st' stack') →
  ∀ fuel st stack st',
    dfs_inv g st stack → I st stack →
    dfs_loop g wfuel fuel st stack = Ok st' → I st' [].
Proof.
  intros Hg Hwfuel Hstep fuel.
  induction fuel as [|fuel IH]; intros st stack st' Hinv HI Hrun.
  - destruct stack as [|[n b] rest]; simpl in Hrun; by simplify_eq.
  - destruct stack as [|[n b] rest]; [simpl in Hrun; by simplify_eq|].
    rewrite dfs_loop_unfold in Hrun.
    destruct (dfs_step_inv g wfuel st n b rest Hg Hinv Hwfuel)
      as (st1 & stack1 & cs1 & Hs & Hinv1 & _).
    rewrite Hs in Hrun. simpl in Hrun.
    apply (IH st1 stack1); [done| |done]. by eapply Hstep.
Qed.

Lemma dfs_step_finish_eq g wfuel st n rest st' stack' :
  dfs_step g wfuel st n true rest = Ok (st', stack') →
  st' = set_color n BLACK st ∧ stack' = rest.
Proof. unfold dfs_step. by intros [= <- <-]. Qed.

Lemma stack_reach_finish g n rest :
  stack_reach g ((n, true) :: rest) → stack_reach g rest.
Proof.
  intros Hr above m below x b -> Hx.
  apply (Hr ((n, true) :: above) m below x b); [done|by right].
Qed.

Lemma stack_reach_process g n rest col ds :
  (∀ d, d ∈ ds → d ∈ deps_of g n) →
  stack_reach g ((n, false) :: rest) →
  stack_reach g (pushed col ds ++ (n, true) :: rest).
Proof.
  intros Hds Hr above m below x b Heq Hx.
  apply split_app_cons in Heq as [(k & Hk & _)|[(-> & [= ->] & ->)|(k & -> & ->)]].
  - assert ((m, true) ∈ pushed col ds) as Hin by (rewrite Hk; set_solver).
    by apply elem_of_pushed in Hin as [? _].
  - apply elem_of_pushed in Hx as (_ & Hd & _). apply rtc_once. by apply Hds.
  - assert (rtc (depends_on g) m n) as Hmn.
    { apply (Hr ((n, false) :: k) m below n false); [done|left]. }
    apply elem_of_app in Hx as [Hx|[[= -> ->]|Hx]%elem_of_cons].
    + apply elem_of_pushed in Hx as (_ & Hd & _).
      eapply rtc_r; [done|]. by apply Hds.
    + done.
    + apply (Hr ((n, false) :: k) m below x b); [done|by right].
Qed.

Lemma dfs_sound_step g wfuel st n b rest st' stack' :
  reachable g →
  size (_nodes g) ≤ wfuel →
  dfs_inv g st ((n, b) :: rest) →
  stack_reach g ((n, b) :: rest) ∧ (cycles st ≠ [] → has_cycle g) →
  dfs_step g wfuel st n b rest = Ok (st', stack') →
  stack_reach g stack' ∧ (cycles st' ≠ [] → has_cycle g).
Proof.
  intros Hg Hwfuel Hinv [Hreach Hsound] Hstep. destruct b.
  - apply dfs_step_finish_eq in Hstep as [-> ->].
    split; [by eapply stack_reach_finish|done].
  - destruct (dfs_step_process g wfuel st n rest Hg Hinv Hwfuel)
      as (st1 & cs & Hs & Hcn & Hcol & Hcyc & _ & Hcs & _).
    rewrite Hs in Hstep. injection Hstep as <- <-. split.
    + apply stack_reach_process; [|done].
      by intros d ?%elem_of_sorted%elem_of_elements.
    + rewrite Hcyc. intros Hne.
      destruct (decide (cycles st = [])) as [Hnil|]; [|by auto].
      destruct (decide (Exists (λ d, <[n:=GRAY]> (color st) !! d = Some GRAY)
                               (elements (deps_of g n)))) as [Hex|Hnex].
      * apply Exists_exists in Hex as (d & Hd%elem_of_elements & Hgray).
        exists d. destruct (decide (n = d)) as [->|Hnd]; [by apply tc_once|].
        rewrite lookup_insert_ne in Hgray by done.
        apply (dfs_gray _ _ _ Hinv) in Hgray.
        apply elem_of_cons in Hgray as [?|Hin]; [simplify_eq|].
        apply list_elem_of_split in Hin as (k & below & ->).
        eapply tc_rtc_l; [|by apply tc_once].
        apply (Hreach ((n, false) :: k) d below n false); [done|left].
      * exfalso. apply Hne. rewrite Hnil. simpl. apply Hcs.
        intros d Hd Hgray. apply Hnex, Exists_exists. exists d.
        by rewrite elem_of_elements.
Qed.

Lemma dfs_outer_invariant g fuel (J : dfs_state → Prop)
    (I : dfs_state → dfs_stack → Prop) :
  reachable g →
  dfs_bound g ≤ fuel →
  (∀ st start, color st !! start = Some WHITE → J st → I st [(start, false)]) →
  (∀ st, I st [] → J st) →
  (∀ st n b rest st' stack',
     dfs_inv g st ((n, b) :: rest) → I st ((n, b) :: rest) →
     dfs_step g fuel st n b rest = Ok (st', stack') → I st' stack') →
  ∀ starts st st',
    dfs_outer_inv g st → J st →
    (∀ s, s ∈ starts → s ∈ _nodes g) →
    foldl (dfs_from g fuel) (Ok st) starts = Ok st' → J st'.
Proof.
  intros Hg Hfuel Hstart Hend Hstep starts.
  induction starts as [|s starts IH]; intros st st' Hinv HJ Hsub Hrun.
  - simpl in Hrun. by simplify_eq.
  - cbn [foldl] in Hrun.
    destruct (dfs_from_spec g fuel st s Hg Hinv) as (st1 & Hrun1 & Hinv1 & _);
      [apply Hsub; left|done|].
    rewrite Hrun1 in Hrun. apply (IH st1 st'); [done| |intros; apply Hsub; by right|done].
    unfold dfs_from in Hrun1. simpl in Hrun1.
    destruct (color st !! s) as [[]|] eqn:Hc; simplify_eq; try done.
    apply Hend.
    eapply (dfs_loop_invariant g fuel I Hg); [|done| | |exact Hrun1].
    + pose proof (dfs_bound_nodes g). lia.
    + apply dfs_inv_start; [apply Hinv|done].
    + by apply Hstart.
Qed.

Lemma detect_cycles_empty_iff_acyclic_aux (g : MigrationGraph) :
  reachable g →
  detect_cycles g = Ok [] ↔ acyclic g.
Proof.
  intros Hg.
  destruct (detect_cycles_spec g Hg) as (paths & Hrun & _ & _ & Hcomplete).
  rewrite Hrun. split.
  - intros [= ->] Hc. by apply Hcomplete.
  - intros Hac. f_equal.
    destruct (decide (paths = [])) as [|Hne]; [done|exfalso]. apply Hac.
    unfold detect_cycles, detect_cycles_fuel in Hrun.
    destruct (foldl _ _ _) as [st| |] eqn:Hfold; simplify_eq/=.
    eapply (dfs_outer_invariant g (dfs_bound g)
              (λ st, cycles st ≠ [] → has_cycle g)
              (λ st stack, stack_reach g stack ∧ (cycles st ≠ [] → has_cycle g)));
      [done|done| | | | | | |exact Hfold|exact Hne].
    + intros st0 start _ HJ. split; [|done].
      intros above m below x b Heq. destruct above as [|? [|]]; simplify_eq/=.
    + by intros st0 [_ ?].
    + intros st0 n b rest st1 stack1 Hinv HI Hstep.
      exact (dfs_sound_step g (dfs_bound g) st0 n b rest st1 stack1 Hg
               (dfs_bound_nodes g) Hinv HI Hstep).
    + apply dfs_init_outer_inv.
    + done.
    + by intros s ?%elem_of_sorted%elem_of_elements.
Qed.

(** On a graph built through the public interface [detect_cycles] returns
    the empty list exactly when the graph is acyclic: it never reports a
    path on a graph without a cycle, and always reports one on a graph with
    a cycle. *)
Theorem detect_cycles_empty_iff_acyclic (g : MigrationGraph) :
  reachable g →
  detect_cycles g = Ok [] ↔ acyclic g.
Proof. apply detect_cycles_empty_iff_acyclic_aux. Qed.

Lemma detect_cycles_empty_iff_acyclic_witness :
  detect_cycles fork_graph = Ok [] ↔ acyclic fork_graph.
Proof. apply (detect_cycles_empty_iff_acyclic fork_graph). repeat constructor. Defined.

(** ** The paths reported by [detect_cycles] are paths of the graph *)

Lemma collected_path_snoc g acc x c0 :
  last acc = Some x → x ∈ deps_of g c0 →
  collected_path g acc → collected_path g (acc ++ [c0]).
Proof.
  intros Hlast Hx Hacc i a b Ha Hb.
  apply lookup_snoc_Some in Hb as [[Hlt Hb]|[Hlen ->]].
  - rewrite lookup_app_l in Ha by lia. by eapply Hacc.
  - rewrite lookup_app_l in Ha by lia.
    rewrite last_lookup, <- Hlen in Hlast. simpl in Hlast. congruence.
Qed.

Lemma walk_parents_collected g fuel p dep cur acc x c :
  (∀ y q, p !! y = Some (Some q) → y ∈ deps_of g q) →
  last acc = Some x → cur = parent_get p x → collected_path g acc →
  walk_parents fuel p dep cur acc = Ok c →
  collected_path g c ∧ length acc ≤ length c.
Proof.
  intros Hp. revert cur acc x.
  induction fuel as [|fuel IH]; intros cur acc x Hlast Hcur Hacc Hrun.
  - destruct cur as [c0|]; simpl in Hrun; [|by simplify_eq].
    destruct (decide (c0 = dep)); by simplify_eq.
  - destruct cur as [c0|]; simpl in Hrun; [|by simplify_eq].
    destruct (decide (c0 = dep)); [by simplify_eq|].
    destruct (IH _ (acc ++ [c0]) c0 (last_snoc _ _) eq_refl) with (2 := Hrun)
      as [Hc Hlen].
    + eapply collected_path_snoc; [done| |done]. apply Hp.
      unfold parent_get in Hcur. by destruct (p !! x) as [[?|]|]; simplify_eq/=.
    + split; [done|]. rewrite length_app in Hlen. lia.
Qed.

Lemma collected_path_reverse g c :
  2 ≤ length c → collected_path g c → dependency_path g (reverse c).
Proof.
  intros Hlen Hc. split; [by rewrite length_reverse|].
  intros i a b [Ha Hi]%reverse_lookup_Some [Hb HSi]%reverse_lookup_Some.
  apply (Hc (length c - S (S i))); [done|].
  by replace (S (length c - S (S i))) with (length c - S i) by lia.
Qed.

Lemma visit_fold_paths g wfuel node ds st stack st' stack' :
  (∀ d, d ∈ ds → d ∈ deps_of g node) →
  parent_edges g st ∧ Forall (dependency_path g) (cycles st) →
  foldl (visit_dep wfuel node) (Ok (st, stack)) ds = Ok (st', stack') →
  parent_edges g st' ∧ Forall (dependency_path g) (cycles st').
Proof.
  revert st stack. induction ds as [|d ds IH]; intros st stack Hds [Hpe Hpaths] Hrun.
  - simpl in Hrun. by simplify_eq.
  - cbn [foldl] in Hrun.
    destruct (visit_fold_not_ok _ _ _ _ _ Hrun) as [[st1 stack1] Hstep].
    rewrite Hstep in Hrun.
    apply (IH st1 stack1); [intros; apply Hds; by right| |done].
    assert (d ∈ deps_of g node) as Hd by (apply Hds; left).
    simpl in Hstep. destruct (color st !! d) as [[]|]; simplify_eq/=.
    + split; [|done]. intros x p Hx. simpl in Hx.
      destruct (decide (d = x)) as [->|Hne].
      * rewrite lookup_insert_eq in Hx. by simplify_eq.
      * rewrite lookup_insert_ne in Hx by done. by apply Hpe.
    + destruct (walk_parents _ _ _ _ _) as [c| |] eqn:Hwalk; simplify_eq/=.
      split; [done|]. apply Forall_app. split; [done|]. constructor; [|done].
      destruct (walk_parents_collected g wfuel (parent st) d
                  (parent_get (parent st) node) [d; node] node c Hpe eq_refl eq_refl)
        as [Hc Hlen]; [|exact Hwalk|].
      * intros [|[|i]] a b Ha Hb; simplify_eq/=. done.
      * apply collected_path_reverse; [|done]. simpl in Hlen. lia.
    + done.
Qed.

Lemma dfs_paths_step g wfuel st n b rest st' stack' :
  parent_edges g st ∧ Forall (dependency_path g) (cycles st) →
  dfs_step g wfuel st n b rest = Ok (st', stack') →
  parent_edges g st' ∧ Forall (dependency_path g) (cycles st').
Proof.
  intros HI Hstep. unfold dfs_step in Hstep.
  destruct b; [by simplify_eq|].
  destruct (color st !! n) as [[]|]; simplify_eq/=; try done.
  - eapply (visit_fold_paths g wfuel n _ (set_color n GRAY st)); [|exact HI|exact Hstep].
    by intros d ?%elem_of_sorted%elem_of_elements.
  - eapply (visit_fold_paths g wfuel n _ (set_color n GRAY st)); [|exact HI|exact Hstep].
    by intros d ?%elem_of_sorted%elem_of_elements.
Qed.

(** Every path that [detect_cycles] reports on a graph built through the
    public interface has at least two nodes, and each of its nodes depends
    on the next one. *)
Theorem detect_cycles_paths_are_dependency_paths (g : MigrationGraph) (paths : list (list string)) :
  reachable g →
  detect_cycles g = Ok paths →
  Forall (dependency_path g) paths.
Proof.
  intros Hg Hrun. unfold detect_cycles, detect_cycles_fuel in Hrun.
  destruct (foldl _ _ _) as [st| |] eqn:Hfold; simplify_eq/=.
  eapply (dfs_outer_invariant g (dfs_bound g)
            (λ st, parent_edges g st ∧ Forall (dependency_path g) (cycles st))
            (λ st _, parent_edges g st ∧ Forall (dependency_path g) (cycles st)));
    [done|done| | | | | | |exact Hfold].
  - done.
  - done.
  - intros st0 n b rest st1 stack1 _ HI Hstep. by eapply dfs_paths_step.
  - apply dfs_init_outer_inv.
  - split; [|by constructor].
    intros x p [_ ?]%lookup_gset_to_gmap_Some. done.
  - by intros s ?%elem_of_sorted%elem_of_elements.
Qed.

Lemma detect_cycles_paths_are_dependency_paths_witness :
  Forall (dependency_path cycle_graph) [["b"; "c"; "a"]].
Proof.
  apply (detect_cycles_paths_are_dependency_paths cycle_graph).
  - repeat constructor.
  - by vm_compute.
Defined.

(** ** The two cycle analyses agree *)

(** On a graph built through the public interface [topological_sort]
    returns an order exactly when [detect_cycles] reports no path. *)
Theorem topological_sort_ok_iff_no_cycle_reported (g : MigrationGraph) :
  reachable g →
  (∃ order, topological_sort g = Ok order) ↔ detect_cycles g = Ok [].
Proof.
  intros Hg. rewrite detect_cycles_empty_iff_acyclic_aux by done. split.
  - intros [order Hok]. by eapply topological_sort_ok_acyclic.
  - intros Hac.
    destruct (topological_sort_emitted g Hg) as (emitted & m & _ & Hinv & ->).
    pose proof (kahn_final_acyclic g m emitted Hg Hinv Hac).
    exists emitted. by rewrite decide_False by lia.
Qed.

Lemma topological_sort_ok_iff_no_cycle_reported_witness :
  (∃ order, topological_sort cycle_graph = Ok order) ↔ detect_cycles cycle_graph = Ok [].
Proof.
  apply (topological_sort_ok_iff_no_cycle_reported cycle_graph). repeat constructor.
Defined.

(** ** Risk scorer *)

Section risk_scorer.
Import RiskScoring RiskOrder.

Lemma apply_ops_weights (s : RiskScorer) (ops : list scorer_op) :
  weights (foldl apply_op s ops) = weights s.
Proof.
  revert s. induction ops as [|op ops IH]; intros s; [done|].
  simpl. rewrite IH. by destruct op.
Qed.

Lemma new_scorer_weights_lookup (custom : option (gmap string Z)) (category : string) :
  weights (new_scorer custom) !! category
  = match custom ≫= (.!! category) with
    | Some w => Some w
    | None => DEFAULT_WEIGHTS !! category
    end.
Proof.
  unfold new_scorer; simpl. rewrite lookup_union.
  destruct custom as [m|]; simpl.
  - destruct (m !! category), (DEFAULT_WEIGHTS !! category); done.
  - rewrite lookup_empty. by destruct (DEFAULT_WEIGHTS !! category).
Qed.

Lemma new_scorer_weights_nonempty (custom : option (gmap string Z)) :
  weights (new_scorer custom) ≠ ∅.
Proof.
  intros Hempty.
  pose proof (new_scorer_weights_lookup custom "drop_table") as Hl.
  rewrite Hempty, lookup_empty in Hl.
  destruct (custom ≫= _); [done|]. by vm_compute in Hl.
Qed.

Lemma add_finding_findings (s : RiskScorer) (c d f : string) :
  weights s ≠ ∅ →
  findings (report (add_finding s c d f))
  = findings (report s)
    ++ [{| category := c; score := default 5%Z (weights s !! c);
           description := d; file_path := f |}].
Proof.
  intros Hne. unfold report, add_finding, add; simpl. by rewrite decide_False.
Qed.

(** A scorer made with a custom weight table scores a finding by the custom
    entry of its category, else by the default entry, else 5; this holds
    after any sequence of [add_finding] and [reset] calls, and the finding
    is appended to the report. *)
Theorem scorer_scores_custom_then_default_then_five
    (custom : option (gmap string Z)) (ops : list scorer_op)
    (category description file_path : string) :
  let s := foldl apply_op (new_scorer custom) ops in
  findings (report (add_finding s category description file_path))
  = findings (report s)
    ++ [{| RiskScoring.category := category;
           score := default (default 5%Z (DEFAULT_WEIGHTS !! category))
                            (custom ≫= (.!! category));
           RiskScoring.description := description;
           RiskScoring.file_path := file_path |}].
Proof.
  intros s. rewrite add_finding_findings.
  - do 3 f_equal. subst s. rewrite apply_ops_weights, new_scorer_weights_lookup.
    by destruct (custom ≫= _).
  - subst s. rewrite apply_ops_weights. apply new_scorer_weights_nonempty.
Qed.

Lemma default_weight_at_least_five (category : string) :
  (5 ≤ default 5 (DEFAULT_WEIGHTS !! category))%Z.
Proof.
  destruct (DEFAULT_WEIGHTS !! category) as [w|] eqn:Hw; simpl; [|lia].
  apply (elem_of_map_to_list DEFAULT_WEIGHTS) in Hw.
  assert (Forall (λ p : string * Z, (5 ≤ p.2)%Z) (map_to_list DEFAULT_WEIGHTS)) as Hall.
  { apply (bool_decide_unpack (Forall (λ p : string * Z, (5 ≤ p.2)%Z)
                                 (map_to_list DEFAULT_WEIGHTS))). by vm_compute. }
  rewrite Forall_forall in Hall. exact (Hall _ Hw).
Qed.

Lemma default_scorer_total (ops : list scorer_op) :
  (5 * Z.of_nat (length (findings (report (foldl apply_op (new_scorer None) ops))))
   ≤ total_score (report (foldl apply_op (new_scorer None) ops)))%Z.
Proof.
  induction ops as [|op ops IH] using rev_ind; [by vm_compute|].
  rewrite foldl_app. cbn [foldl].
  set (s := foldl apply_op (new_scorer None) ops) in *.
  destruct op as [c d f|]; cbn [apply_op]; [|by vm_compute].
  assert (weights s = weights (new_scorer None)) as Hw by apply apply_ops_weights.
  rewrite add_finding_findings
    by (rewrite Hw; apply new_scorer_weights_nonempty).
  destruct (add_finding_total_score s c d f) as [->|Hempty].
  - rewrite length_app; simpl length. rewrite Hw, new_scorer_weights_lookup.
    pose proof (default_weight_at_least_five c).
    change (None ≫= _) with (@None Z).
    destruct (DEFAULT_WEIGHTS !! c); simpl in *; lia.
  - rewrite Hw in Hempty. by destruct (new_scorer_weights_nonempty None).
Qed.

(** With the default weights every finding scores at least 5: a report
    filled through a default [RiskScorer] is LOW exactly when it has no
    finding, and two findings always make it CRITICAL. *)
Theorem default_scorer_low_iff_passed (ops : list scorer_op) :
  let r := report (foldl apply_op (new_scorer None) ops) in
  (severity r = LOW ↔ passed r = true)
  ∧ (2 ≤ length (findings r) → severity r = CRITICAL).
Proof.
  intros r. pose proof (default_scorer_total ops) as Htotal. fold r in Htotal.
  fold r in Htotal.
  unfold severity, from_score, passed. split.
  - rewrite bool_decide_eq_true. split.
    + intros Hlow. destruct (findings r); [done|]. simpl in Htotal.
      repeat case_decide; (done || lia).
    + intros Hlen. destruct r as [fs]. simpl in *.
      destruct fs; [|done]. by vm_compute.
  - intros Hlen. repeat case_decide; (done || lia).
Qed.

Lemma default_scorer_low_iff_passed_witness :
  severity (report (foldl apply_op (new_scorer None)
                      [AddFinding "drop_column" "d" ""; AddFinding "unknown" "d" ""]))
  = CRITICAL.
Proof.
  apply (default_scorer_low_iff_passed
           [AddFinding "drop_column" "d" ""; AddFinding "unknown" "d" ""]).
  vm_compute. lia.
Defined.

Lemma from_score_mono (a b : Z) :
  (a ≤ b)%Z → (severity_rank (from_score a) ≤ severity_rank (from_score b))%Z.
Proof. unfold from_score. intros. repeat case_decide; simpl; lia. Qed.

(** When no weight of the scorer is negative, adding a finding never
    lowers the total score nor the severity of the report. *)
Theorem add_finding_never_lowers_severity (s : RiskScorer) (category description file_path : string) :
  (∀ k w, weights s !! k = Some w → (0 ≤ w)%Z) →
  let s' := add_finding s category description file_path in
  (total_score (report s) ≤ total_score (report s'))%Z
  ∧ (severity_rank (severity (report s)) ≤ severity_rank (severity (report s')))%Z.
Proof.
  intros Hpos s'.
  assert (total_score (report s) ≤ total_score (report s'))%Z as Hle.
  { subst s'. unfold report, add_finding, add; simpl.
    destruct (_report s) as [fs]. rewrite total_score_app.
    unfold total_score at 3; simpl.
    assert (∀ w : gmap string Z, (∀ k v, w !! k = Some v → (0 ≤ v)%Z) →
              (0 ≤ default 5 (w !! category))%Z) as Hdef.
    { intros w Hw. destruct (w !! category) eqn:Hl; simpl; [by eapply Hw|lia]. }
    case_decide.
    - pose proof (default_weight_at_least_five category). lia.
    - specialize (Hdef _ Hpos). lia. }
  split; [done|]. by apply from_score_mono.
Qed.

Lemma add_finding_never_lowers_severity_witness :
  let s := new_scorer (Some {[ "drop_table" := 0%Z ]}) in
  let s' := add_finding s "drop_table" "d" "f" in
  (total_score (report s) ≤ total_score (report s'))%Z
  ∧ (severity_rank (severity (report s)) ≤ severity_rank (severity (report s')))%Z.
Proof.
  apply (add_finding_never_lowers_severity
           (new_scorer (Some {[ "drop_table" := 0%Z ]})) "drop_table" "d" "f").
  intros k w Hk.
  assert (Forall (λ p : string * Z, (0 ≤ p.2)%Z)
            (map_to_list (weights (new_scorer (Some {[ "drop_table" := 0%Z ]}))))) as Hall.
  { apply (bool_decide_unpack (Forall (λ p : string * Z, (0 ≤ p.2)%Z)
       (map_to_list (weights (new_scorer (Some {[ "drop_table" := 0%Z ]})))))).
    by vm_compute. }
  apply elem_of_map_to_list in Hk. rewrite Forall_forall in Hall. exact (Hall _ Hk).
Defined.

End risk_scorer.

(** ** Branch comparison *)

Section branch_compare_more.
Import BranchCompare.

Lemma migration_files_in_diff_ok git base head files :
  Git.diff_files git base head = Ok files →
  _migration_files_in_diff git base head
  = Ok (list_to_set (filter (λ f, _is_migration_file f = true) files)).
Proof. intros H. unfold _migration_files_in_diff. by rewrite H. Qed.

Lemma generate_suggestions_fields report :
  current_branch (_generate_suggestions report) = current_branch report
  ∧ target_branch (_generate_suggestions report) = target_branch report
  ∧ is_behind (_generate_suggestions report) = is_behind report
  ∧ commits_behind (_generate_suggestions report) = commits_behind report
  ∧ current_only (_generate_suggestions report) = current_only report
  ∧ target_only (_generate_suggestions report) = target_only report
  ∧ parallel_migrations (_generate_suggestions report) = parallel_migrations report.
Proof.
  unfold _generate_suggestions.
  destruct (is_behind report) eqn:?; simpl;
    repeat (case_bool_decide; simpl); rewrite ?andb_false_r; simpl; done.
Qed.

(** With a merge base, [compare] sorts the migration files changed since
    the merge base into three disjoint, strictly increasing lists: changed
    on the current branch only, on the target branch only, and on both;
    files that are not migration files are left out, and the branch is
    behind exactly when the target has commits after the merge base. *)
Theorem compare_partitions_migration_files
    (git : Git.GitClient) (target current base : string) (behind : Z)
    (current_files target_files : list string) :
  Git.fetch git = Ok () →
  Git.current_branch git = Ok current →
  Git.merge_base git current target = Ok base →
  base ≠ "" →
  Git.commits_between git base target = Ok behind →
  Git.diff_files git base current = Ok current_files →
  Git.diff_files git base target = Ok target_files →
  ∃ r,
    compare git target = Ok r
    ∧ current_branch r = current ∧ target_branch r = target
    ∧ commits_behind r = behind
    ∧ (is_behind r = true ↔ (0 < behind)%Z)
    ∧ (∀ f, f ∈ current_only r
            ↔ _is_migration_file f = true ∧ f ∈ current_files ∧ f ∉ target_files)
    ∧ (∀ f, f ∈ target_only r
            ↔ _is_migration_file f = true ∧ f ∈ target_files ∧ f ∉ current_files)
    ∧ (∀ f, f ∈ parallel_migrations r
            ↔ _is_migration_file f = true ∧ f ∈ current_files ∧ f ∈ target_files)
    ∧ StronglySorted (λ a b, str_le a b ∧ a ≠ b) (current_only r)
    ∧ StronglySorted (λ a b, str_le a b ∧ a ≠ b) (target_only r)
    ∧ StronglySorted (λ a b, str_le a b ∧ a ≠ b) (parallel_migrations r).
Proof.
  intros Hf Hc Hm Hbase Hb Hdc Hdt. unfold compare.
  rewrite Hf; simpl. rewrite Hc; simpl. rewrite Hm; simpl.
  rewrite decide_False by done. rewrite Hb; simpl.
  rewrite (migration_files_in_diff_ok _ _ _ _ Hdc); simpl.
  rewrite (migration_files_in_diff_ok _ _ _ _ Hdt); simpl.
  eexists. split; [done|].
  match goal with |- context [_generate_suggestions ?r] =>
    destruct (generate_suggestions_fields r) as (-> & -> & -> & -> & -> & -> & ->)
  end. simpl.
  split_and!; try done.
  - by rewrite bool_decide_eq_true.
  - intros f. rewrite elem_of_sorted, elem_of_elements, elem_of_difference,
      !elem_of_list_to_set, !list_elem_of_filter. naive_solver.
  - intros f. rewrite elem_of_sorted, elem_of_elements, elem_of_difference,
      !elem_of_list_to_set, !list_elem_of_filter. naive_solver.
  - intros f. rewrite elem_of_sorted, elem_of_elements, elem_of_intersection,
      !elem_of_list_to_set, !list_elem_of_filter. naive_solver.
  - apply sorted_strict, NoDup_elements.
  - apply sorted_strict, NoDup_elements.
  - apply sorted_strict, NoDup_elements.
Qed.

Lemma compare_partitions_migration_files_witness :
  ∃ r,
    compare diverged_git "origin/main" = Ok r
    ∧ current_branch r = "feature" ∧ target_branch r = "origin/main"
    ∧ commits_behind r = 2%Z
    ∧ (is_behind r = true ↔ (0 < 2)%Z)
    ∧ (∀ f, f ∈ current_only r
            ↔ _is_migration_file f = true
              ∧ f ∈ ["app/migrations/0002_a.py"; "README.md"; "app/migrations/0003_shared.py"]
              ∧ f ∉ ["app/migrations/0003_shared.py"; "app/migrations/0002_b.py"])
    ∧ (∀ f, f ∈ target_only r
            ↔ _is_migration_file f = true
              ∧ f ∈ ["app/migrations/0003_shared.py"; "app/migrations/0002_b.py"]
              ∧ f ∉ ["app/migrations/0002_a.py"; "README.md"; "app/migrations/0003_shared.py"])
    ∧ (∀ f, f ∈ parallel_migrations r
            ↔ _is_migration_file f = true
              ∧ f ∈ ["app/migrations/0002_a.py"; "README.md"; "app/migrations/0003_shared.py"]
              ∧ f ∈ ["app/migrations/0003_shared.py"; "app/migrations/0002_b.py"])
    ∧ StronglySorted (λ a b, str_le a b ∧ a ≠ b) (current_only r)
    ∧ StronglySorted (λ a b, str_le a b ∧ a ≠ b) (target_only r)
    ∧ StronglySorted (λ a b, str_le a b ∧ a ≠ b) (parallel_migrations r).
Proof.
  apply (compare_partitions_migration_files diverged_git "origin/main" "feature" "abc123" 2);
    (reflexivity || discriminate).
Defined.

Lemma generate_suggestions_spec report :
  suggestions report = [] →
  (has_issues report = true ↔ suggestions (_generate_suggestions report) ≠ [])
  ∧ length (suggestions (_generate_suggestions report)) ≤ 4
  ∧ no_merge_base_message ∉ suggestions (_generate_suggestions report).
Proof.
  intros Hnil. unfold _generate_suggestions, has_issues.
  assert (∀ (l : list string) (x : string), l ++ [x] ≠ []) as Hsnoc
    by (intros [|??] ?; done).
  destruct (is_behind report) eqn:?; simpl;
    repeat (case_bool_decide; simpl); rewrite ?andb_false_r; simpl;
    rewrite ?Hnil; simpl; (split_and!; [split; (done || by intros _)|lia|]);
    rewrite ?elem_of_cons, elem_of_nil; intros Hin;
    repeat (destruct Hin as [Hin|Hin]; [by inversion Hin|]); done.
Qed.

(** A report that [compare] returns has issues exactly when it carries a
    suggestion other than the one for a missing merge base; it never
    carries more than four suggestions. *)
Theorem compare_suggestions_iff_issues (git : Git.GitClient) (target : string)
    (r : ComparisonReport) :
  compare git target = Ok r →
  (has_issues r = true
   ↔ suggestions r ≠ [] ∧ suggestions r ≠ [no_merge_base_message])
  ∧ length (suggestions r) ≤ 4.
Proof.
  unfold compare. intros Hrun.
  destruct (Git.fetch git) as [[]| |]; simplify_eq/=.
  destruct (Git.current_branch git) as [current| |]; simplify_eq/=.
  destruct (Git.merge_base git current target) as [base| |]; simplify_eq/=.
  destruct (decide (base = "")) as [->|Hbase]; simplify_eq/=.
  { split; [|lia]. split; [done|]. by intros [_ ?]. }
  destruct (Git.commits_between git base target) as [behind| |]; simplify_eq/=.
  destruct (_migration_files_in_diff git base current) as [cf| |]; simplify_eq/=.
  destruct (_migration_files_in_diff git base target) as [tf| |]; simplify_eq/=.
  match goal with |- context [_generate_suggestions ?r] =>
    destruct (generate_suggestions_spec r eq_refl) as (Hiff & Hlen & Hno);
    destruct (generate_suggestions_fields r) as (_ & _ & Hb & _ & _ & Ht & Hp);
    set (r' := _generate_suggestions r) in *
  end.
  split; [|done]. unfold has_issues in *. rewrite Hb, Ht, Hp. rewrite Hiff.
  split; [|by intros [? _]]. intros Hne. split; [done|].
  intros Heq. apply Hno. rewrite Heq. by left.
Qed.

Lemma compare_suggestions_iff_issues_witness :
  ∃ r, compare diverged_git "origin/main" = Ok r
       ∧ (has_issues r = true
          ↔ suggestions r ≠ [] ∧ suggestions r ≠ [no_merge_base_message])
       ∧ length (suggestions r) ≤ 4.
Proof.
  eexists. split; [reflexivity|].
  apply (compare_suggestions_iff_issues diverged_git "origin/main"). reflexivity.
Defined.

End branch_compare_more.

(** ** Migration file names *)

Section migration_file_names.
Import BranchCompare.

Lemma replace_chars (a b : ascii) (s : string) :
  String.list_ascii_of_string (replace a b s)
  = (λ c, if decide (c = a) then b else c) <$> String.list_ascii_of_string s.
Proof. induction s as [|c s IH]; [done|]. simpl. by rewrite IH. Qed.

Lemma replace_idem (a b : ascii) (s : string) :
  a ≠ b → replace a b (replace a b s) = replace a b s.
Proof.
  intros Hab. induction s as [|c s IH]; [done|]. simpl. rewrite IH. f_equal.
  destruct (decide (c = a)).
  - rewrite decide_False; [done|]. by intros ->.
  - by rewrite decide_False.
Qed.

Lemma suffix_fmap_fixed (f : ascii → ascii) (t l : list ascii) :
  (∀ c, c ∈ t ∨ f c ∈ t → f c = c) →
  t `suffix_of` (f <$> l) ↔ t `suffix_of` l.
Proof.
  intros Hfix.
  assert (∀ t0 : list ascii, (∀ c, c ∈ t0 → f c ∈ t ∨ c ∈ t) → f <$> t0 = t0) as Hid.
  { intros t0 Ht0. induction t0 as [|c t0 IH]; [done|]. csimpl. f_equal.
    - apply Hfix. destruct (Ht0 c) as [?|?]; [by left|by right|by left].
    - apply IH. intros c' ?. apply Ht0. by right. }
  split; intros [k Hk].
  - apply fmap_app_inv in Hk as (k0 & t0 & -> & -> & ->).
    exists k0. f_equal. symmetry. apply Hid. intros c Hc. left.
    apply list_elem_of_fmap. by exists c.
  - exists (f <$> k). rewrite Hk, fmap_app. f_equal. apply Hid. by right.
Qed.

Lemma endswith_py_replace (path : string) :
  endswith (replace "\" "/" path) ".py" = endswith path ".py".
Proof.
  unfold endswith. rewrite replace_chars. apply bool_decide_ext.
  apply suffix_fmap_fixed. intros c. simpl.
  rewrite !elem_of_cons, !elem_of_nil. destruct (decide (c = "\"%char)) as [->|]; [|done].
  intros [H|H]; [|exfalso]; naive_solver.
Qed.

(** A path is classified the same whether its components are separated
    by slashes or by backslashes. *)
Theorem is_migration_file_separator_independent (path : string) :
  _is_migration_file (replace "\" "/" path) = _is_migration_file path.
Proof.
  unfold _is_migration_file.
  by rewrite endswith_py_replace, replace_idem.
Qed.

End migration_file_names.

(** ** The graph of a list of migrations *)

Lemma build_inner_nodes g id deps n :
  n ∈ _nodes (foldl (λ graph dep, add_edge graph id dep) g deps)
  ↔ n ∈ _nodes g ∨ (deps ≠ [] ∧ n = id) ∨ n ∈ deps.
Proof.
  revert g. induction deps as [|d deps IH]; intros g; simpl.
  - rewrite elem_of_nil. naive_solver.
  - rewrite IH. simpl. rewrite !elem_of_union, !elem_of_singleton, elem_of_cons.
    destruct deps; naive_solver.
Qed.

Lemma build_inner_deps g id deps n :
  deps_of (foldl (λ graph dep, add_edge graph id dep) g deps) n
  = if decide (id = n) then deps_of g n ∪ list_to_set deps else deps_of g n.
Proof.
  revert g. induction deps as [|d deps IH]; intros g; simpl.
  - case_decide; set_solver.
  - rewrite IH, deps_of_add_edge. repeat case_decide; set_solver.
Qed.

Lemma build_inner_dependents g id deps d :
  dependents_of (foldl (λ graph dep, add_edge graph id dep) g deps) d
  = if decide (d ∈ deps) then dependents_of g d ∪ {[id]} else dependents_of g d.
Proof.
  revert g. induction deps as [|d' deps IH]; intros g; simpl.
  - done.
  - rewrite IH, dependents_of_add_edge.
    repeat case_decide; set_solver.
Qed.

Lemma build_graph_from g migrations :
  let g' :=
    foldl (λ graph m,
             foldl (λ graph dep, add_edge graph (Adapters.migration_id m) dep)
                   (add_node graph (Adapters.migration_id m))
                   (Adapters.dependencies m)) g migrations in
  (∀ n, n ∈ _nodes g'
        ↔ n ∈ _nodes g
          ∨ ∃ m, m ∈ migrations
                 ∧ (Adapters.migration_id m = n ∨ n ∈ Adapters.dependencies m))
  ∧ (∀ n d, d ∈ deps_of g' n
            ↔ d ∈ deps_of g n
              ∨ ∃ m, m ∈ migrations
                     ∧ Adapters.migration_id m = n ∧ d ∈ Adapters.dependencies m)
  ∧ (∀ n d, n ∈ dependents_of g' d
            ↔ n ∈ dependents_of g d
              ∨ ∃ m, m ∈ migrations
                     ∧ Adapters.migration_id m = n ∧ d ∈ Adapters.dependencies m).
Proof.
  revert g. induction migrations as [|m ms IH]; intros g; simpl.
  - split_and!; intros; setoid_rewrite elem_of_nil; naive_solver.
  - destruct (IH (foldl (λ graph dep, add_edge graph (Adapters.migration_id m) dep)
                    (add_node g (Adapters.migration_id m)) (Adapters.dependencies m)))
      as (Hn & Hd & Hr).
    split_and!.
    + intros n. rewrite Hn, build_inner_nodes. simpl.
      rewrite elem_of_union, elem_of_singleton. setoid_rewrite elem_of_cons.
      naive_solver.
    + intros n d. rewrite Hd, build_inner_deps, deps_of_add_node.
      setoid_rewrite elem_of_cons.
      case_decide; rewrite ?elem_of_union, ?elem_of_list_to_set; naive_solver.
    + intros n d. rewrite Hr, build_inner_dependents, dependents_of_add_node.
      setoid_rewrite elem_of_cons.
      case_decide; rewrite ?elem_of_union, ?elem_of_singleton; naive_solver.
Qed.

(** The graph the engine builds from a list of migrations has as nodes the
    ids of the migrations and the ids they depend on (also those that no
    migration has), and an edge from an id to a dependency exactly when
    some migration with that id declares the dependency; the reverse table
    mirrors the forward one. *)
Theorem build_graph_nodes_and_edges (migrations : list Adapters.MigrationInfo) :
  let g := _build_graph migrations in
  (∀ n, n ∈ _nodes g
        ↔ ∃ m, m ∈ migrations
               ∧ (Adapters.migration_id m = n ∨ n ∈ Adapters.dependencies m))
  ∧ (∀ n d, d ∈ deps_of g n
            ↔ ∃ m, m ∈ migrations
                   ∧ Adapters.migration_id m = n ∧ d ∈ Adapters.dependencies m)
  ∧ (∀ n d, n ∈ dependents_of g d ↔ d ∈ deps_of g n).
Proof.
  intros g. destruct (build_graph_from empty_graph migrations) as (Hn & Hd & Hr).
  fold (_build_graph migrations) in Hn, Hd, Hr. fold g in Hn, Hd, Hr.
  split_and!.
  - intros n. rewrite Hn. simpl. set_solver.
  - intros n d. rewrite Hd. unfold deps_of at 1; simpl. set_solver.
  - intros n d. rewrite Hr, Hd. unfold dependents_of at 1, deps_of at 1; simpl.
    set_solver.
Qed.

(** ** The exit code of [check] *)


(** In an acyclic graph a node without edges is never the only head, unless
    it is the only node. *)
Lemma orphan_two_heads g o n :
  reachable g → acyclic g →
  o ∈ find_orphans g → n ∈ _nodes g → n ≠ o →
  1 < length (find_heads g).
Proof.
  intros Hg Hac Ho Hn Hno.
  apply elem_of_find_orphans in Ho as (Ho & Hodeps & Hodependents).
  destruct (topological_sort_emitted g Hg) as (emitted & m & _ & Hinv & _).
  pose proof (kahn_final_acyclic g m emitted Hg Hinv Hac) as Hlen.
  pose proof (kahn_final_perm g m emitted Hinv Hlen) as Hperm.
  pose proof (kahn_final_NoDup g m emitted Hinv) as Hnd.
  assert (∀ x, x ∈ emitted ↔ x ∈ _nodes g) as Hin
    by (intros x; by rewrite Hperm, elem_of_elements).
  assert (1 < length emitted) as Hlong
    by (apply (two_elements_length _ o n); [by apply Hin|by apply Hin|done]).
  (* a node all of whose successors in the order are [o] is a head *)
  assert (∀ i h, emitted !! i = Some h →
            (∀ j z, i < j → emitted !! j = Some z → z = o) →
            h ∈ find_heads g) as Hhead.
  { intros i h Hi Hafter. apply elem_of_find_heads.
    split; [by eapply Hin, list_elem_of_lookup_2|].
    apply set_eq. intros z. split; [|set_solver]. intros Hz. exfalso.
    apply reachable_mirror in Hz; [|done].
    assert (z ∈ emitted) as (j & Hj)%list_elem_of_lookup
      by (by eapply Hin, deps_source_node).
    destruct (kahn_final_before g m emitted Hg Hinv j z h Hj Hz) as (i' & Hlt & Hi').
    assert (i' = i) as -> by (eapply NoDup_lookup; eauto).
    rewrite (Hafter j z Hlt Hj) in Hz. rewrite Hodeps in Hz. set_solver. }
  assert (o ∈ find_heads g) as Hohead by (by apply elem_of_find_heads).
  destruct (lookup_lt_is_Some_2 emitted (length emitted - 1)) as [x Hx]; [lia|].
  destruct (decide (x = o)) as [->|Hxo].
  - destruct (lookup_lt_is_Some_2 emitted (length emitted - 2)) as [y Hy]; [lia|].
    assert (y ≠ o) as Hyo.
    { intros ->. assert (length emitted - 2 = length emitted - 1)
        by (eapply NoDup_lookup; eauto). lia. }
    apply (two_elements_length _ o y); [done| |done].
    apply (Hhead _ _ Hy). intros j z Hj Hz.
    assert (j = length emitted - 1) as ->
      by (apply lookup_lt_Some in Hz; lia).
    congruence.
  - apply (two_elements_length _ o x); [done| |done].
    apply (Hhead _ _ Hx). intros j z Hj Hz. apply lookup_lt_Some in Hz. lia.
Qed.

Lemma single_node_graph g n :
  reachable g → _nodes g = {[n]} → deps_of g n = ∅ →
  acyclic g ∧ find_heads g = [n] ∧ find_orphans g = [n].
Proof.
  intros Hg Hnodes Hdeps.
  assert (dependents_of g n = ∅) as Hdependents.
  { apply set_eq. intros x. split; [|set_solver]. intros Hx.
    apply reachable_mirror in Hx; [|done].
    assert (x = n) as -> by (apply deps_source_node in Hx; set_solver).
    set_solver. }
  assert (∀ x y, y ∈ deps_of g x → False) as Hnone.
  { intros x y Hy.
    assert (x = n) as -> by (apply deps_source_node in Hy; set_solver).
    set_solver. }
  split_and!.
  - intros (x & Hx). inversion Hx as [? ? Hxy|? y ? Hxy _]; by eapply Hnone.
  - assert (n ∈ find_heads g) as Hh by (apply elem_of_find_heads; set_solver).
    revert Hh. unfold find_heads. rewrite Hnodes, elements_singleton.
    rewrite filter_cons. case_decide; [|by intros ?%elem_of_sorted%elem_of_nil].
    intros _. by rewrite filter_nil, sorted_singleton.
  - assert (n ∈ find_orphans g) as Hh by (apply elem_of_find_orphans; set_solver).
    revert Hh. unfold find_orphans. rewrite Hnodes, elements_singleton.
    rewrite filter_cons. case_decide; [|by intros ?%elem_of_sorted%elem_of_nil].
    intros _. by rewrite filter_nil, sorted_singleton.
Qed.

Lemma existsb_app {A} (f : A → bool) (l1 l2 : list A) :
  existsb f (l1 ++ l2) = existsb f l1 || existsb f l2.
Proof. induction l1 as [|x l1 IH]; simpl; [done|]. by rewrite IH, orb_assoc. Qed.

Lemma existsb_fmap_const {A B} (f : B → bool) (h : A → B) (b : bool) (l : list A) :
  (∀ x, f (h x) = b) → existsb f (h <$> l) = b && bool_decide (l ≠ []).
Proof.
  intros Hf. induction l as [|x l IH]; csimpl; [by rewrite andb_false_r|].
  rewrite Hf, IH. by destruct b.
Qed.

Lemma analyze_reachable g :
  reachable g →
  ∃ paths,
    detect_cycles g = Ok paths
    ∧ (paths = [] ↔ acyclic g)
    ∧ analyze g
      = Ok ((if decide (1 < length (find_heads g))
             then [multiple_heads_issue (find_heads g)] else [])
            ++ (cycle_issue <$> paths)
            ++ (if decide (find_orphans g ≠ [])
                then [orphan_issue (find_orphans g)] else [])).
Proof.
  intros Hg. destruct (detect_cycles_spec g Hg) as (paths & Hrun & _ & _ & _).
  pose proof (detect_cycles_empty_iff_acyclic_aux g Hg) as Hacyclic.
  rewrite Hrun in Hacyclic.
  exists paths. split; [done|]. split; [rewrite <- Hacyclic; naive_solver|].
  unfold analyze, detect_multiple_heads. rewrite Hrun. simpl.
  rewrite (missing_dependencies_reachable g Hg). simpl. rewrite app_nil_r. f_equal.
  destruct (decide (1 < length (find_heads g))) as [Hh|Hh].
  - destruct (decide (find_heads g ≠ [])) as [_|Hnil].
    + destruct (decide (find_orphans g ≠ [])); by rewrite <- ?app_assoc, ?app_nil_r.
    + exfalso. destruct (find_heads g); [simpl in Hh; lia|by apply Hnil].
  - destruct (decide ([] ≠ [])) as [?|_]; [done|].
    destruct (decide (find_orphans g ≠ [])); by rewrite <- ?app_assoc, ?app_nil_r.
Qed.

(** [check] never raises.  Its exit code is 2 exactly when the graph of the
    migrations has more than one head or a dependency cycle; it is 1
    exactly when the graph is a single node without edges (which is then
    reported as an orphan); in every other case it is 0. *)
Theorem run_check_exit_code (migrations : list Adapters.MigrationInfo) :
  let g := _build_graph migrations in
  ∃ r,
    Engine.run_check migrations = Ok r
    ∧ CheckResult.heads r = find_heads g
    ∧ CheckResult.roots r = find_roots g
    ∧ (CheckResult.exit_code r = 2%Z ↔ 1 < length (find_heads g) ∨ ¬ acyclic g)
    ∧ (CheckResult.exit_code r = 1%Z ↔ ∃ n, _nodes g = {[n]} ∧ deps_of g n = ∅)
    ∧ (CheckResult.exit_code r = 0%Z
       ↔ ¬ (1 < length (find_heads g) ∨ ¬ acyclic g)
         ∧ ¬ ∃ n, _nodes g = {[n]} ∧ deps_of g n = ∅).
Proof.
  intros g. pose proof (reachable_build_graph migrations) as Hg. fold g in Hg.
  destruct (analyze_reachable g Hg) as (paths & Hrun & Hpaths & Hanalyze).
  unfold Engine.run_check. fold g. rewrite Hanalyze. simpl.
  eexists. split; [done|]. split; [done|]. split; [done|].
  unfold CheckResult.exit_code, CheckResult.has_critical, CheckResult.has_warnings.
  simpl. set (issues := _ ++ _ ++ _).
  assert (existsb (λ i, bool_decide (severity i = "critical")) issues = true
          ↔ 1 < length (find_heads g) ∨ ¬ acyclic g) as Hcrit.
  { subst issues. rewrite <- Hpaths, !existsb_app.
    rewrite (existsb_fmap_const _ cycle_issue true) by done.
    rewrite !orb_true_iff, andb_true_iff, bool_decide_eq_true.
    destruct (decide (1 < length (find_heads g))),
      (decide (find_orphans g ≠ [])); simpl; naive_solver. }
  assert (existsb (λ i, bool_decide (severity i = "warning")) issues = true
          ↔ find_orphans g ≠ []) as Hwarn.
  { subst issues. rewrite !existsb_app.
    rewrite (existsb_fmap_const _ cycle_issue false) by done.
    rewrite !orb_true_iff, andb_true_iff.
    destruct (decide (1 < length (find_heads g))),
      (decide (find_orphans g ≠ [])); simpl; naive_solver. }
  assert ((¬ (1 < length (find_heads g) ∨ ¬ acyclic g) ∧ find_orphans g ≠ [])
          ↔ ∃ n, _nodes g = {[n]} ∧ deps_of g n = ∅) as Hsingle.
  { split.
    - intros [Hok Horph].
      assert (acyclic g) as Hac.
      { apply Hpaths. destruct paths; [done|]. exfalso. apply Hok. right.
        intros Hac%Hpaths. done. }
      destruct (find_orphans g) as [|o os] eqn:Ho; [done|].
      assert (o ∈ find_orphans g) as Hoin by (rewrite Ho; left).
      exists o. apply elem_of_find_orphans in Hoin as Hoin'.
      destruct Hoin' as (Hon & Hod & _). split; [|done].
      apply set_eq. intros n. rewrite elem_of_singleton. split; [|by intros ->].
      intros Hn. destruct (decide (n = o)) as [|Hne]; [done|]. exfalso.
      apply Hok. left. by eapply orphan_two_heads.
    - intros (n & Hnodes & Hdeps).
      destruct (single_node_graph g n Hg Hnodes Hdeps) as (Hac & Hheads & Horph).
      rewrite Hheads, Horph. simpl. split; [|done]. intros [?|?]; [lia|done]. }
  rewrite <- Hsingle, <- Hcrit, <- Hwarn.
  destruct (existsb _ issues), (existsb _ issues); split_and!; split; naive_solver.
Qed.

(** ** The lint rules *)

Lemma foldl_Forall_step {A B} (P : B → Prop) (step : list B → A → list B)
    (l : list A) (vs : list B) :
  (∀ vs x, Forall P vs → Forall P (step vs x)) →
  Forall P vs → Forall P (foldl step vs l).
Proof.
  intros Hstep. revert vs. induction l as [|x l IH]; intros vs Hvs; simpl; [done|].
  by apply IH, Hstep.
Qed.

Lemma line_no_bounds (content : string) (start : nat) :
  (1 ≤ NonNullRule.line_no (String.list_ascii_of_string content) start
     ≤ line_count content)%Z.
Proof.
  unfold NonNullRule.line_no, line_count.
  set (l := String.list_ascii_of_string content).
  assert (length (filter (λ c, c = "010"%char) (take start l))
          ≤ length (filter (λ c, c = "010"%char) l)) as Hle.
  { rewrite <- (take_drop start l) at 2. rewrite filter_app, length_app. lia. }
  lia.
Qed.

Lemma drop_table_file_violation m line msg :
  (1 ≤ line ≤ line_count (Adapters.sql_content m))%Z →
  file_violation Engine.DropTable m (DropTableRule.violation m line msg).
Proof. intros. split_and!; try done. by exists line. Qed.

Lemma drop_column_file_violation m line msg :
  (1 ≤ line ≤ line_count (Adapters.sql_content m))%Z →
  file_violation Engine.DropColumn m (DropColumnRule.violation m line msg).
Proof. intros. split_and!; try done. by exists line. Qed.

Lemma non_null_file_violation m line msg :
  (1 ≤ line ≤ line_count (Adapters.sql_content m))%Z →
  file_violation Engine.NonNull m (NonNullRule._make_violation m line msg).
Proof. intros. split_and!; try done. by exists line. Qed.

Lemma type_change_file_violation m line msg :
  (1 ≤ line ≤ line_count (Adapters.sql_content m))%Z →
  file_violation Engine.TypeChange m (TypeChangeRule._make_violation m line msg).
Proof. intros. split_and!; try done. by exists line. Qed.

Lemma evaluate_file_violations (rule : Engine.Rule) (m : Adapters.MigrationInfo) :
  Forall (file_violation rule m) (Engine.evaluate rule m).
Proof.
  pose proof (line_no_bounds (Adapters.sql_content m)) as Hline.
  destruct rule; simpl.
  - unfold DropTableRule.evaluate. apply foldl_Forall_step; [|done].
    intros vs [pattern msg] Hvs. apply foldl_Forall_step; [|done].
    intros vs' [start len] Hvs'. apply Forall_app. split; [done|].
    constructor; [|done]. by apply drop_table_file_violation.
  - unfold DropColumnRule.evaluate. apply foldl_Forall_step; [|done].
    intros vs [pattern msg] Hvs. apply foldl_Forall_step; [|done].
    intros vs' [start len] Hvs'. apply Forall_app. split; [done|].
    constructor; [|done]. by apply drop_column_file_violation.
  - unfold NonNullRule.evaluate, NonNullRule._check_alembic_add_column,
      NonNullRule._check_django_add_field.
    apply foldl_Forall_step.
    { intros vs [start len] Hvs. destruct (Re.search _ _); [|done].
      apply Forall_app. split; [done|].
      constructor; [|done]. by apply non_null_file_violation. }
    apply foldl_Forall_step.
    { intros vs [start len] Hvs. destruct (_ && _); [|done].
      apply Forall_app. split; [done|].
      constructor; [|done]. by apply non_null_file_violation. }
    apply Forall_fmap, Forall_forall. intros [start len] _.
    by apply non_null_file_violation.
  - unfold TypeChangeRule.evaluate.
    apply foldl_Forall_step.
    { intros vs [start len] Hvs. destruct (ReAlt.search _ _); [|done].
      apply Forall_app. split; [done|].
      constructor; [|done]. by apply type_change_file_violation. }
    apply foldl_Forall_step.
    { intros vs [start len] Hvs. apply Forall_app. split; [done|].
      constructor; [|done]. by apply type_change_file_violation. }
    apply Forall_fmap, Forall_forall. intros [start len] _.
    by apply type_change_file_violation.
  - constructor.
Qed.

Lemma foldl_extend {A B} (h : A → list B) (l : list A) (vs : list B) :
  foldl (λ vs x, vs ++ h x) vs l = vs ++ (l ≫= h).
Proof.
  revert vs. induction l as [|x l IH]; intros vs; csimpl; [by rewrite app_nil_r|].
  by rewrite IH, app_assoc.
Qed.

Lemma lint_fold (rules : list Engine.Rule) (migrations : list Adapters.MigrationInfo)
    (g : MigrationGraph) (vs : list Rules.RuleViolation) :
  foldl
    (λ violations rule,
       let violations :=
         foldl (λ violations m, violations ++ Engine.evaluate rule m) violations migrations in
       if decide (rule = Engine.MultipleHeads)
       then violations ++ MultipleHeadsRule.evaluate_graph g
       else violations)
    vs rules
  = vs ++ (rules ≫= λ rule,
             (migrations ≫= Engine.evaluate rule)
             ++ (if decide (rule = Engine.MultipleHeads)
                 then MultipleHeadsRule.evaluate_graph g else [])).
Proof.
  revert vs. induction rules as [|rule rules IH]; intros vs; csimpl.
  - by rewrite app_nil_r.
  - rewrite IH, foldl_extend. case_decide; by rewrite <- ?app_assoc, ?app_nil_r.
Qed.

Lemma run_lint_violations settings migrations :
  LintResult.violations (Engine.run_lint settings migrations)
  = Engine._build_rules settings ≫= λ rule,
      (migrations ≫= Engine.evaluate rule)
      ++ (if decide (rule = Engine.MultipleHeads)
          then MultipleHeadsRule.evaluate_graph (_build_graph migrations) else []).
Proof. unfold Engine.run_lint. simpl. by rewrite lint_fold. Qed.

Lemma elem_of_build_rules settings rule :
  rule ∈ Engine._build_rules settings ↔ rule_enabled settings rule = true.
Proof.
  unfold Engine._build_rules, rule_enabled.
  destruct (Settings.allow_drop_table _), (Settings.allow_drop_column _),
    (Settings.require_two_step_non_null _), rule; simpl;
    rewrite ?elem_of_cons, ?elem_of_nil; naive_solver.
Qed.

Lemma build_rules_NoDup settings : NoDup (Engine._build_rules settings).
Proof.
  unfold Engine._build_rules.
  destruct (Settings.allow_drop_table _), (Settings.allow_drop_column _),
    (Settings.require_two_step_non_null _); simpl;
    repeat (constructor; [rewrite ?elem_of_cons, ?elem_of_nil; naive_solver|]);
    constructor.
Qed.

Lemma evaluate_graph_spec g :
  MultipleHeadsRule.evaluate_graph g = []
  ∨ (1 < length (find_heads g)
     ∧ ∃ v, MultipleHeadsRule.evaluate_graph g = [v]
            ∧ Rules.rule_id v = "multiple-heads"
            ∧ Rules.severity v = Rules.CRITICAL
            ∧ Rules.file_path v = "<migration-graph>"
            ∧ Rules.line_hint v = None).
Proof.
  unfold MultipleHeadsRule.evaluate_graph, detect_multiple_heads.
  destruct (decide (1 < length (find_heads g))) as [Hh|Hh].
  - right. split; [done|]. rewrite decide_False.
    + eexists. split; [done|]. done.
    + intros Heq. rewrite Heq in Hh. simpl in Hh. lia.
  - left. by rewrite decide_True.
Qed.

Lemma evaluate_graph_nil g :
  MultipleHeadsRule.evaluate_graph g = [] ↔ ¬ 1 < length (find_heads g).
Proof.
  unfold MultipleHeadsRule.evaluate_graph, detect_multiple_heads.
  destruct (decide (1 < length (find_heads g))) as [Hh|Hh].
  - rewrite decide_False; [done|].
    intros Heq. rewrite Heq in Hh. simpl in Hh. lia.
  - by rewrite decide_True.
Qed.

Lemma lint_violation_source settings migrations v :
  v ∈ LintResult.violations (Engine.run_lint settings migrations)
  ↔ (∃ rule m, rule_enabled settings rule = true ∧ m ∈ migrations
               ∧ v ∈ Engine.evaluate rule m)
    ∨ v ∈ MultipleHeadsRule.evaluate_graph (_build_graph migrations).
Proof.
  rewrite run_lint_violations, list_elem_of_bind. split.
  - intros (rule & Hv & Hrule%elem_of_build_rules).
    apply elem_of_app in Hv as [(m & Hv & Hm)%list_elem_of_bind|Hv].
    + left. by exists rule, m.
    + right. case_decide; [done|by apply elem_of_nil in Hv].
  - intros [(rule & m & Hrule & Hm & Hv)|Hv].
    + exists rule. split; [|by apply elem_of_build_rules].
      apply elem_of_app. left. apply list_elem_of_bind. by exists m.
    + exists Engine.MultipleHeads. split; [|by apply elem_of_build_rules].
      apply elem_of_app. right. by rewrite decide_True.
Qed.

Lemma lint_violation_origin
    (settings : Settings.MigrationIQSettings)
    (migrations : list Adapters.MigrationInfo) (v : Rules.RuleViolation) :
  v ∈ LintResult.violations (Engine.run_lint settings migrations) →
  ∃ rule,
    rule_enabled settings rule = true
    ∧ Rules.rule_id v = Engine.rule_id rule
    ∧ Rules.severity v = rule_severity rule
    ∧ ((rule = Engine.MultipleHeads
        ∧ 1 < length (find_heads (_build_graph migrations))
        ∧ Rules.file_path v = "<migration-graph>"
        ∧ Rules.line_hint v = None)
       ∨ (rule ≠ Engine.MultipleHeads
          ∧ ∃ m, m ∈ migrations ∧ file_violation rule m v)).
Proof.
  rewrite run_lint_violations. intros (rule & Hv & Hrule)%list_elem_of_bind.
  exists rule. split; [by apply elem_of_build_rules|].
  apply elem_of_app in Hv as [(m & Hv & Hm)%list_elem_of_bind|Hv].
  - pose proof (evaluate_file_violations rule m) as Hall.
    rewrite Forall_forall in Hall. specialize (Hall v Hv).
    destruct Hall as (Hid & Hsev & Hrest). split; [done|]. split; [done|].
    right. split; [intros ->; by inversion Hv|].
    exists m. split; [done|]. exact (conj Hid (conj Hsev Hrest)).
  - case_decide as Hmh; [subst rule|by apply elem_of_nil in Hv].
    destruct (evaluate_graph_spec (_build_graph migrations))
      as [Hnil|(Hh & v' & Hv' & Hid & Hsev & Hpath & Hline)].
    + rewrite Hnil in Hv. by apply elem_of_nil in Hv.
    + rewrite Hv' in Hv. apply list_elem_of_singleton in Hv as ->.
      split; [done|]. split; [done|]. left. by split_and!.
Qed.

(** Every violation that [lint] returns comes from a rule that the settings
    enable and carries the id and the severity of that rule.  It is either
    the one violation of the multiple-heads rule, which names no file and
    no line and is there only when the graph has more than one head, or a
    violation for one of the migrations, with the path of its file and a
    line of it.  So [allow_drop_table] and [allow_drop_column] silence the
    two drop rules, and unsetting [require_two_step_non_null] silences the
    non-null rule. *)
Theorem lint_violations_come_from_enabled_rules
    (settings : Settings.MigrationIQSettings)
    (migrations : list Adapters.MigrationInfo) (v : Rules.RuleViolation) :
  v ∈ LintResult.violations (Engine.run_lint settings migrations) →
  ∃ rule,
    rule_enabled settings rule = true
    ∧ Rules.rule_id v = Engine.rule_id rule
    ∧ Rules.severity v = rule_severity rule
    ∧ ((rule = Engine.MultipleHeads
        ∧ 1 < length (find_heads (_build_graph migrations))
        ∧ Rules.file_path v = "<migration-graph>"
        ∧ Rules.line_hint v = None)
       ∨ (rule ≠ Engine.MultipleHeads
          ∧ ∃ m, m ∈ migrations ∧ file_violation rule m v)).
Proof. apply lint_violation_origin. Qed.

Lemma lint_violations_come_from_enabled_rules_witness :
  ∃ rule,
    rule_enabled Settings.default_settings rule = true
    ∧ Rules.rule_id (DropTableRule.violation (record "app.0002" [] "DROP TABLE b;") 1
                       "DROP TABLE statement found") = Engine.rule_id rule
    ∧ Rules.severity (DropTableRule.violation (record "app.0002" [] "DROP TABLE b;") 1
                        "DROP TABLE statement found") = rule_severity rule
    ∧ ((rule = Engine.MultipleHeads
        ∧ 1 < length (find_heads (_build_graph two_heads))
        ∧ Rules.file_path (DropTableRule.violation (record "app.0002" [] "DROP TABLE b;") 1
                             "DROP TABLE statement found") = "<migration-graph>"
        ∧ Rules.line_hint (DropTableRule.violation (record "app.0002" [] "DROP TABLE b;") 1
                             "DROP TABLE statement found") = None)
       ∨ (rule ≠ Engine.MultipleHeads
          ∧ ∃ m, m ∈ two_heads
                 ∧ file_violation rule m
                     (DropTableRule.violation (record "app.0002" [] "DROP TABLE b;") 1
                        "DROP TABLE statement found"))).
Proof.
  apply (lint_violations_come_from_enabled_rules Settings.default_settings two_heads).
  apply (list_elem_of_lookup_2 _ 0). reflexivity.
Defined.

(** ** The exit code of [lint] *)

Lemma existsb_elem_of {A} (f : A → bool) (l : list A) :
  existsb f l = true ↔ ∃ x, x ∈ l ∧ f x = true.
Proof.
  rewrite existsb_exists. by setoid_rewrite list_elem_of_In.
Qed.

Lemma lint_severity_iff settings migrations (sev : Rules.ViolationSeverity) :
  (∃ v, v ∈ LintResult.violations (Engine.run_lint settings migrations)
        ∧ Rules.severity v = sev)
  ↔ (∃ rule m, rule_enabled settings rule = true ∧ rule_severity rule = sev
               ∧ m ∈ migrations ∧ Engine.evaluate rule m ≠ [])
    ∨ (sev = Rules.CRITICAL ∧ 1 < length (find_heads (_build_graph migrations))).
Proof.
  split.
  - intros (v & [(rule & m & Hrule & Hm & Hv)|Hv]%lint_violation_source & Hsev).
    + left. exists rule, m. split_and!; try done.
      * pose proof (evaluate_file_violations rule m) as Hall.
        rewrite Forall_forall in Hall. destruct (Hall v Hv) as (_ & Hs & _).
        congruence.
      * intros Hnil. rewrite Hnil in Hv. by apply elem_of_nil in Hv.
    + right.
      destruct (evaluate_graph_spec (_build_graph migrations))
        as [Hnil|(Hh & v' & Hv' & _ & Hs & _)].
      * rewrite Hnil in Hv. by apply elem_of_nil in Hv.
      * rewrite Hv' in Hv. apply list_elem_of_singleton in Hv as ->.
        split; [congruence|done].
  - intros [(rule & m & Hrule & Hsev & Hm & Hne)|[-> Hh]].
    + destruct (Engine.evaluate rule m) as [|v vs] eqn:Hev; [done|].
      assert (v ∈ Engine.evaluate rule m) as Hv by (rewrite Hev; left).
      exists v. split.
      * apply lint_violation_source. left. by exists rule, m.
      * pose proof (evaluate_file_violations rule m) as Hall.
        rewrite Forall_forall in Hall. destruct (Hall v Hv) as (_ & Hs & _).
        congruence.
    + destruct (evaluate_graph_spec (_build_graph migrations))
        as [Hnil|(_ & v & Hv & _ & Hs & _)].
      * apply evaluate_graph_nil in Hnil. done.
      * exists v. split; [|done]. apply lint_violation_source. right.
        rewrite Hv. left.
Qed.

(** [lint] exits with 2 exactly when the drop-table rule is enabled and
    finds something in a migration, or the graph has more than one head;
    otherwise with 1 exactly when the drop-column rule or the non-null rule
    is enabled and finds something; otherwise with 0.  What the type-change
    rule finds never changes the exit code. *)
Theorem run_lint_exit_code (settings : Settings.MigrationIQSettings)
    (migrations : list Adapters.MigrationInfo) :
  let found rule :=
    rule_enabled settings rule = true
    ∧ ∃ m, m ∈ migrations ∧ Engine.evaluate rule m ≠ [] in
  let critical :=
    found Engine.DropTable ∨ 1 < length (find_heads (_build_graph migrations)) in
  let errors := found Engine.DropColumn ∨ found Engine.NonNull in
  let code := LintResult.exit_code (Engine.run_lint settings migrations) in
  (code = 2%Z ↔ critical)
  ∧ (code = 1%Z ↔ ¬ critical ∧ errors)
  ∧ (code = 0%Z ↔ ¬ critical ∧ ¬ errors).
Proof.
  intros found critical errors code.
  assert (LintResult.has_critical (Engine.run_lint settings migrations) = true
          ↔ critical) as Hcrit.
  { unfold LintResult.has_critical. rewrite existsb_elem_of.
    setoid_rewrite bool_decide_eq_true. rewrite lint_severity_iff.
    subst critical found. simpl. split.
    - intros [(rule & m & Hrule & Hsev & Hm & Hne)|[_ Hh]]; [|by right].
      destruct rule; try done. left. eauto.
    - intros [(Hrule & m & Hm & Hne)|Hh]; [left|by right].
      by exists Engine.DropTable, m. }
  assert (LintResult.has_errors (Engine.run_lint settings migrations) = true
          ↔ errors) as Herr.
  { unfold LintResult.has_errors. rewrite existsb_elem_of.
    setoid_rewrite bool_decide_eq_true. rewrite lint_severity_iff.
    subst errors found. simpl. split.
    - intros [(rule & m & Hrule & Hsev & Hm & Hne)|[? _]]; [|done].
      destruct rule; try done; [left|right]; eauto.
    - intros [(Hrule & m & Hm & Hne)|(Hrule & m & Hm & Hne)]; left.
      + by exists Engine.DropColumn, m.
      + by exists Engine.NonNull, m. }
  subst code. unfold LintResult.exit_code. rewrite <- Hcrit, <- Herr.
  destruct (LintResult.has_critical _), (LintResult.has_errors _);
    split_and!; split; naive_solver.
Qed.

(** ** The risk report of [ready] *)

Section ready.

Lemma new_scorer_none_weights : RiskScoring.weights (RiskScoring.new_scorer None) = RiskScoring.DEFAULT_WEIGHTS.
Proof. unfold RiskScoring.new_scorer; simpl. by rewrite (left_id_L ∅ (∪)). Qed.

Lemma default_weights_nonempty : RiskScoring.DEFAULT_WEIGHTS ≠ ∅.
Proof. rewrite <- new_scorer_none_weights. apply new_scorer_weights_nonempty. Qed.

Lemma scorer_fold_total {A} (c d f : A → string) (l : list A) (s : RiskScoring.RiskScorer) :
  RiskScoring.weights s ≠ ∅ →
  RiskScoring.weights (foldl (λ s x, RiskScoring.add_finding s (c x) (d x) (f x)) s l) = RiskScoring.weights s
  ∧ RiskScoring.total_score (RiskScoring.report (foldl (λ s x, RiskScoring.add_finding s (c x) (d x) (f x)) s l))
    = (RiskScoring.total_score (RiskScoring.report s)
       + foldr Z.add 0 ((λ x, default 5 (RiskScoring.weights s !! c x)) <$> l))%Z.
Proof.
  revert s. induction l as [|x l IH]; intros s Hne; csimpl; [split; [done|lia]|].
  destruct (IH (RiskScoring.add_finding s (c x) (d x) (f x)) Hne) as [Hw ->].
  split; [done|].
  destruct (add_finding_total_score s (c x) (d x) (f x)) as [->|?]; [|done].
  simpl. lia.
Qed.

Lemma foldl_conditional {A B} (P : A → Prop) `{∀ x, Decision (P x)}
    (step : B → A → B) (l : list A) (b : B) :
  foldl (λ b x, if decide (P x) then step b x else b) b l = foldl step b (filter P l).
Proof.
  revert b. induction l as [|x l IH]; intros b; [done|].
  rewrite filter_cons. simpl. destruct (decide (P x)); simpl; apply IH.
Qed.

Lemma build_rules_front settings :
  ∃ front, Engine._build_rules settings = front ++ [Engine.MultipleHeads]
           ∧ Forall (λ rule, rule ≠ Engine.MultipleHeads) front.
Proof.
  unfold Engine._build_rules.
  destruct (Settings.allow_drop_table _), (Settings.allow_drop_column _),
    (Settings.require_two_step_non_null _); simpl;
    match goal with |- ∃ _, ?l = _ ∧ _ => exists (List.removelast l) end;
    (split; [reflexivity|]); simpl; repeat constructor; done.
Qed.

Lemma run_lint_split settings migrations :
  ∃ files,
    LintResult.violations (Engine.run_lint settings migrations)
    = files ++ MultipleHeadsRule.evaluate_graph (_build_graph migrations)
    ∧ Forall (λ v, ∃ rule, rule ≠ Engine.MultipleHeads
                           ∧ Rules.rule_id v = Engine.rule_id rule) files.
Proof.
  rewrite run_lint_violations.
  destruct (build_rules_front settings) as (front & -> & Hfront).
  rewrite bind_app. csimpl. rewrite app_nil_r.
  eexists. rewrite app_assoc. split; [done|].
  apply Forall_app. split.
  - apply Forall_forall. intros v (rule & Hv & Hrule)%list_elem_of_bind.
    rewrite Forall_forall in Hfront. specialize (Hfront rule Hrule).
    rewrite decide_False, app_nil_r in Hv by done.
    apply list_elem_of_bind in Hv as (m & Hv & _).
    pose proof (evaluate_file_violations rule m) as Hall.
    rewrite Forall_forall in Hall. destruct (Hall v Hv) as (Hid & _).
    by exists rule.
  - apply Forall_forall. intros v (m & Hv & _)%list_elem_of_bind. by inversion Hv.
Qed.

Lemma count_rule_app rule vs1 vs2 :
  count_rule rule (vs1 ++ vs2) = (count_rule rule vs1 + count_rule rule vs2)%Z.
Proof. unfold count_rule. rewrite filter_app, length_app. lia. Qed.

Lemma rule_id_inj rule1 rule2 :
  Engine.rule_id rule1 = Engine.rule_id rule2 → rule1 = rule2.
Proof. by destruct rule1, rule2. Qed.

Lemma count_rule_cons rule v vs rule' :
  Rules.rule_id v = Engine.rule_id rule' →
  count_rule rule (v :: vs)
  = ((if decide (rule = rule') then 1 else 0) + count_rule rule vs)%Z.
Proof.
  intros Hid. unfold count_rule. rewrite filter_cons, Hid.
  destruct (decide (rule = rule')) as [->|Hne].
  - rewrite decide_True by done. simpl. lia.
  - rewrite decide_False; [lia|]. intros Heq%rule_id_inj. congruence.
Qed.

(** The score [run_ready] gives to a violation. *)
Lemma violation_score v rule :
  Rules.rule_id v = Engine.rule_id rule →
  default 5%Z (RiskScoring.DEFAULT_WEIGHTS
                 !! default (Rules.rule_id v) (Engine.category_map !! Rules.rule_id v))
  = rule_weight rule.
Proof. intros ->. by destruct rule. Qed.

Lemma violations_total (vs : list Rules.RuleViolation) :
  Forall (λ v, ∃ rule, Rules.rule_id v = Engine.rule_id rule) vs →
  foldr Z.add 0%Z
    ((λ v, default 5%Z
             (RiskScoring.DEFAULT_WEIGHTS
                !! default (Rules.rule_id v) (Engine.category_map !! Rules.rule_id v)))
     <$> vs)
  = (10 * count_rule Engine.DropTable vs + 8 * count_rule Engine.DropColumn vs
     + 7 * count_rule Engine.NonNull vs + 6 * count_rule Engine.TypeChange vs
     + 9 * count_rule Engine.MultipleHeads vs)%Z.
Proof.
  induction 1 as [|v vs (rule & Hid) _ IH]; csimpl; [done|].
  rewrite IH, (violation_score v rule Hid).
  rewrite !(count_rule_cons _ v vs rule Hid).
  destruct rule; simpl; repeat case_decide; try done; lia.
Qed.

Lemma count_multiple_heads settings migrations :
  count_rule Engine.MultipleHeads
    (LintResult.violations (Engine.run_lint settings migrations))
  = if decide (1 < length (find_heads (_build_graph migrations))) then 1%Z else 0%Z.
Proof.
  destruct (run_lint_split settings migrations) as (files & -> & Hfiles).
  rewrite count_rule_app.
  assert (count_rule Engine.MultipleHeads files = 0%Z) as ->.
  { unfold count_rule. rewrite (filter_nil_Forall _ files); [done|].
    eapply Forall_impl; [exact Hfiles|]. intros v (rule & Hne & Hid) Hmh.
    rewrite Hid in Hmh. by apply rule_id_inj in Hmh. }
  destruct (evaluate_graph_spec (_build_graph migrations))
    as [Hnil|(Hh & v & -> & Hid & _)].
  - rewrite Hnil. apply evaluate_graph_nil in Hnil. by rewrite decide_False.
  - rewrite decide_True by done.
    by rewrite (count_rule_cons _ v [] Engine.MultipleHeads Hid).
Qed.

Lemma lint_rule_ids settings migrations :
  Forall (λ v, ∃ rule, Rules.rule_id v = Engine.rule_id rule)
    (LintResult.violations (Engine.run_lint settings migrations)).
Proof.
  apply Forall_forall. intros v Hv.
  destruct (lint_violation_origin _ _ _ Hv) as (rule & _ & Hid & _). by exists rule.
Qed.

Lemma multiple_heads_issues g paths :
  filter (λ issue, issue_type issue = "multiple_heads")
    ((if decide (1 < length (find_heads g))
      then [multiple_heads_issue (find_heads g)] else [])
     ++ (cycle_issue <$> paths)
     ++ (if decide (find_orphans g ≠ []) then [orphan_issue (find_orphans g)] else []))
  = if decide (1 < length (find_heads g))
    then [multiple_heads_issue (find_heads g)] else [].
Proof.
  rewrite !filter_app.
  assert (filter (λ issue, issue_type issue = "multiple_heads") (cycle_issue <$> paths)
          = []) as ->.
  { apply filter_nil_Forall, Forall_fmap, Forall_forall. by intros p _. }
  destruct (decide (1 < length (find_heads g))), (decide (find_orphans g ≠ []));
    by rewrite ?filter_cons, ?filter_nil.
Qed.

Lemma run_ready_spec settings git migrations r :
  Engine.run_ready settings git migrations = Ok r →
  Engine.run_check migrations = Ok (ReadyResult.check r)
  ∧ ReadyResult.lint r = Engine.run_lint settings migrations
  ∧ ReadyResult.compare r
    = match Engine.run_compare settings git None with Ok c => Some c | _ => None end
  ∧ RiskScoring.total_score (ReadyResult.risk r)
    = (let violations := LintResult.violations (Engine.run_lint settings migrations) in
       10 * count_rule Engine.DropTable violations
       + 8 * count_rule Engine.DropColumn violations
       + 7 * count_rule Engine.NonNull violations
       + 6 * count_rule Engine.TypeChange violations
       + (if decide (1 < length (find_heads (_build_graph migrations)))%nat then 18 else 0)
       + match ReadyResult.compare r with
         | Some c => if BranchCompare.is_behind c then 5 else 0
         | None => 0
         end)%Z.
Proof.
  pose proof (reachable_build_graph migrations) as Hg.
  destruct (analyze_reachable _ Hg) as (paths & _ & _ & Hanalyze).
  assert (∃ check, Engine.run_check migrations = Ok check
                   ∧ CheckResult.graph_issues check
                     = (if decide (1 < length (find_heads (_build_graph migrations)))
                        then [multiple_heads_issue (find_heads (_build_graph migrations))]
                        else [])
                       ++ (cycle_issue <$> paths)
                       ++ (if decide (find_orphans (_build_graph migrations) ≠ [])
                           then [orphan_issue (find_orphans (_build_graph migrations))]
                           else [])) as (check & Hcheck & Hissues).
  { unfold Engine.run_check. rewrite Hanalyze. simpl. by eexists. }
  unfold Engine.run_ready. rewrite Hcheck.
  set (compared := Engine.run_compare settings git None).
  set (violations := LintResult.violations (Engine.run_lint settings migrations)).
  cbn [mbind res_bind].
  set (s1 := foldl _ (RiskScoring.new_scorer None) violations).
  set (s2 := foldl _ s1 (CheckResult.graph_issues check)).
  intros Hrun.
  (* the scores *)
  destruct (scorer_fold_total
              (λ v, default (Rules.rule_id v) (Engine.category_map !! Rules.rule_id v))
              Rules.message Rules.file_path violations (RiskScoring.new_scorer None))
    as [Hw1 Ht1]; [apply new_scorer_weights_nonempty|].
  fold s1 in Hw1, Ht1. rewrite new_scorer_none_weights in Hw1, Ht1.
  rewrite (violations_total violations (lint_rule_ids _ _)) in Ht1.
  unfold violations in Ht1 at 5. rewrite count_multiple_heads in Ht1.
  assert (RiskScoring.total_score (RiskScoring.report s2)
          = (RiskScoring.total_score (RiskScoring.report s1)
             + if decide (1 < length (find_heads (_build_graph migrations)))%nat
               then 9 else 0)%Z) as Ht2.
  { subst s2.
    rewrite (foldl_conditional (λ issue, issue_type issue = "multiple_heads")
               (λ scorer issue,
                  RiskScoring.add_finding scorer "multiple_heads" (description issue) "")).
    rewrite Hissues, multiple_heads_issues.
    destruct (decide (1 < length (find_heads (_build_graph migrations)))); cbn [foldl]; [|lia].
    destruct (add_finding_total_score s1 "multiple_heads"
                (description (multiple_heads_issue (find_heads (_build_graph migrations))))
                "") as [->|Hempty].
    - by rewrite Hw1.
    - rewrite Hw1 in Hempty. by destruct default_weights_nonempty. }
  assert (RiskScoring.weights s2 = RiskScoring.DEFAULT_WEIGHTS) as Hw2.
  { subst s2.
    rewrite (foldl_conditional (λ issue, issue_type issue = "multiple_heads")
               (λ scorer issue,
                  RiskScoring.add_finding scorer "multiple_heads" (description issue) "")).
    destruct (scorer_fold_total (λ _, "multiple_heads") description (λ _, "")
                (filter (λ issue, issue_type issue = "multiple_heads")
                   (CheckResult.graph_issues check)) s1) as [-> _]; [|done].
    rewrite Hw1. apply default_weights_nonempty. }
  assert (RiskScoring.total_score (RiskScoring.report (RiskScoring.new_scorer None)) = 0%Z) as Ht0 by done.
  destruct compared as [c| |] eqn:Hcompared; simplify_eq/=.
  - split_and!; try done.
    destruct (BranchCompare.is_behind c).
    + destruct (add_finding_total_score s2 "branch_behind_target"
                  ("Branch is " +:+ pretty (BranchCompare.commits_behind c)
                   +:+ " commits behind target") "") as [->|Hempty].
      * rewrite Hw2, Ht2, Ht1, Ht0.
        destruct (decide (1 < length (find_heads (_build_graph migrations)))).
        -- change (default 5 (RiskScoring.DEFAULT_WEIGHTS !! "branch_behind_target"))%Z with 5%Z. lia.
        -- change (default 5 (RiskScoring.DEFAULT_WEIGHTS !! "branch_behind_target"))%Z with 5%Z. lia.
      * rewrite Hw2 in Hempty. by destruct default_weights_nonempty.
    + rewrite Ht2, Ht1, Ht0.
      destruct (decide (1 < length (find_heads (_build_graph migrations)))); lia.
  - split_and!; try done. rewrite Ht2, Ht1, Ht0.
    destruct (decide (1 < length (find_heads (_build_graph migrations)))); lia.
Qed.

End ready.

Section ready_results.

(** The risk total of [ready] counts 10 for every drop-table violation of
    the lint result, 8 for every drop-column violation, 7 for every
    non-null violation, 6 for every type-change violation, 18 when the
    graph has more than one head (the condition is scored twice: as a lint
    violation and as a graph issue), and 5 when the branch is behind its
    target. *)
Theorem run_ready_risk_total (settings : Settings.MigrationIQSettings)
    (git : Git.GitClient) (migrations : list Adapters.MigrationInfo)
    (r : ReadyResult.t) :
  Engine.run_ready settings git migrations = Ok r →
  RiskScoring.total_score (ReadyResult.risk r)
  = (10 * count_rule Engine.DropTable (LintResult.violations (ReadyResult.lint r))
     + 8 * count_rule Engine.DropColumn (LintResult.violations (ReadyResult.lint r))
     + 7 * count_rule Engine.NonNull (LintResult.violations (ReadyResult.lint r))
     + 6 * count_rule Engine.TypeChange (LintResult.violations (ReadyResult.lint r))
     + (if decide (1 < length (find_heads (_build_graph migrations)))%nat then 18 else 0)
     + match ReadyResult.compare r with
       | Some c => if BranchCompare.is_behind c then 5 else 0
       | None => 0
       end)%Z.
Proof.
  intros Hrun. destruct (run_ready_spec _ _ _ _ Hrun) as (_ & -> & _ & ->). done.
Qed.

Lemma run_ready_risk_total_witness :
  ∃ r,
    Engine.run_ready Settings.default_settings diverged_git two_heads = Ok r
    ∧ RiskScoring.total_score (ReadyResult.risk r)
      = (10 * count_rule Engine.DropTable (LintResult.violations (ReadyResult.lint r))
         + 8 * count_rule Engine.DropColumn (LintResult.violations (ReadyResult.lint r))
         + 7 * count_rule Engine.NonNull (LintResult.violations (ReadyResult.lint r))
         + 6 * count_rule Engine.TypeChange (LintResult.violations (ReadyResult.lint r))
         + (if decide (1 < length (find_heads (_build_graph two_heads)))%nat then 18 else 0)
         + match ReadyResult.compare r with
           | Some c => if BranchCompare.is_behind c then 5 else 0
           | None => 0
           end)%Z.
Proof.
  eexists. split; [by vm_compute|].
  apply (run_ready_risk_total Settings.default_settings diverged_git two_heads).
  by vm_compute.
Defined.

Lemma run_ready_returns settings git migrations :
  Engine.run_compare settings git None ≠ OutOfFuel →
  ∃ r, Engine.run_ready settings git migrations = Ok r.
Proof.
  intros Hcompare.
  pose proof (reachable_build_graph migrations) as Hg.
  destruct (analyze_reachable _ Hg) as (paths & _ & _ & Hanalyze).
  unfold Engine.run_ready, Engine.run_check. rewrite Hanalyze. cbn [mbind res_bind].
  destruct (Engine.run_compare settings git None); [by eexists|by eexists|done].
Qed.

(** [ready] does not fail when the branch comparison fails: an error
    raised by [run_compare] is dropped, the result has no comparison, and
    the check and lint results are those of [run_check] and [run_lint].
    When the comparison returns a report, the result carries it. *)
Theorem run_ready_survives_compare_failure (settings : Settings.MigrationIQSettings)
    (git : Git.GitClient) (migrations : list Adapters.MigrationInfo) :
  (∀ e, Engine.run_compare settings git None = Raise e →
        ∃ r, Engine.run_ready settings git migrations = Ok r
             ∧ ReadyResult.compare r = None
             ∧ Engine.run_check migrations = Ok (ReadyResult.check r)
             ∧ ReadyResult.lint r = Engine.run_lint settings migrations)
  ∧ (∀ c, Engine.run_compare settings git None = Ok c →
          ∃ r, Engine.run_ready settings git migrations = Ok r
               ∧ ReadyResult.compare r = Some c
               ∧ Engine.run_check migrations = Ok (ReadyResult.check r)
               ∧ ReadyResult.lint r = Engine.run_lint settings migrations).
Proof.
  split.
  - intros e He.
    destruct (run_ready_returns settings git migrations) as [r Hr]; [by rewrite He|].
    exists r. split; [done|].
    destruct (run_ready_spec _ _ _ _ Hr) as (Hcheck & Hlint & Hcompare & _).
    rewrite He in Hcompare. done.
  - intros c Hc.
    destruct (run_ready_returns settings git migrations) as [r Hr]; [by rewrite Hc|].
    exists r. split; [done|].
    destruct (run_ready_spec _ _ _ _ Hr) as (Hcheck & Hlint & Hcompare & _).
    rewrite Hc in Hcompare. done.
Qed.

Lemma run_ready_survives_compare_failure_witness :
  ∃ r, Engine.run_ready Settings.default_settings failing_fetch_git two_heads = Ok r
       ∧ ReadyResult.compare r = None
       ∧ Engine.run_check two_heads = Ok (ReadyResult.check r)
       ∧ ReadyResult.lint r = Engine.run_lint Settings.default_settings two_heads.
Proof.
  apply (proj1 (run_ready_survives_compare_failure
                  Settings.default_settings failing_fetch_git two_heads)
           (GitError "fetch" "fatal: unable to access remote" 128)).
  reflexivity.
Defined.

Lemma check_exit_code_range (r : CheckResult.t) :
  (0 ≤ CheckResult.exit_code r ≤ 2)%Z.
Proof.
  unfold CheckResult.exit_code.
  destruct (CheckResult.has_critical r), (CheckResult.has_warnings r); lia.
Qed.

Lemma lint_exit_code_range (r : LintResult.t) :
  (0 ≤ LintResult.exit_code r ≤ 2)%Z.
Proof.
  unfold LintResult.exit_code.
  destruct (LintResult.has_critical r), (LintResult.has_errors r); lia.
Qed.

Lemma count_rule_nonneg rule vs : (0 ≤ count_rule rule vs)%Z.
Proof. unfold count_rule. lia. Qed.

Lemma count_rule_total (vs : list Rules.RuleViolation) :
  Forall (λ v, ∃ rule, Rules.rule_id v = Engine.rule_id rule) vs →
  (count_rule Engine.DropTable vs + count_rule Engine.DropColumn vs
   + count_rule Engine.NonNull vs + count_rule Engine.TypeChange vs
   + count_rule Engine.MultipleHeads vs)%Z
  = Z.of_nat (length vs).
Proof.
  induction 1 as [|v vs (rule & Hid) _ IH]; [done|].
  rewrite !(count_rule_cons _ v vs rule Hid). simpl length.
  destruct rule; repeat case_decide; try done; lia.
Qed.

(** [protect] uses the threshold it is given, or the one of the settings.
    Its exit code is 2 exactly when [check] or [lint] exit with 2 or the
    risk total is above the threshold, and else the larger of the two exit
    codes.  So with a threshold below 8 (the default is 7) one drop-table
    or drop-column violation is enough for exit code 2, and with a
    threshold below 12 any two lint violations are. *)
Theorem run_protect_exit_code (settings : Settings.MigrationIQSettings)
    (git : Git.GitClient) (migrations : list Adapters.MigrationInfo)
    (threshold : option Z) (p : ProtectResult.t) :
  Engine.run_protect settings git migrations threshold = Ok p →
  let violations := LintResult.violations (ProtectResult.lint p) in
  let base := Z.max (CheckResult.exit_code (ProtectResult.check p))
                    (LintResult.exit_code (ProtectResult.lint p)) in
  ProtectResult.threshold p = default (Settings.risk_threshold settings) threshold
  ∧ (ProtectResult.exit_code p = 2%Z
     ↔ base = 2%Z
       ∨ (ProtectResult.threshold p < RiskScoring.total_score (ProtectResult.risk p))%Z)
  ∧ ((RiskScoring.total_score (ProtectResult.risk p) ≤ ProtectResult.threshold p)%Z →
     ProtectResult.exit_code p = base)
  ∧ ((ProtectResult.threshold p < 8)%Z →
     (0 < count_rule Engine.DropTable violations
      ∨ 0 < count_rule Engine.DropColumn violations)%Z →
     ProtectResult.exit_code p = 2%Z)
  ∧ ((ProtectResult.threshold p < 12)%Z → 2 ≤ length violations →
     ProtectResult.exit_code p = 2%Z).
Proof.
  intros Hrun violations base. unfold Engine.run_protect in Hrun.
  destruct (Engine.run_ready settings git migrations) as [r| |] eqn:Hready;
    simplify_eq/=.
  subst violations base.
  unfold ProtectResult.exit_code, ProtectResult.exceeds_threshold.
  cbn [ProtectResult.lint ProtectResult.check ProtectResult.risk ProtectResult.threshold].
  set (violations := LintResult.violations (ReadyResult.lint r)).
  set (base := Z.max _ _).
  pose proof (run_ready_spec _ _ _ _ Hready) as (_ & Hlint & _ & Htotal).
  cbv zeta in Htotal.
  pose proof (check_exit_code_range (ReadyResult.check r)) as Hc.
  pose proof (lint_exit_code_range (ReadyResult.lint r)) as Hl.
  pose proof (lint_rule_ids settings migrations) as Hids.
  pose proof (count_rule_total _ Hids) as Hcount.
  pose proof (count_multiple_heads settings migrations) as Hmh.
  rewrite <- Hlint in Htotal, Hcount, Hmh. fold violations in Htotal, Hcount, Hmh.
  pose proof (count_rule_nonneg Engine.DropTable violations).
  pose proof (count_rule_nonneg Engine.DropColumn violations).
  pose proof (count_rule_nonneg Engine.NonNull violations).
  pose proof (count_rule_nonneg Engine.TypeChange violations).
  assert (0 ≤ match ReadyResult.compare r with
              | Some c => if BranchCompare.is_behind c then 5 else 0
              | None => 0
              end)%Z as Hbehind
    by (destruct (ReadyResult.compare r) as [c|]; [destruct (BranchCompare.is_behind c)|]; lia).
  split; [done|].
  case_bool_decide as Hexceeds; split_and!.
  - split; [by right|lia].
  - lia.
  - lia.
  - lia.
  - split; [by left|]. intros [?|?]; [done|lia].
  - done.
  - intros Hthr Hdrop. exfalso.
    destruct (decide (1 < length (find_heads (_build_graph migrations)))%nat); lia.
  - intros Hthr Hlen. exfalso.
    destruct (decide (1 < length (find_heads (_build_graph migrations)))%nat); lia.
Qed.

Lemma run_protect_exit_code_witness :
  ∃ p,
    Engine.run_protect Settings.default_settings diverged_git two_heads None = Ok p
    ∧ ProtectResult.threshold p = 7%Z
    ∧ ProtectResult.exit_code p = 2%Z.
Proof.
  eexists. split; [by vm_compute|].
  destruct (run_protect_exit_code Settings.default_settings diverged_git two_heads None
              _ eq_refl) as (Hthr & _ & _ & Hdrop & _).
  split; [exact Hthr|].
  apply Hdrop; [by vm_compute|left; by vm_compute].
Defined.

End ready_results.

(** ** The lint rules do not tell upper and lower case apart *)

Section case_insensitive.
Import Re.

Lemma is_word_lower c : is_word (lower c) = is_word c.
Proof. by destruct c as [[] [] [] [] [] [] [] []]. Qed.

Lemma is_space_lower c : is_space (lower c) = is_space c.
Proof. by destruct c as [[] [] [] [] [] [] [] []]. Qed.

Lemma not_semicolon_lower c : not_semicolon (lower c) = not_semicolon c.
Proof. by destruct c as [[] [] [] [] [] [] [] []]. Qed.

Lemma lower_lower c : lower (lower c) = lower c.
Proof. by destruct c as [[] [] [] [] [] [] [] []]. Qed.

Lemma lower_newline c : lower c = "010"%char ↔ c = "010"%char.
Proof. split; [|by intros ->]. by destruct c as [[] [] [] [] [] [] [] []]. Qed.

Lemma class_stable_of_lower (p : ascii → bool) :
  (∀ c, p (lower c) = p c) → class_stable p.
Proof. intros Hp c c' Hcc'. by rewrite <- (Hp c), <- (Hp c'), Hcc'. Qed.

Lemma is_word_stable : class_stable is_word.
Proof. apply class_stable_of_lower, is_word_lower. Qed.

Lemma is_space_stable : class_stable is_space.
Proof. apply class_stable_of_lower, is_space_lower. Qed.

Lemma not_semicolon_stable : class_stable not_semicolon.
Proof. apply class_stable_of_lower, not_semicolon_lower. Qed.

Ltac stable :=
  simpl;
  repeat first [exact I | exact is_space_stable | exact is_word_stable
               | exact not_semicolon_stable | split].

Lemma lit_stable w : regex_stable (lit w).
Proof. unfold lit. induction (String.list_ascii_of_string w); simpl; done. Qed.

Context (f : ascii → ascii) (Hf : ∀ c, lower (f c) = lower c).

Ltac fold_recase :=
  repeat match goal with
         | |- context [Some (f ?c)] => change (Some (f c)) with (f <$> Some c)
         end.

Lemma word_at_recase (o : option ascii) : word_at (f <$> o) = word_at o.
Proof. destruct o as [c|]; [|done]. simpl. by apply is_word_stable. Qed.

Lemma run_star_recase (p : ascii → bool) (k k' : cont) :
  class_stable p →
  (∀ prev s, k' (f <$> prev) (f <$> s) = k prev s) →
  ∀ prev s, run_star p k' (f <$> prev) (f <$> s) = run_star p k prev s.
Proof.
  intros Hp Hk prev s. revert prev.
  induction s as [|c s IH]; intros prev; csimpl.
  - apply (Hk prev []).
  - rewrite (Hp (f c) c (Hf c)). destruct (p c); [|apply (Hk prev (c :: s))].
    fold_recase. rewrite (IH (Some c)). destruct (run_star p k (Some c) s); [done|].
    apply (Hk prev (c :: s)).
Qed.

Lemma run_recase (r : regex) :
  regex_stable r →
  ∀ k k' : cont,
    (∀ prev s, k' (f <$> prev) (f <$> s) = k prev s) →
    ∀ prev s, run r k' (f <$> prev) (f <$> s) = run r k prev s.
Proof.
  induction r as [|x|p|p|r1 IH1 r2 IH2| |r IH]; intros Hr k k' Hk prev s; simpl.
  - apply Hk.
  - destruct s as [|c s]; csimpl; [done|]. rewrite Hf.
    case_bool_decide; [|done]. fold_recase. by rewrite (Hk (Some c) s).
  - destruct s as [|c s]; csimpl; [done|]. rewrite (Hr (f c) c (Hf c)).
    destruct (p c); [|done]. fold_recase. by rewrite (Hk (Some c) s).
  - by apply run_star_recase.
  - destruct Hr as [Hr1 Hr2]. apply IH1; [done|]. intros prev' s'. by apply IH2.
  - rewrite word_at_recase.
    replace (head (f <$> s)) with (f <$> head s) by (by destruct s).
    rewrite word_at_recase. destruct (xorb _ _); [apply Hk|done].
  - rewrite (IH Hr (λ _ _, Some 0) (λ _ _, Some 0)) by done.
    destruct (run r _ prev s); [done|apply Hk].
Qed.

Lemma pattern_run_recase (p : ReAlt.pattern) :
  pattern_stable p →
  ∀ k k' : cont,
    (∀ prev s, k' (f <$> prev) (f <$> s) = k prev s) →
    ∀ prev s, ReAlt.run p k' (f <$> prev) (f <$> s) = ReAlt.run p k prev s.
Proof.
  induction p as [r|p IHp q IHq|p IHp q IHq]; intros Hp k k' Hk prev s; simpl.
  - by apply run_recase.
  - destruct Hp as [Hp Hq]. rewrite (IHp Hp k k' Hk), (IHq Hq k k' Hk). done.
  - destruct Hp as [Hp Hq]. apply IHp; [done|]. intros prev' s'. by apply IHq.
Qed.

Lemma finditer_from_recase (r : regex) :
  regex_stable r →
  ∀ s prev pos skip,
    finditer_from r (f <$> prev) (f <$> s) pos skip = finditer_from r prev s pos skip.
Proof.
  intros Hr. induction s as [|c s IH]; intros prev pos skip.
  - destruct skip; csimpl; [|done]. unfold match_here.
    by rewrite <- (run_recase r Hr (λ _ _, Some 0) (λ _ _, Some 0) ltac:(done) prev []).
  - destruct skip; csimpl; fold_recase; [|apply (IH (Some c))]. unfold match_here.
    change (f c :: (f <$> s)) with (f <$> c :: s).
    rewrite (run_recase r Hr (λ _ _, Some 0) (λ _ _, Some 0)) by done.
    destruct (run r _ prev (c :: s)); by rewrite (IH (Some c)).
Qed.

Lemma pattern_finditer_from_recase (p : ReAlt.pattern) :
  pattern_stable p →
  ∀ s prev pos skip,
    ReAlt.finditer_from p (f <$> prev) (f <$> s) pos skip
    = ReAlt.finditer_from p prev s pos skip.
Proof.
  intros Hp. induction s as [|c s IH]; intros prev pos skip.
  - destruct skip; csimpl; [|done]. unfold ReAlt.match_here.
    by rewrite <- (pattern_run_recase p Hp (λ _ _, Some 0) (λ _ _, Some 0) ltac:(done) prev []).
  - destruct skip; csimpl; fold_recase; [|apply (IH (Some c))]. unfold ReAlt.match_here.
    change (f c :: (f <$> s)) with (f <$> c :: s).
    rewrite (pattern_run_recase p Hp (λ _ _, Some 0) (λ _ _, Some 0)) by done.
    destruct (ReAlt.run p _ prev (c :: s)); by rewrite (IH (Some c)).
Qed.

Lemma finditer_recase r s : regex_stable r → finditer r (f <$> s) = finditer r s.
Proof. intros Hr. apply (finditer_from_recase r Hr s None). Qed.

Lemma pattern_finditer_recase p s :
  pattern_stable p → ReAlt.finditer p (f <$> s) = ReAlt.finditer p s.
Proof. intros Hp. apply (pattern_finditer_from_recase p Hp s None). Qed.

Lemma search_recase r s : regex_stable r → search r (f <$> s) = search r s.
Proof. intros Hr. unfold search. by rewrite finditer_recase. Qed.

Lemma pattern_search_recase p s :
  pattern_stable p → ReAlt.search p (f <$> s) = ReAlt.search p s.
Proof. intros Hp. unfold ReAlt.search. by rewrite pattern_finditer_recase. Qed.

Lemma newline_recase c : f c = "010"%char ↔ c = "010"%char.
Proof. by rewrite <- (lower_newline (f c)), Hf, lower_newline. Qed.

Lemma line_no_recase content start :
  NonNullRule.line_no (f <$> content) start = NonNullRule.line_no content start.
Proof.
  unfold NonNullRule.line_no. rewrite <- fmap_take. do 2 f_equal.
  induction (take start content) as [|c l IH]; [done|]. csimpl.
  rewrite !filter_cons.
  destruct (decide (c = "010"%char)) as [Hc|Hc].
  - rewrite decide_True by (by apply newline_recase). simpl. by rewrite IH.
  - rewrite decide_False; [done|]. intros Hfc. apply Hc. by apply newline_recase.
Qed.

Lemma context_at_recase content start :
  NonNullRule.context_at (f <$> content) start = f <$> NonNullRule.context_at content start.
Proof. unfold NonNullRule.context_at. by rewrite <- fmap_drop, <- fmap_take. Qed.

Lemma map_string_chars s :
  String.list_ascii_of_string (map_string f s) = f <$> String.list_ascii_of_string s.
Proof. induction s as [|c s IH]; [done|]. simpl. by rewrite IH. Qed.

Lemma seq_stable (rs : list regex) : Forall regex_stable rs → regex_stable (seq rs).
Proof. induction 1; simpl; done. Qed.

Lemma plus_stable p : class_stable p → regex_stable (plus p).
Proof. by split. Qed.

Lemma foldl_ext_elem_of {A B} (g1 g2 : B → A → B) (l : list A) (b : B) :
  (∀ b x, x ∈ l → g1 b x = g2 b x) → foldl g1 b l = foldl g2 b l.
Proof.
  revert b. induction l as [|x l IH]; intros b Hg; simpl; [done|].
  rewrite Hg by left. apply IH. intros b' x' Hx'. apply Hg. by right.
Qed.

Lemma foldl_ext_start {A B} (g1 g2 : B → A → B) (l : list A) (b1 b2 : B) :
  b1 = b2 → (∀ b x, g1 b x = g2 b x) → foldl g1 b1 l = foldl g2 b2 l.
Proof. intros -> Hg. apply foldl_ext_elem_of. intros. apply Hg. Qed.

Lemma fmap_ext_pointwise {A B} (h1 h2 : A → B) (l : list A) :
  (∀ x, h1 x = h2 x) → h1 <$> l = h2 <$> l.
Proof. intros Hh. induction l as [|x l IH]; csimpl; [done|]. by rewrite Hh, IH. Qed.

Lemma drop_table_patterns_stable :
  Forall (λ p : ReAlt.pattern * string, pattern_stable p.1) DropTableRule.patterns.
Proof.
  repeat constructor; stable.
Qed.

Lemma drop_column_patterns_stable :
  Forall (λ p : ReAlt.pattern * string, pattern_stable p.1) DropColumnRule.patterns.
Proof.
  repeat constructor; stable.
Qed.

Lemma evaluate_recase (rule : Engine.Rule) (m : Adapters.MigrationInfo) :
  Engine.evaluate rule (recase f m) = Engine.evaluate rule m.
Proof.
  pose proof is_space_stable as Hspace. pose proof is_word_stable as Hword.
  pose proof not_semicolon_stable as Hsemi.
  destruct rule; simpl.
  - unfold DropTableRule.evaluate. cbn [recase Adapters.sql_content].
    rewrite map_string_chars. apply foldl_ext_elem_of.
    intros vs [pattern msg] Hp.
    pose proof drop_table_patterns_stable as Hall. rewrite Forall_forall in Hall.
    rewrite (pattern_finditer_recase pattern _ (Hall _ Hp)).
    apply foldl_ext_elem_of. intros vs' [start len] _. by rewrite line_no_recase.
  - unfold DropColumnRule.evaluate. cbn [recase Adapters.sql_content].
    rewrite map_string_chars. apply foldl_ext_elem_of.
    intros vs [pattern msg] Hp.
    pose proof drop_column_patterns_stable as Hall. rewrite Forall_forall in Hall.
    rewrite (pattern_finditer_recase pattern _ (Hall _ Hp)).
    apply foldl_ext_elem_of. intros vs' [start len] _. by rewrite line_no_recase.
  - unfold NonNullRule.evaluate, NonNullRule._check_alembic_add_column,
      NonNullRule._check_django_add_field.
    cbn [recase Adapters.sql_content]. rewrite map_string_chars.
    rewrite !finditer_recase
      by stable.
    apply foldl_ext_start; [apply foldl_ext_start; [apply fmap_ext_pointwise|]|].
    + intros [start len]. by rewrite line_no_recase.
    + intros vs [start len].
      rewrite context_at_recase, line_no_recase, !search_recase by stable. done.
    + intros vs [start len].
      rewrite context_at_recase, line_no_recase, !search_recase by stable. done.
  - unfold TypeChangeRule.evaluate.
    cbn [recase Adapters.sql_content]. rewrite map_string_chars.
    rewrite !pattern_finditer_recase
      by stable.
    apply foldl_ext_start; [apply foldl_ext_start; [apply fmap_ext_pointwise|]|].
    + intros [start len]. by rewrite line_no_recase.
    + intros vs [start len]. by rewrite line_no_recase.
    + intros vs [start len].
      rewrite context_at_recase, line_no_recase, !pattern_search_recase by stable. done.
  - done.
Qed.

Lemma build_graph_recase (migrations : list Adapters.MigrationInfo) :
  _build_graph (recase f <$> migrations) = _build_graph migrations.
Proof.
  unfold _build_graph. generalize empty_graph.
  induction migrations as [|m ms IH]; intros g; csimpl; [done|]. apply IH.
Qed.

Lemma run_lint_recase settings (migrations : list Adapters.MigrationInfo) :
  Engine.run_lint settings (recase f <$> migrations) = Engine.run_lint settings migrations.
Proof.
  unfold Engine.run_lint. f_equal. rewrite build_graph_recase.
  apply foldl_ext_elem_of. intros vs rule _.
  assert (∀ vs, foldl (λ violations m, violations ++ Engine.evaluate rule m) vs
                  (recase f <$> migrations)
                = foldl (λ violations m, violations ++ Engine.evaluate rule m) vs
                    migrations) as ->; [|done].
  clear vs. induction migrations as [|m ms IH]; intros vs; csimpl; [done|].
  by rewrite evaluate_recase, IH.
Qed.

End case_insensitive.

Lemma lower_ascii (c : ascii) : (Re.code (Re.lower c) < 128)%N ↔ (Re.code c < 128)%N.
Proof.
  destruct c as [[] [] [] [] [] [] [] []]; vm_compute; split; intros H;
    first [reflexivity | discriminate H].
Qed.

Lemma recase_ascii_text (f : ascii → ascii) (s : string) :
  (∀ c, Re.lower (f c) = Re.lower c) →
  ascii_text s → ascii_text (map_string f s).
Proof.
  intros Hf. unfold ascii_text, chars. rewrite map_string_chars, Forall_fmap.
  intros Hs. eapply Forall_impl; [exact Hs|]. intros c Hc. simpl.
  apply lower_ascii. rewrite Hf. by apply lower_ascii.
Qed.

(** On migrations whose contents are ASCII text the lint rules do not tell
    upper and lower case apart: rewriting the contents by a function that
    changes at most the case of letters gives ASCII text again and leaves
    the result of [lint] unchanged. *)
Theorem lint_ignores_case (f : ascii → ascii)
    (settings : Settings.MigrationIQSettings)
    (migrations : list Adapters.MigrationInfo) :
  Forall (λ m, ascii_text (Adapters.sql_content m)) migrations →
  (∀ c, Re.lower (f c) = Re.lower c) →
  Forall (λ m, ascii_text (Adapters.sql_content m)) (recase f <$> migrations)
  ∧ Engine.run_lint settings (recase f <$> migrations)
    = Engine.run_lint settings migrations.
Proof.
  intros Hascii Hf. split; [|by apply run_lint_recase].
  rewrite Forall_fmap. eapply Forall_impl; [exact Hascii|].
  intros m Hm. simpl. by apply recase_ascii_text.
Qed.

Lemma lint_ignores_case_witness :
  Forall (λ m, ascii_text (Adapters.sql_content m)) (recase Re.lower <$> two_heads)
  ∧ Engine.run_lint Settings.default_settings (recase Re.lower <$> two_heads)
    = Engine.run_lint Settings.default_settings two_heads.
Proof.
  apply (lint_ignores_case Re.lower Settings.default_settings two_heads).
  - repeat constructor.
  - intros c. by destruct c as [[] [] [] [] [] [] [] []].
Defined.

(** ** What the drop rules match *)

Section pattern_semantics.
Import Re.

Lemma last_or_cons prev c x : last_or prev (c :: x) = last_or (Some c) x.
Proof.
  unfold last_or. rewrite last_cons. by destruct (last x).
Qed.

Lemma last_or_none x : last_or None x = last x.
Proof. unfold last_or. by destruct (last x). Qed.

Lemma last_or_nonempty prev x : x ≠ [] → last_or prev x = last x.
Proof.
  unfold last_or. intros Hx. destruct (last x) eqn:Hl; [done|].
  by apply last_None in Hl.
Qed.

Lemma is_Some_S (o : option nat) : is_Some (S <$> o) ↔ is_Some o.
Proof. by rewrite fmap_is_Some. Qed.

(** A literal matches a text that spells it. *)
Lemma run_literal (l : list ascii) (k : cont) (prev : option ascii) (s : list ascii) :
  is_Some (run (foldr (λ c r, Seq (Chr c) r) Eps l) k prev s)
  ↔ ∃ x rest, s = x ++ rest ∧ lower <$> x = lower <$> l
              ∧ is_Some (k (last_or prev x) rest).
Proof.
  revert prev s. induction l as [|a l IH]; intros prev s; simpl.
  - split.
    + intros Hk. by exists [], s.
    + intros (x & rest & -> & Hx & Hk). apply fmap_nil_inv in Hx as ->. done.
  - destruct s as [|c s].
    + split; [by intros []|]. intros (x & rest & Hs & Hx & _).
      symmetry in Hs. apply app_eq_nil in Hs as [-> ->]. done.
    + case_bool_decide as Hc.
      * rewrite is_Some_S, IH. split.
        -- intros (x & rest & -> & Hx & Hk). exists (c :: x), rest.
           split; [done|]. split; [csimpl; by rewrite Hc, Hx|].
           by rewrite last_or_cons.
        -- intros (x & rest & Hs & Hx & Hk).
           destruct x as [|c' x]; [done|]. simplify_eq/=.
           exists x, rest. split; [done|]. split; [done|].
           by rewrite last_or_cons in Hk.
      * split; [by intros []|]. intros (x & rest & Hs & Hx & _).
        destruct x as [|c' x]; [done|]. simplify_eq/=.
Qed.

Lemma run_lit_iff (w : string) (k : cont) (Q : option ascii → list ascii → Prop) :
  (∀ prev s, is_Some (k prev s) ↔ Q prev s) →
  ∀ prev s,
    is_Some (run (lit w) k prev s)
    ↔ ∃ x rest, s = x ++ rest ∧ spells x w ∧ Q (last_or prev x) rest.
Proof.
  intros Hk prev s. unfold lit. rewrite run_literal. by setoid_rewrite Hk.
Qed.

(** A greedy repetition matches every run of characters of the class; the
    matcher tries the longest run first and then the shorter ones. *)
Lemma run_star_iff (p : ascii → bool) (k : cont) (prev : option ascii) (s : list ascii) :
  is_Some (run_star p k prev s)
  ↔ ∃ ws rest, s = ws ++ rest ∧ Forall (λ c, p c = true) ws
               ∧ is_Some (k (last_or prev ws) rest).
Proof.
  revert prev. induction s as [|c s IH]; intros prev; simpl.
  - split.
    + intros Hk. by exists [], [].
    + intros (ws & rest & Hs & _ & Hk).
      symmetry in Hs. apply app_eq_nil in Hs as [-> ->]. done.
  - destruct (p c) eqn:Hpc.
    + split.
      * destruct (run_star p k (Some c) s) as [n|] eqn:Hrun.
        -- intros _.
           destruct (proj1 (IH (Some c))) as (ws & rest & -> & Hws & Hk); [by eexists|].
           exists (c :: ws), rest. split; [done|]. split; [by constructor|].
           by rewrite last_or_cons.
        -- intros Hk. by exists [], (c :: s).
      * intros (ws & rest & Hs & Hws & Hk). destruct ws as [|c' ws].
        -- simpl in Hs. subst rest.
           destruct (run_star p k (Some c) s); [by eexists|done].
        -- simplify_eq/=. apply Forall_cons in Hws as [_ Hws].
           destruct (proj2 (IH (Some c'))) as [n ->]; [|by eexists].
           exists ws, rest. split; [done|]. split; [done|].
           by rewrite last_or_cons in Hk.
    + split.
      * intros Hk. by exists [], (c :: s).
      * intros (ws & rest & Hs & Hws & Hk). destruct ws as [|c' ws].
        -- simpl in Hs. by subst rest.
        -- simplify_eq/=. apply Forall_cons in Hws as [Hc' _]. congruence.
Qed.

Lemma run_plus_iff (p : ascii → bool) (k : cont) (Q : option ascii → list ascii → Prop) :
  (∀ prev s, is_Some (k prev s) ↔ Q prev s) →
  ∀ prev s,
    is_Some (run (plus p) k prev s)
    ↔ ∃ ws rest, s = ws ++ rest ∧ ws ≠ [] ∧ Forall (λ c, p c = true) ws
                 ∧ Q (last_or prev ws) rest.
Proof.
  intros Hk prev s. unfold plus. simpl. destruct s as [|c s].
  - split; [by intros []|]. intros (ws & rest & Hs & Hne & _).
    symmetry in Hs. apply app_eq_nil in Hs as [-> ->]. done.
  - destruct (p c) eqn:Hpc.
    + rewrite is_Some_S, run_star_iff. setoid_rewrite Hk. split.
      * intros (ws & rest & -> & Hws & HQ). exists (c :: ws), rest.
        split; [done|]. split; [done|]. split; [by constructor|].
        by rewrite last_or_cons.
      * intros (ws & rest & Hs & Hne & Hws & HQ).
        destruct ws as [|c' ws]; [done|]. simplify_eq/=.
        apply Forall_cons in Hws as [_ Hws].
        exists ws, rest. split; [done|]. split; [done|].
        by rewrite last_or_cons in HQ.
    + split; [by intros []|]. intros (ws & rest & Hs & Hne & Hws & _).
      destruct ws as [|c' ws]; [done|]. simplify_eq/=.
      apply Forall_cons in Hws as [Hc' _]. congruence.
Qed.

Lemma run_boundary_iff (k : cont) (Q : option ascii → list ascii → Prop) :
  (∀ prev s, is_Some (k prev s) ↔ Q prev s) →
  ∀ prev s,
    is_Some (run Boundary k prev s)
    ↔ xorb (word_at prev) (word_at (head s)) = true ∧ Q prev s.
Proof.
  intros Hk prev s. simpl. destruct (xorb _ _).
  - rewrite Hk. naive_solver.
  - split; [by intros []|]. by intros [? _].
Qed.

Lemma run_end_iff (prev : option ascii) (s : list ascii) :
  is_Some (run Eps (λ _ _, Some 0) prev s) ↔ True.
Proof. simpl. split; [done|]. by eexists. Qed.

Lemma head_fmap {A B} (h : A → B) (l : list A) : head (h <$> l) = h <$> head l.
Proof. by destruct l. Qed.

Lemma word_at_lower (o : option ascii) : word_at (lower <$> o) = word_at o.
Proof. destruct o as [c|]; [|done]. simpl. apply is_word_lower. Qed.

Lemma spells_first (x : list ascii) (w : string) :
  spells x w → word_at (head (chars w)) = true → x ≠ [] ∧ word_at (head x) = true.
Proof.
  unfold spells. intros Hx Hh. split.
  - intros ->. destruct (chars w); done.
  - by rewrite <- word_at_lower, <- head_fmap, Hx, head_fmap, word_at_lower.
Qed.

Lemma spells_final (x : list ascii) (w : string) :
  spells x w → word_at (last (chars w)) = true → x ≠ [] ∧ word_at (last x) = true.
Proof.
  unfold spells. intros Hx Hl. split.
  - intros ->. destruct (chars w); done.
  - by rewrite <- word_at_lower, <- fmap_last, Hx, fmap_last, word_at_lower.
Qed.

Lemma spells_ends (x : list ascii) (w : string) :
  spells x w →
  word_at (head (chars w)) = true → word_at (last (chars w)) = true →
  x ≠ [] ∧ word_at (head x) = true ∧ word_at (last x) = true.
Proof.
  intros Hx Hhead Hlast.
  destruct (spells_first x w Hx Hhead) as [? ?].
  destruct (spells_final x w Hx Hlast) as [_ ?]. done.
Qed.

Lemma xorb_true_l_false (b : bool) : xorb b true = true ↔ b = false.
Proof. by destruct b. Qed.

Lemma xorb_true_r_false (b : bool) : xorb true b = true ↔ b = false.
Proof. by destruct b. Qed.

(** [\bw\b] for a word that begins and ends with a word character. *)
Lemma match_word (w : string) (prev : option ascii) (s : list ascii) :
  word_at (head (chars w)) = true → word_at (last (chars w)) = true →
  is_Some (match_here (seq [Boundary; lit w; Boundary]) prev s)
  ↔ word_at prev = false
    ∧ ∃ x rest, s = x ++ rest ∧ spells x w ∧ word_at (head rest) = false.
Proof.
  intros Hhead Hlast. unfold match_here, seq. cbn [foldr].
  change (run (Seq Boundary (Seq (lit w) (Seq Boundary Eps))) (λ _ _, Some 0) prev s)
    with (run Boundary (run (lit w) (run Boundary (run Eps (λ _ _, Some 0)))) prev s).
  rewrite (run_boundary_iff _ _
             (run_lit_iff w _ _ (run_boundary_iff _ _ run_end_iff))).
  split.
  - intros (Hb & x & rest & -> & Hx & Hb' & _).
    destruct (spells_ends x w Hx Hhead Hlast) as (Hne & Hh & Hl).
    rewrite last_or_nonempty, Hl in Hb' by done.
    apply xorb_true_r_false in Hb'.
    assert (head (x ++ rest) = head x) as Hhx by (by destruct x).
    rewrite Hhx, Hh in Hb. apply xorb_true_l_false in Hb.
    split; [done|]. by exists x, rest.
  - intros (Hp & x & rest & -> & Hx & Hr).
    destruct (spells_ends x w Hx Hhead Hlast) as (Hne & Hh & Hl).
    assert (head (x ++ rest) = head x) as Hhx by (by destruct x).
    split; [by rewrite Hhx, Hh, Hp|].
    exists x, rest. split; [done|]. split; [done|]. split; [|done].
    by rewrite last_or_nonempty, Hl, Hr.
Qed.

(** [\bw1\s+w2\b] *)
Lemma match_phrase (w1 w2 : string) (prev : option ascii) (s : list ascii) :
  word_at (head (chars w1)) = true → word_at (last (chars w2)) = true →
  is_Some (match_here (seq [Boundary; lit w1; plus is_space; lit w2; Boundary]) prev s)
  ↔ word_at prev = false
    ∧ ∃ x1 ws x2 rest,
        s = x1 ++ ws ++ x2 ++ rest ∧ spells x1 w1 ∧ ws ≠ []
        ∧ Forall (λ c, is_space c = true) ws ∧ spells x2 w2
        ∧ word_at (head rest) = false.
Proof.
  intros Hhead Hlast. unfold match_here, seq. cbn [foldr].
  change (run (Seq Boundary (Seq (lit w1) (Seq (plus is_space)
                 (Seq (lit w2) (Seq Boundary Eps))))) (λ _ _, Some 0) prev s)
    with (run Boundary (run (lit w1) (run (plus is_space)
            (run (lit w2) (run Boundary (run Eps (λ _ _, Some 0)))))) prev s).
  rewrite (run_boundary_iff _ _
             (run_lit_iff w1 _ _
                (run_plus_iff is_space _ _
                   (run_lit_iff w2 _ _ (run_boundary_iff _ _ run_end_iff))))).
  pose proof spells_first as Hfirst. pose proof spells_final as Hfinal.
  split.
  - intros (Hb & x1 & r1 & -> & Hx1 & ws & r2 & -> & Hne & Hws & x2 & r3 & -> & Hx2
            & Hb' & _).
    destruct (Hfirst x1 w1 Hx1 Hhead) as (Hne1 & Hh1).
    destruct (Hfinal x2 w2 Hx2 Hlast) as (Hne2 & Hl2).
    rewrite (last_or_nonempty _ x2), Hl2 in Hb' by done.
    apply xorb_true_r_false in Hb'.
    assert (head (x1 ++ ws ++ x2 ++ r3) = head x1) as Hhx by (by destruct x1).
    rewrite Hhx, Hh1 in Hb. apply xorb_true_l_false in Hb.
    split; [done|]. by exists x1, ws, x2, r3.
  - intros (Hp & x1 & ws & x2 & rest & -> & Hx1 & Hne & Hws & Hx2 & Hr).
    destruct (Hfirst x1 w1 Hx1 Hhead) as (Hne1 & Hh1).
    destruct (Hfinal x2 w2 Hx2 Hlast) as (Hne2 & Hl2).
    assert (head (x1 ++ ws ++ x2 ++ rest) = head x1) as Hhx by (by destruct x1).
    split; [by rewrite Hhx, Hh1, Hp|].
    exists x1, (ws ++ x2 ++ rest). split; [done|]. split; [done|].
    exists ws, (x2 ++ rest). split; [done|]. split; [done|]. split; [done|].
    exists x2, rest. split; [done|]. split; [done|]. split; [|done].
    by rewrite (last_or_nonempty _ x2), Hl2, Hr.
Qed.

(** [finditer] finds something exactly when the pattern matches at some
    position. *)
Lemma finditer_from_nonempty (p : ReAlt.pattern) (s : list ascii)
    (prev : option ascii) (pos : nat) :
  ReAlt.finditer_from p prev s pos 0 ≠ []
  ↔ ∃ pre post, s = pre ++ post ∧ is_Some (ReAlt.match_here p (last_or prev pre) post).
Proof.
  revert prev pos. induction s as [|c s IH]; intros prev pos; simpl.
  - destruct (ReAlt.match_here p prev []) as [n|] eqn:Hm.
    + split; [|done]. intros _. exists [], []. split; [done|].
      change (last_or prev []) with prev. by rewrite Hm.
    + split; [done|]. intros (pre & post & Hs & Hsome).
      symmetry in Hs. apply app_eq_nil in Hs as [-> ->].
      change (last_or prev []) with prev in Hsome.
      rewrite Hm in Hsome. by destruct Hsome.
  - destruct (ReAlt.match_here p prev (c :: s)) as [n|] eqn:Hm.
    + split; [|done]. intros _. exists [], (c :: s). split; [done|].
      change (last_or prev []) with prev. by rewrite Hm.
    + rewrite IH. split.
      * intros (pre & post & -> & Hsome). exists (c :: pre), post.
        split; [done|]. by rewrite last_or_cons.
      * intros (pre & post & Hs & Hsome). destruct pre as [|c' pre].
        -- simpl in Hs. subst post. change (last_or prev []) with prev in Hsome.
           rewrite Hm in Hsome. by destruct Hsome.
        -- simplify_eq/=. exists pre, post. split; [done|].
           by rewrite last_or_cons in Hsome.
Qed.

Lemma finditer_word (w : string) (content : list ascii) :
  word_at (head (chars w)) = true → word_at (last (chars w)) = true →
  ReAlt.finditer (ReAlt.Atom (seq [Boundary; lit w; Boundary])) content ≠ []
  ↔ word_occurrence w content.
Proof.
  intros Hhead Hlast. unfold ReAlt.finditer. rewrite finditer_from_nonempty.
  unfold word_occurrence. split.
  - intros (pre & post & -> & Hm). unfold ReAlt.match_here in Hm. simpl in Hm.
    apply (match_word w _ _ Hhead Hlast) in Hm as (Hp & x & rest & -> & Hx & Hr).
    rewrite last_or_none in Hp. by exists pre, x, rest.
  - intros (pre & x & post & -> & Hx & Hp & Hr). exists pre, (x ++ post).
    split; [done|]. apply (match_word w _ _ Hhead Hlast).
    rewrite last_or_none. split; [done|]. by exists x, post.
Qed.

Lemma finditer_phrase (w1 w2 : string) (content : list ascii) :
  word_at (head (chars w1)) = true → word_at (last (chars w2)) = true →
  ReAlt.finditer
    (ReAlt.Atom (seq [Boundary; lit w1; plus is_space; lit w2; Boundary])) content ≠ []
  ↔ phrase_occurrence w1 w2 content.
Proof.
  intros Hhead Hlast. unfold ReAlt.finditer. rewrite finditer_from_nonempty.
  unfold phrase_occurrence. split.
  - intros (pre & post & -> & Hm). unfold ReAlt.match_here in Hm. simpl in Hm.
    apply (match_phrase w1 w2 _ _ Hhead Hlast) in Hm
      as (Hp & x1 & ws & x2 & rest & -> & Hx1 & Hne & Hws & Hx2 & Hr).
    rewrite last_or_none in Hp. by exists pre, x1, ws, x2, rest.
  - intros (pre & x1 & ws & x2 & post & -> & Hx1 & Hne & Hws & Hx2 & Hp & Hr).
    exists pre, (x1 ++ ws ++ x2 ++ post).
    split; [done|]. apply (match_phrase w1 w2 _ _ Hhead Hlast).
    rewrite last_or_none. split; [done|]. by exists x1, ws, x2, post.
Qed.

Lemma finditer_alt (p q : ReAlt.pattern) (content : list ascii) :
  ReAlt.finditer (ReAlt.Alt p q) content ≠ []
  ↔ ReAlt.finditer p content ≠ [] ∨ ReAlt.finditer q content ≠ [].
Proof.
  unfold ReAlt.finditer. rewrite !finditer_from_nonempty.
  unfold ReAlt.match_here. simpl. split.
  - intros (pre & post & -> & Hm).
    destruct (ReAlt.run p _ _ post) eqn:Hp.
    + left. exists pre, post. by rewrite Hp.
    + right. by exists pre, post.
  - intros [(pre & post & -> & Hm)|(pre & post & -> & Hm)]; exists pre, post;
      (split; [done|]); destruct (ReAlt.run p _ _ post); done.
Qed.

Lemma foldl_snoc_nil {A B} (h : A → B) (l : list A) (vs : list B) :
  foldl (λ vs x, vs ++ [h x]) vs l = [] ↔ vs = [] ∧ l = [].
Proof.
  revert vs. induction l as [|x l IH]; intros vs; simpl; [naive_solver|].
  rewrite IH. split; [|by intros [_ ?]]. intros [Hvs _]. by destruct vs.
Qed.

End pattern_semantics.

(** The drop-table rule reports something for a migration with ASCII
    content exactly when the content has, as whole words and in any case,
    DROP and TABLE separated by white space, or DeleteModel, or
    RemoveModel, or op.drop_table. *)
Theorem drop_table_rule_fires_exactly (m : Adapters.MigrationInfo) :
  ascii_text (Adapters.sql_content m) →
  DropTableRule.evaluate m ≠ []
  ↔ phrase_occurrence "DROP" "TABLE" (chars (Adapters.sql_content m))
    ∨ word_occurrence "DeleteModel" (chars (Adapters.sql_content m))
    ∨ word_occurrence "RemoveModel" (chars (Adapters.sql_content m))
    ∨ word_occurrence "op.drop_table" (chars (Adapters.sql_content m)).
Proof.
  intros _.
  set (content := chars (Adapters.sql_content m)).
  set (l1 := ReAlt.finditer DropTableRule._DROP_TABLE_SQL_RE content).
  set (l2 := ReAlt.finditer DropTableRule._DJANGO_DELETE_MODEL_RE content).
  set (l3 := ReAlt.finditer DropTableRule._ALEMBIC_DROP_TABLE_RE content).
  assert (l1 ≠ [] ↔ phrase_occurrence "DROP" "TABLE" content) as Hphrase
    by (by apply finditer_phrase).
  assert (l2 ≠ [] ↔ word_occurrence "DeleteModel" content
                    ∨ word_occurrence "RemoveModel" content) as Hmodel.
  { subst l2. unfold DropTableRule._DJANGO_DELETE_MODEL_RE.
    by rewrite finditer_alt, !finditer_word. }
  assert (l3 ≠ [] ↔ word_occurrence "op.drop_table" content) as Hop
    by (by apply finditer_word).
  enough (DropTableRule.evaluate m ≠ [] ↔ l1 ≠ [] ∨ l2 ≠ [] ∨ l3 ≠ []) as ->
    by (rewrite Hphrase, Hmodel, Hop; tauto).
  clear Hphrase Hmodel Hop.
  unfold DropTableRule.evaluate, DropTableRule.patterns. cbn [foldl].
  fold (chars (Adapters.sql_content m)). fold content. fold l1 l2 l3.
  assert (∀ (msg : string) (l : list (nat * nat)) vs,
            foldl (λ violations '(start, _),
                     violations ++
                     [DropTableRule.violation m (NonNullRule.line_no content start) msg])
                  vs l = [] ↔ vs = [] ∧ l = []) as Hfold.
  { intros msg l vs.
    rewrite <- (foldl_snoc_nil
                  (λ x : nat * nat,
                     DropTableRule.violation m (NonNullRule.line_no content x.1) msg)).
    assert (∀ vs, foldl (λ violations '(start, _),
                     violations ++
                     [DropTableRule.violation m (NonNullRule.line_no content start) msg])
                  vs l
            = foldl (λ vs x, vs ++ [DropTableRule.violation m
                                       (NonNullRule.line_no content x.1) msg]) vs l)
      as ->; [|done].
    induction l as [|[start len] l IH]; intros vs'; simpl; [done|]. apply IH. }
  split.
  - intros Hne. destruct l1 eqn:H1; [|by left]. destruct l2 eqn:H2; [|by right; left].
    destruct l3 eqn:H3; [|by right; right]. exfalso. apply Hne.
    apply Hfold. split; [|done]. apply Hfold. split; [|done]. by apply Hfold.
  - intros Hl Hnil. apply Hfold in Hnil as [Hnil H3]. apply Hfold in Hnil as [Hnil H2].
    apply Hfold in Hnil as [_ H1]. naive_solver.
Qed.

Lemma drop_table_rule_fires_exactly_witness :
  DropTableRule.evaluate (record "app.0002" [] "Drop  table b;") ≠ []
  ↔ phrase_occurrence "DROP" "TABLE" (chars "Drop  table b;")
    ∨ word_occurrence "DeleteModel" (chars "Drop  table b;")
    ∨ word_occurrence "RemoveModel" (chars "Drop  table b;")
    ∨ word_occurrence "op.drop_table" (chars "Drop  table b;").
Proof.
  apply (drop_table_rule_fires_exactly (record "app.0002" [] "Drop  table b;")).
  repeat constructor.
Defined.

(** The drop-column rule reports something for a migration with ASCII
    content exactly when the content has, as whole words and in any case,
    DROP and COLUMN separated by white space, or RemoveField, or
    op.drop_column. *)
Theorem drop_column_rule_fires_exactly (m : Adapters.MigrationInfo) :
  ascii_text (Adapters.sql_content m) →
  DropColumnRule.evaluate m ≠ []
  ↔ phrase_occurrence "DROP" "COLUMN" (chars (Adapters.sql_content m))
    ∨ word_occurrence "RemoveField" (chars (Adapters.sql_content m))
    ∨ word_occurrence "op.drop_column" (chars (Adapters.sql_content m)).
Proof.
  intros _.
  set (content := chars (Adapters.sql_content m)).
  set (l1 := ReAlt.finditer DropColumnRule._DROP_COL_SQL_RE content).
  set (l2 := ReAlt.finditer DropColumnRule._DJANGO_REMOVE_FIELD_RE content).
  set (l3 := ReAlt.finditer DropColumnRule._ALEMBIC_DROP_COL_RE content).
  assert (l1 ≠ [] ↔ phrase_occurrence "DROP" "COLUMN" content) as Hphrase
    by (by apply finditer_phrase).
  assert (l2 ≠ [] ↔ word_occurrence "RemoveField" content) as Hfield
    by (by apply finditer_word).
  assert (l3 ≠ [] ↔ word_occurrence "op.drop_column" content) as Hop
    by (by apply finditer_word).
  enough (DropColumnRule.evaluate m ≠ [] ↔ l1 ≠ [] ∨ l2 ≠ [] ∨ l3 ≠ []) as ->
    by (rewrite Hphrase, Hfield, Hop; tauto).
  clear Hphrase Hfield Hop.
  unfold DropColumnRule.evaluate, DropColumnRule.patterns. cbn [foldl].
  fold (chars (Adapters.sql_content m)). fold content. fold l1 l2 l3.
  assert (∀ (msg : string) (l : list (nat * nat)) vs,
            foldl (λ violations '(start, _),
                     violations ++
                     [DropColumnRule.violation m (NonNullRule.line_no content start) msg])
                  vs l = [] ↔ vs = [] ∧ l = []) as Hfold.
  { intros msg l vs.
    rewrite <- (foldl_snoc_nil
                  (λ x : nat * nat,
                     DropColumnRule.violation m (NonNullRule.line_no content x.1) msg)).
    assert (∀ vs, foldl (λ violations '(start, _),
                     violations ++
                     [DropColumnRule.violation m (NonNullRule.line_no content start) msg])
                  vs l
            = foldl (λ vs x, vs ++ [DropColumnRule.violation m
                                       (NonNullRule.line_no content x.1) msg]) vs l)
      as ->; [|done].
    induction l as [|[start len] l IH]; intros vs'; simpl; [done|]. apply IH. }
  split.
  - intros Hne. destruct l1 eqn:H1; [|by left]. destruct l2 eqn:H2; [|by right; left].
    destruct l3 eqn:H3; [|by right; right]. exfalso. apply Hne.
    apply Hfold. split; [|done]. apply Hfold. split; [|done]. by apply Hfold.
  - intros Hl Hnil. apply Hfold in Hnil as [Hnil H3]. apply Hfold in Hnil as [Hnil H2].
    apply Hfold in Hnil as [_ H1]. naive_solver.
Qed.

Lemma drop_column_rule_fires_exactly_witness :
  DropColumnRule.evaluate
    (record "app.0003" [] "migrations.removefield('a', 'b')") ≠ []
  ↔ phrase_occurrence "DROP" "COLUMN" (chars "migrations.removefield('a', 'b')")
    ∨ word_occurrence "RemoveField" (chars "migrations.removefield('a', 'b')")
    ∨ word_occurrence "op.drop_column" (chars "migrations.removefield('a', 'b')").
Proof.
  apply (drop_column_rule_fires_exactly
           (record "app.0003" [] "migrations.removefield('a', 'b')")).
  repeat constructor.
Defined.

(** ** Which paths are migration files *)

Section migration_paths.
Import BranchCompare.

Lemma chars_inj (s1 s2 : string) : chars s1 = chars s2 → s1 = s2.
Proof.
  revert s2. induction s1 as [|c s1 IH]; intros [|c' s2] H; simplify_eq/=; [done|].
  f_equal. by apply IH.
Qed.

(** [split] gives the text before the first separator, followed by the
    split of what comes after it. *)
Lemma split_unfold (sep : ascii) (s : string) :
  ∃ w ws,
    split sep s = w :: ws ∧ (sep ∉ chars w)
    ∧ ((ws = [] ∧ chars s = chars w)
       ∨ ∃ s', chars s = chars w ++ sep :: chars s' ∧ ws = split sep s'
               ∧ length (chars s') < length (chars s)).
Proof.
  induction s as [|c s IH].
  - exists "", []. split; [done|]. split; [by intros ?%elem_of_nil|]. by left.
  - simpl. destruct (decide (c = sep)) as [->|Hc].
    + exists "", (split sep s). split; [done|]. split; [by intros ?%elem_of_nil|].
      right. exists s. split; [done|]. split; [done|]. simpl. lia.
    + destruct IH as (w & ws & -> & Hw & Hrest).
      exists (String c w), ws. split; [done|]. split.
      { simpl. rewrite elem_of_cons. intros [?|?]; [congruence|done]. }
      destruct Hrest as [[-> Hs]|(s' & Hs & -> & Hlen)].
      * left. split; [done|]. simpl. by rewrite Hs.
      * right. exists s'. split; [simpl; by rewrite Hs|]. split; [done|].
        simpl. lia.
Qed.

Lemma first_separator (sep : ascii) (w r a b : list ascii) :
  sep ∉ w → w ++ sep :: r = a ++ sep :: b →
  (a = w ∧ b = r) ∨ ∃ a', a = w ++ sep :: a' ∧ r = a' ++ sep :: b.
Proof.
  revert a. induction w as [|c w IH]; intros a Hw Heq.
  - destruct a as [|c' a]; simplify_eq/=; [by left|]. right. by exists a.
  - apply not_elem_of_cons in Hw as [Hc Hw].
    destruct a as [|c' a]; simplify_eq/=.
    destruct (IH a Hw) as [[-> ->]|(a' & -> & ->)]; [done|by left|].
    right. by exists a'.
Qed.

Lemma elem_of_split (sep : ascii) (s x : string) :
  x ∈ split sep s
  ↔ ∃ pre post,
      chars s = pre ++ chars x ++ post ∧ (sep ∉ chars x)
      ∧ (pre = [] ∨ last pre = Some sep) ∧ (post = [] ∨ head post = Some sep).
Proof.
  remember (length (chars s)) as n eqn:Hn. revert s Hn.
  induction (lt_wf n) as [n _ IH]. intros s ->.
  destruct (split_unfold sep s) as (w & ws & -> & Hw & Hrest).
  rewrite elem_of_cons. split.
  - intros [->|Hx].
    + exists []. destruct Hrest as [[_ Hs]|(s' & Hs & _ & _)].
      * exists []. rewrite app_nil_r. naive_solver.
      * exists (sep :: chars s'). naive_solver.
    + destruct Hrest as [[-> _]|(s' & Hs & -> & Hlen)]; [by apply elem_of_nil in Hx|].
      apply (IH _ Hlen s' eq_refl) in Hx as (pre & post & Hs' & Hx & Hpre & Hpost).
      exists (chars w ++ sep :: pre), post. split_and!; try done.
      * rewrite Hs, Hs'. by rewrite <- !app_assoc.
      * right. rewrite last_app. simpl. destruct Hpre as [->|Hpre]; [done|].
        rewrite last_cons, Hpre. done.
  - intros (pre & post & Hs & Hx & Hpre & Hpost).
    destruct Hrest as [[-> Hsw]|(s' & Hs' & -> & Hlen)].
    + left. rewrite Hsw in Hs.
      assert (pre = []) as ->.
      { destruct Hpre as [|Hl]; [done|]. exfalso. apply Hw. rewrite Hs.
        apply elem_of_app. left. by apply last_Some_elem_of. }
      assert (post = []) as ->.
      { destruct Hpost as [|Hh]; [done|]. exfalso. apply Hw. rewrite Hs.
        apply elem_of_app. right. apply elem_of_app. right.
        destruct post; simplify_eq/=. left. }
      rewrite app_nil_r in Hs. simpl in Hs. symmetry. by apply chars_inj.
    + rewrite Hs' in Hs. destruct Hpre as [->|Hl].
      * left. simpl in Hs. destruct Hpost as [->|Hh].
        { rewrite app_nil_r in Hs. exfalso. apply Hx. rewrite <- Hs.
          apply elem_of_app. right. left. }
        destruct post as [|c post]; simplify_eq/=.
        destruct (first_separator sep (chars w) (chars s') (chars x) post Hw Hs)
          as [[Heq _]|(a' & Heq & _)].
        -- by apply chars_inj.
        -- exfalso. apply Hx. rewrite Heq. apply elem_of_app. right. left.
      * right. apply last_Some in Hl as [pre0 ->].
        rewrite <- !app_assoc in Hs. simpl in Hs.
        destruct (first_separator sep (chars w) (chars s') pre0 (chars x ++ post) Hw Hs)
          as [[-> Hs'']|(a' & -> & Hs'')].
        -- apply (IH _ Hlen s' eq_refl). exists [], post. naive_solver.
        -- apply (IH _ Hlen s' eq_refl). exists (a' ++ [sep]), post.
           split_and!; try done.
           ++ rewrite Hs''. by rewrite <- !app_assoc.
           ++ right. by rewrite last_snoc.
Qed.

Lemma suffix_after_separator (t a rest : list ascii) (c : ascii) :
  c ∉ t → t `suffix_of` a ++ c :: rest → t `suffix_of` rest.
Proof.
  intros Hc Ht.
  destruct (suffix_weak_total t (c :: rest) (a ++ c :: rest) Ht) as [Hs|[k Hk]].
  - by apply suffix_app_r.
  - destruct t as [|x t]; [by exists rest; rewrite app_nil_r|].
    apply suffix_cons_inv in Hs as [Heq|Hs]; [|done].
    simplify_eq. exfalso. apply Hc. left.
  - exfalso. apply Hc. rewrite Hk. apply elem_of_app. right. left.
Qed.

Lemma is_migration_file_iff_parts (path : string) :
  _is_migration_file path = true
  ↔ endswith path ".py" = true
    ∧ ("migrations" ∈ split "/" (replace "\" "/" path)
       ∨ "versions" ∈ split "/" (replace "\" "/" path)).
Proof.
  unfold _is_migration_file. destruct (endswith path ".py"); simpl; [|naive_solver].
  repeat case_bool_decide; naive_solver.
Qed.

Lemma file_under_iff (dir : string) (path : string) :
  "/"%char ∉ chars dir → 3 < length (chars dir) →
  ¬ chars ".py" `suffix_of` chars dir →
  endswith path ".py" = true ∧ dir ∈ split "/" (replace "\" "/" path)
  ↔ file_under dir (chars (replace "\" "/" path)).
Proof.
  intros Hsep Hlen Hpy. rewrite <- endswith_py_replace.
  set (p := replace "\" "/" path). unfold endswith. rewrite bool_decide_eq_true.
  fold (chars ".py") (chars p). rewrite elem_of_split. unfold file_under. split.
  - intros (Hend & pre & post & Hp & _ & Hpre & Hpost).
    destruct Hpost as [->|Hh].
    + exfalso. rewrite app_nil_r in Hp. rewrite Hp in Hend.
      destruct (suffix_weak_total (chars ".py") (chars dir) (pre ++ chars dir) Hend)
        as [?|Hs]; [by apply suffix_app_r|done|].
      apply suffix_length in Hs. simpl in Hs. lia.
    + destruct post as [|c rest]; simplify_eq/=.
      exists pre, rest. split; [done|]. split; [done|].
      rewrite Hp in Hend. rewrite app_assoc in Hend.
      apply suffix_after_separator in Hend; [done|].
      rewrite !elem_of_cons, elem_of_nil. naive_solver.
  - intros (pre & rest & Hp & Hpre & Hend). split.
    + rewrite Hp. by do 2 apply suffix_app_r, suffix_cons_r || apply suffix_app_r.
    + exists pre, ("/"%char :: rest). split_and!; try done. by right.
Qed.

End migration_paths.

(** A path is a migration file exactly when, written with slashes, it
    names a file ending in [.py] that lies below a directory called
    [migrations] or [versions]; a file that is itself called
    [migrations.py] or [versions.py] does not count. *)
Theorem is_migration_file_iff (path : string) :
  BranchCompare._is_migration_file path = true
  ↔ file_under "migrations" (chars (BranchCompare.replace "\" "/" path))
    ∨ file_under "versions" (chars (BranchCompare.replace "\" "/" path)).
Proof.
  rewrite is_migration_file_iff_parts.
  rewrite <- !file_under_iff; [tauto|..]; try (simpl; lia);
    try (rewrite !elem_of_cons, elem_of_nil; naive_solver);
    apply (bool_decide_unpack (¬ _)); by vm_compute.
Qed.

(** ** The paths reported by [detect_cycles] are cycles *)

Lemma tc_parent_inv p x m :
  tc (parent_step p) x m →
  ∃ y, parent_get p x = Some y ∧ (y = m ∨ tc (parent_step p) y m).
Proof. intros Htc. inversion Htc as [? ? Hxy|? y ? Hxy Hym]; subst; eauto. Qed.

(** Parent links that agree on a set of nodes closed under the links give
    the same climbs from the nodes of the set. *)
Lemma tc_parent_agree (S : string → Prop) p p' x m :
  (∀ y, S y → parent_get p' y = parent_get p y) →
  (∀ y z, S y → parent_get p y = Some z → S z) →
  S x → tc (parent_step p) x m → tc (parent_step p') x m.
Proof.
  intros Hagree Hclosed Hx Htc. induction Htc as [x m Hxm|x y m Hxy _ IH].
  - apply tc_once. unfold parent_step. by rewrite Hagree.
  - eapply tc_l; [|apply IH; by eapply Hclosed].
    unfold parent_step. by rewrite Hagree.
Qed.

Lemma tc_parent_agree_first (S : string → Prop) p p' x m :
  (∀ y, S y → parent_get p' y = parent_get p y) →
  (∀ y z, S y → parent_get p y = Some z → S z) →
  parent_get p' x = parent_get p x →
  (∀ z, parent_get p x = Some z → S z) →
  tc (parent_step p) x m → tc (parent_step p') x m.
Proof.
  intros Hagree Hclosed Hx Hnext Htc.
  apply tc_parent_inv in Htc as (y & Hxy & [->|Hym]).
  - apply tc_once. unfold parent_step. by rewrite Hx.
  - eapply tc_l; [unfold parent_step; by rewrite Hx|].
    eapply tc_parent_agree; eauto.
Qed.

Lemma parent_get_Some p x y : parent_get p x = Some y ↔ p !! x = Some (Some y).
Proof.
  unfold parent_get. destruct (p !! x) as [[z|]|]; simpl; naive_solver.
Qed.

(** The walk up the parent links from a node that climbs to [dep] stops
    at a node whose parent is [dep]. *)
Lemma walk_parents_closed fuel p dep x a0 acc c :
  tc (parent_step p) x dep →
  last (a0 :: acc) = Some x →
  walk_parents fuel p dep (parent_get p x) (a0 :: acc) = Ok c →
  head c = Some a0 ∧ ∃ y, last c = Some y ∧ parent_get p y = Some dep.
Proof.
  revert x acc. induction fuel as [|fuel IH]; intros x acc Htc Hlast Hrun;
    apply tc_parent_inv in Htc as (y & Hxy & Hy); rewrite Hxy in Hrun;
    simpl in Hrun; destruct (decide (y = dep)) as [->|Hne]; simplify_eq/=.
  - split; [done|]. by exists x.
  - split; [done|]. by exists x.
  - destruct Hy as [?|Hy]; [done|].
    apply (IH y (acc ++ [y]) Hy) in Hrun; [done|].
    change (a0 :: acc ++ [y]) with ((a0 :: acc) ++ [y]). by rewrite last_snoc.
Qed.

Lemma head_reverse {A} (l : list A) : head (reverse l) = last l.
Proof.
  induction l as [|x l IH] using rev_ind; [done|].
  by rewrite reverse_snoc, last_snoc.
Qed.

Lemma last_reverse_head {A} (l : list A) : last (reverse l) = head l.
Proof. by rewrite <- head_reverse, reverse_involutive. Qed.

(** The parent links after the loop over the dependencies of a node. *)
Lemma visit_fold_parent wfuel node ds st stack st' stack' :
  foldl (visit_dep wfuel node) (Ok (st, stack)) ds = Ok (st', stack') →
  color st' = color st
  ∧ (∀ k, k ∈ ds → color st !! k = Some WHITE → parent st' !! k = Some (Some node))
  ∧ (∀ k, k ∉ ds ∨ color st !! k ≠ Some WHITE → parent st' !! k = parent st !! k).
Proof.
  revert st stack. induction ds as [|d ds IH]; intros st stack Hrun.
  - simpl in Hrun. simplify_eq. split; [done|]. split; [|done].
    by intros k ?%elem_of_nil.
  - cbn [foldl] in Hrun.
    destruct (visit_fold_not_ok _ _ _ _ _ Hrun) as [[st1 stack1] Hstep].
    rewrite Hstep in Hrun. destruct (IH _ _ Hrun) as (Hcol & Hwhite & Hother).
    simpl in Hstep. destruct (color st !! d) as [[]|] eqn:Hd; simplify_eq/=.
    + split; [done|]. split.
      * intros k Hk Hkw. destruct (decide (k ∈ ds)) as [Hin|Hnin]; [by apply Hwhite|].
        apply elem_of_cons in Hk as [->|?]; [|done].
        rewrite Hother by (by left). simpl. by rewrite lookup_insert_eq.
      * intros k Hk. rewrite Hother.
        -- simpl. rewrite lookup_insert_ne; [done|]. intros ->.
           destruct Hk as [Hk|Hk]; [apply Hk; left|done].
        -- destruct Hk as [Hk|Hk]; [left; set_solver|by right].
    + destruct (walk_parents _ _ _ _ _) as [c| |]; simplify_eq/=.
      split; [done|]. split.
      * intros k Hk Hkw. apply elem_of_cons in Hk as [->|?]; [congruence|].
        by apply Hwhite.
      * intros k Hk. rewrite Hother; [done|].
        destruct Hk as [Hk|Hk]; [left; set_solver|by right].
    + split; [done|]. split.
      * intros k Hk Hkw. apply elem_of_cons in Hk as [->|?]; [congruence|].
        by apply Hwhite.
      * intros k Hk. rewrite Hother; [done|].
        destruct Hk as [Hk|Hk]; [left; set_solver|by right].
Qed.

Lemma visit_fold_closed g wfuel node ds st stack st' stack' :
  (∀ d, d ∈ ds → d ∈ deps_of g node) →
  parent_edges g st →
  Forall (closed_path g) (cycles st) →
  (∀ d, d ∈ ds → color st !! d = Some GRAY → tc (parent_step (parent st)) node d) →
  color st !! node ≠ Some WHITE →
  (∀ y z, parent st !! y = Some (Some z) → color st !! z ≠ Some WHITE) →
  foldl (visit_dep wfuel node) (Ok (st, stack)) ds = Ok (st', stack') →
  parent_edges g st' ∧ Forall (closed_path g) (cycles st').
Proof.
  revert st stack.
  induction ds as [|d ds IH]; intros st stack Hds Hpe Hclosed Hgray Hnode Hpar Hrun.
  - simpl in Hrun. by simplify_eq.
  - cbn [foldl] in Hrun.
    destruct (visit_fold_not_ok _ _ _ _ _ Hrun) as [[st1 stack1] Hstep].
    rewrite Hstep in Hrun.
    assert (d ∈ deps_of g node) as Hd by (apply Hds; left).
    simpl in Hstep. destruct (color st !! d) as [[]|] eqn:Hcd; simplify_eq/=.
    + apply (IH _ _ (λ d' H, Hds d' (list_elem_of_further _ _ _ H))) in Hrun; [done|..].
      * intros x p Hx. simpl in Hx. destruct (decide (d = x)) as [->|Hne].
        -- rewrite lookup_insert_eq in Hx. by simplify_eq.
        -- rewrite lookup_insert_ne in Hx by done. by apply Hpe.
      * done.
      * intros d' Hd' Hg'. simpl in *.
        eapply (tc_parent_agree (λ y, color st !! y ≠ Some WHITE));
          [| |exact Hnode|apply Hgray; [by right|done]].
        -- intros y Hy. apply parent_get_insert_ne. intros ->. done.
        -- intros y z _ Hyz%parent_get_Some. by eapply Hpar.
      * done.
      * intros y z Hyz. simpl in *. destruct (decide (d = y)) as [->|Hne].
        -- rewrite lookup_insert_eq in Hyz. by simplify_eq.
        -- rewrite lookup_insert_ne in Hyz by done. by eapply Hpar.
    + destruct (walk_parents _ _ _ _ _) as [c| |] eqn:Hwalk; simplify_eq/=.
      apply (IH _ _ (λ d' H, Hds d' (list_elem_of_further _ _ _ H))) in Hrun; [done|..];
        simpl; try done.
      * apply Forall_app. split; [done|]. constructor; [|done].
        destruct (walk_parents_closed wfuel (parent st) d node d [node] c)
          as (Hhead & y & Hlast & Hy); [apply Hgray; [left|done]|done|done|].
        exists y, d. rewrite head_reverse, last_reverse_head.
        split; [done|]. split; [done|]. by apply Hpe, parent_get_Some.
      * intros d' Hd' Hg'. apply Hgray; [by right|done].
    + apply (IH _ _ (λ d' H, Hds d' (list_elem_of_further _ _ _ H))) in Hrun; try done.
      intros d' Hd' Hg'. apply Hgray; [by right|done].
Qed.

Lemma stack_climbs_pop st st' e rest :
  parent st' = parent st → stack_climbs st (e :: rest) → stack_climbs st' rest.
Proof.
  intros Hp Hc above m below x b -> Hx. rewrite Hp.
  apply (Hc (e :: above) m below x b); [done|by right].
Qed.

Lemma dfs_closed_step g wfuel st n b rest st' stack' :
  reachable g →
  no_self_dependency g →
  size (_nodes g) ≤ wfuel →
  dfs_inv g st ((n, b) :: rest) →
  stack_climbs st ((n, b) :: rest) ∧ parent_edges g st
  ∧ Forall (closed_path g) (cycles st) →
  dfs_step g wfuel st n b rest = Ok (st', stack') →
  stack_climbs st' stack' ∧ parent_edges g st' ∧ Forall (closed_path g) (cycles st').
Proof.
  intros Hg Hself Hwfuel Hinv (Hclimb & Hpe & Hclosed) Hstep.
  assert (∀ st0, parent st0 = parent st → cycles st0 = cycles st →
            stack_climbs st0 rest ∧ parent_edges g st0
            ∧ Forall (closed_path g) (cycles st0)) as Hpop.
  { intros st0 Hp Hc. split; [by eapply stack_climbs_pop|].
    unfold parent_edges. by rewrite Hp, Hc. }
  destruct b.
  { apply dfs_step_finish_eq in Hstep as [-> ->]. by apply Hpop. }
  destruct (dfs_step_process g wfuel st n rest Hg Hinv Hwfuel)
    as (st1 & cs & Hs & Hcn & Hcol & _).
  rewrite Hs in Hstep. injection Hstep as <- <-.
  assert (foldl (visit_dep wfuel n) (Ok (set_color n GRAY st, (n, true) :: rest))
            (sorted (elements (deps_of g n)))
          = Ok (st1, pushed (<[n:=GRAY]> (color st)) (sorted (elements (deps_of g n)))
                       ++ (n, true) :: rest)) as Hfold.
  { rewrite <- Hs. unfold dfs_step.
    destruct Hcn as [Hn|Hn]; by rewrite Hn. }
  set (ds := sorted (elements (deps_of g n))) in *.
  set (col' := <[n:=GRAY]> (color st)) in *.
  assert (∀ d, d ∈ ds → d ∈ deps_of g n) as Hds
    by (by intros d ?%elem_of_sorted%elem_of_elements).
  destruct (visit_fold_parent _ _ _ _ _ _ _ Hfold) as (_ & Hwhite & Hother).
  simpl in Hwhite, Hother. fold col' in Hwhite, Hother.
  (* the non-white nodes are closed under the parent links, and their links
     do not change *)
  assert (∀ y z, parent st !! y = Some (Some z) → col' !! z ≠ Some WHITE) as Hpar.
  { intros y z Hyz. apply (dfs_parent_nonwhite _ _ _ Hinv) in Hyz.
    subst col'. destruct (decide (n = z)) as [->|Hne].
    - by rewrite lookup_insert_eq.
    - rewrite lookup_insert_ne by done. by destruct Hyz as [-> | ->]. }
  assert (col' !! n ≠ Some WHITE) as Hnode by (subst col'; by rewrite lookup_insert_eq).
  assert (∀ y, col' !! y ≠ Some WHITE → parent_get (parent st1) y = parent_get (parent st) y)
    as Hagree.
  { intros y Hy. unfold parent_get. rewrite Hother; [done|by right]. }
  assert (∀ y z, col' !! y ≠ Some WHITE → parent_get (parent st) y = Some z →
            col' !! z ≠ Some WHITE) as Hclosure.
  { intros y z _ Hyz%parent_get_Some. by eapply Hpar. }
  (* climbs of the old stack survive *)
  assert (∀ k m below x b, rest = k ++ (m, true) :: below →
            (x, b) ∈ (n, false) :: k → tc (parent_step (parent st1)) x m) as Hold.
  { intros k m below x b Hrest Hx.
    pose proof (Hclimb ((n, false) :: k) m below x b) as Hxm.
    rewrite Hrest in Hxm. specialize (Hxm eq_refl Hx).
    destruct (decide (x ∈ ds ∧ col' !! x = Some WHITE)) as [[Hxd Hxw]|Hnot].
    - assert (tc (parent_step (parent st)) n m) as Hnm.
      { pose proof (Hclimb ((n, false) :: k) m below n false) as H.
        rewrite Hrest in H. apply H; [done|left]. }
      eapply tc_l.
      + unfold parent_step. apply parent_get_Some. by apply Hwhite.
      + by eapply (tc_parent_agree (λ y, col' !! y ≠ Some WHITE)).
    - eapply (tc_parent_agree_first (λ y, col' !! y ≠ Some WHITE)); [done|done| | |done].
      + unfold parent_get. rewrite Hother; [done|].
        destruct (decide (x ∈ ds)); [right; naive_solver|by left].
      + intros z Hz%parent_get_Some. by eapply Hpar. }
  split.
  - intros above m below x b Heq Hx.
    apply split_app_cons in Heq as [(k & Hk & _)|[(-> & [= ->] & ->)|(k & -> & ->)]].
    + assert ((m, true) ∈ pushed col' ds) as Hin by (rewrite Hk; set_solver).
      by apply elem_of_pushed in Hin as [? _].
    + apply elem_of_pushed in Hx as (_ & Hd & Hw). apply tc_once.
      unfold parent_step. apply parent_get_Some. by apply Hwhite.
    + apply elem_of_app in Hx as [Hx|[[= -> ->]|Hx]%elem_of_cons].
      * apply elem_of_pushed in Hx as (_ & Hd & Hw). eapply tc_l.
        -- unfold parent_step. apply parent_get_Some. by apply Hwhite.
        -- apply (Hold k m below n false); [done|left].
      * apply (Hold k m below n false); [done|left].
      * apply (Hold k m below x b); [done|by right].
  - eapply (visit_fold_closed g wfuel n ds (set_color n GRAY st)); [done|done|done| |done|done|exact Hfold].
    intros d Hd Hgray. simpl in Hgray. fold col' in Hgray.
    assert (d ≠ n) as Hdn by (intros ->; by apply (Hself n), Hds).
    subst col'. rewrite lookup_insert_ne in Hgray by done.
    apply (dfs_gray _ _ _ Hinv) in Hgray.
    apply elem_of_cons in Hgray as [?|Hin]; [simplify_eq|].
    apply list_elem_of_split in Hin as (k & below & ->).
    apply (Hclimb ((n, false) :: k) d below n false); [done|left].
Qed.

Lemma detect_cycles_closed_aux (g : MigrationGraph) (paths : list (list string)) :
  reachable g →
  no_self_dependency g →
  detect_cycles g = Ok paths →
  Forall (closed_path g) paths.
Proof.
  intros Hg Hself Hrun. unfold detect_cycles, detect_cycles_fuel in Hrun.
  destruct (foldl _ _ _) as [st| |] eqn:Hfold; simplify_eq/=.
  eapply proj2.
  eapply (dfs_outer_invariant g (dfs_bound g)
            (λ st, parent_edges g st ∧ Forall (closed_path g) (cycles st))
            (λ st stack, stack_climbs st stack ∧ parent_edges g st
                         ∧ Forall (closed_path g) (cycles st)));
    [done|done| | | | | | |exact Hfold].
  - intros st0 start _ HJ. split; [|done].
    intros above m below x b Heq. destruct above as [|? [|]]; simplify_eq/=.
  - by intros st0 [_ ?].
  - intros st0 n b rest st1 stack1 Hinv HI Hstep.
    exact (dfs_closed_step g (dfs_bound g) st0 n b rest st1 stack1 Hg Hself
             (dfs_bound_nodes g) Hinv HI Hstep).
  - apply dfs_init_outer_inv.
  - split; [|by constructor].
    intros x p [_ ?]%lookup_gset_to_gmap_Some. done.
  - by intros s ?%elem_of_sorted%elem_of_elements.
Qed.

(** On a graph built through the public interface in which no node depends
    on itself, every path that [detect_cycles] reports is a cycle: its last
    node depends on its first one. *)
Theorem detect_cycles_reports_closed_cycles (g : MigrationGraph)
    (paths : list (list string)) :
  reachable g →
  no_self_dependency g →
  detect_cycles g = Ok paths →
  Forall (closed_path g) paths.
Proof. apply detect_cycles_closed_aux. Qed.

Lemma detect_cycles_reports_closed_cycles_witness :
  Forall (closed_path cycle_graph) [["b"; "c"; "a"]].
Proof.
  apply (detect_cycles_reports_closed_cycles cycle_graph).
  - repeat constructor.
  - intros n. unfold deps_of, get_or_empty, cycle_graph. simpl.
    repeat case_decide; simplify_eq/=; set_solver.
  - by vm_compute.
Defined.

(** The condition on self-dependencies is needed: when [b] depends on
    itself and [a] depends on [b], the path reported for the loop at [b]
    also lists [a], and [b] does not depend on [a]. *)
Lemma detect_cycles_self_dependency_not_closed :
  let g := add_edge (add_edge empty_graph "a" "b") "b" "b" in
  detect_cycles g = Ok [["a"; "b"; "b"]] ∧ ¬ closed_path g ["a"; "b"; "b"].
Proof.
  split; [by vm_compute|].
  intros (a & b & [= <-] & [= <-] & Hab).
  revert Hab. unfold deps_of, get_or_empty. simpl.
  repeat case_decide; simplify_eq/=; set_solver.
Qed.
